(** * mms: maze file codec and mouse kinematics

    A shallow embedding of [src/sim/MazeFileUtilities.cpp] and
    [src/sim/Mouse.cpp].

    Conventions.
    - A C++ [int] is a [Z]; a token is an [int] only when its value lies
      between [INT_MIN] and [INT_MAX], and where the code converts an [int]
      to [size_t] the conversion is written out as a reduction modulo
      [2^64].  The counters of the loops over the lines of a file are
      bounded by the number of lines; their overflow is not modelled.
    - A [double] (and every unit type wrapping one: [Meters], [Radians],
      [RadiansPerSecond], ...) is a real number in the kinematic part; this
      is the exact-arithmetic reading of the code.  Where a divisor can
      be zero (the normalizations and the curve turn factors) the result
      is an [option R], and [None] is a result that is not a real number
      (a NaN or an infinity): every comparison with it is false.  The few
      lines whose behaviour depends on rounding are also given over IEEE
      binary64 ([PrimFloat]), through the [Arith] class.
    - A failed [SIM_ASSERT_*]/[ASSERT_*] and a C++ exception end the
      computation; see [Outcome].
    - A [std::map] that is only traversed is the list of its entries in
      key order. *)

From Stdlib Require Import ZArith List Sorted String Ascii Bool Lia.
From Stdlib Require Import DecimalString DecimalZ DecimalPos.
From Stdlib Require Import Reals Lra.
From Stdlib Require Import Floats.
Import ListNotations.

(* ================================================================= *)
(** * Outcomes of a call *)

(** What a call of the program can end in.  [AssertFailed] is a failed
    [SIM_ASSERT_TR], [ASSERT_TR] or [ASSERT_LE]; [Throws] is a C++
    exception ([std::out_of_range] of [at], [std::invalid_argument] of a
    numeric conversion). *)
Inductive Outcome (A : Type) : Type :=
| Returns (a : A)
| AssertFailed
| Throws.

Arguments Returns {A} a.
Arguments AssertFailed {A}.
Arguments Throws {A}.

Definition bind {A B : Type} (o : Outcome A) (k : A -> Outcome B) : Outcome B :=
  match o with
  | Returns a => k a
  | AssertFailed => AssertFailed
  | Throws => Throws
  end.

Declare Scope outcome_scope.
Delimit Scope outcome_scope with outcome.
Notation "x <- c ;; k" := (bind c (fun x => k))
  (at level 61, c at next level, right associativity) : outcome_scope.
Notation "c ;;; k" := (bind c (fun _ => k))
  (at level 61, right associativity) : outcome_scope.

(** Modelled from the spec: [SIM_ASSERT_TR], [ASSERT_TR] ([Assert.h] is not
    part of the sources at hand); a failed internal assertion is fatal. *)
Definition ASSERT_TR (condition : bool) : Outcome unit :=
  if condition then Returns tt else AssertFailed.

(** [std::vector::at] *)
Definition at_ {A : Type} (v : list A) (i : nat) : Outcome A :=
  match nth_error v i with
  | Some a => Returns a
  | None => Throws
  end.

(* ================================================================= *)
(** * Text: files, lines, tokens, integers *)

Module Text.

Local Open Scope string_scope.

Definition newline : ascii := ascii_of_nat 10.
Definition tab : ascii := ascii_of_nat 9.
Definition space : ascii := ascii_of_nat 32.

(** What is found at a path: nothing that is a regular file, a file that
    cannot be opened, or a file with its content. *)
Inductive FileState : Type :=
| NotAFile
| Unopenable
| Contents (content : string).

Definition FileSystem : Type := string -> FileState.

Definition writeFile (fs : FileSystem) (path content : string) : FileSystem :=
  fun p => if String.eqb p path then Contents content else fs p.

(** The lines that a [while (std::getline(file, line))] loop sees: each
    line ends at a newline, which is dropped; a last line without newline is
    read too; the empty rest after the last newline is not a line. *)
Fixpoint getlines (s : string) : list string :=
  match s with
  | EmptyString => []
  | String c rest =>
      if Ascii.eqb c newline then EmptyString :: getlines rest
      else match getlines rest with
           | [] => [String c EmptyString]
           | l :: ls => String c l :: ls
           end
  end.

(** Modelled from the spec: [SimUtilities::tokenize] ([SimUtilities.cpp] is
    not part of the sources at hand): the maximal runs of characters that
    are not delimiters, in order; empty tokens are dropped.  [word] is the
    token being read. *)
Fixpoint tokenizeFrom (isDelimiter : ascii -> bool) (word : string) (str : string)
  : list string :=
  match str with
  | EmptyString =>
      match word with EmptyString => [] | _ => [word] end
  | String c rest =>
      if isDelimiter c then
        match word with
        | EmptyString => tokenizeFrom isDelimiter EmptyString rest
        | _ => word :: tokenizeFrom isDelimiter EmptyString rest
        end
      else tokenizeFrom isDelimiter (word ++ String c EmptyString) rest
  end.

(** Tokens are separated by one or more spaces or tabs. *)
Definition isWhitespace (c : ascii) : bool :=
  Ascii.eqb c space || Ascii.eqb c tab.

Definition tokenize (str : string) : list string :=
  tokenizeFrom isWhitespace EmptyString str.

Definition tokenizeAt (delimiter : ascii) (str : string) : list string :=
  tokenizeFrom (Ascii.eqb delimiter) EmptyString str.

Definition INT_MIN : Z := - 2 ^ 31.
Definition INT_MAX : Z := 2 ^ 31 - 1.

(** Modelled from the spec: [SimUtilities::isInt] and
    [SimUtilities::strToInt]: a token is an integer when it is a decimal
    numeral, with an optional leading minus sign, whose value fits an
    [int]. *)
Definition parseInt (s : string) : option Z :=
  match NilZero.int_of_string s with
  | Some d =>
      let z := Z.of_int d in
      if (INT_MIN <=? z)%Z && (z <=? INT_MAX)%Z then Some z else None
  | None => None
  end.

Definition isInt (s : string) : bool :=
  match parseInt s with Some _ => true | None => false end.

Definition strToInt (s : string) : Outcome Z :=
  match parseInt s with Some z => Returns z | None => Throws end.

(** [std::ostream::operator<<(int)] *)
Definition intToString (z : Z) : string := NilZero.string_of_int (Z.to_int z).

(** Conversion of an [int] to [size_t] in a mixed comparison. *)
Definition toSizeT (z : Z) : Z := (z mod 2 ^ 64)%Z.

End Text.

(* ================================================================= *)
(** * Directions and tiles *)

Inductive Direction : Type := NORTH | EAST | SOUTH | WEST.

(** Modelled from the spec: the constant [DIRECTIONS] and
    [SimUtilities::getDirectionIndex] ([Direction.h] and [SimUtilities.cpp]
    are not part of the sources at hand): the fixed order N, E, S, W, and
    the position of a direction in it. *)
Definition DIRECTIONS : list Direction := [NORTH; EAST; SOUTH; WEST].

Definition getDirectionIndex (d : Direction) : nat :=
  match d with NORTH => 0 | EAST => 1 | SOUTH => 2 | WEST => 3 end.

Definition opposite (d : Direction) : Direction :=
  match d with NORTH => SOUTH | EAST => WEST | SOUTH => NORTH | WEST => EAST end.

(** [std::map<Direction, bool>]: at most one entry for each of the four
    keys. *)
Record WallMap : Type := mkWalls {
  entryN : option bool;
  entryE : option bool;
  entryS : option bool;
  entryW : option bool
}.

Definition noWalls : WallMap := mkWalls None None None None.

Definition find (d : Direction) (m : WallMap) : option bool :=
  match d with
  | NORTH => entryN m | EAST => entryE m | SOUTH => entryS m | WEST => entryW m
  end.

Definition orElse {A : Type} (o : option A) (a : A) : option A :=
  match o with Some _ => o | None => Some a end.

(** [std::map::insert]: an entry that is already there is kept. *)
Definition insert (d : Direction) (b : bool) (m : WallMap) : WallMap :=
  match d with
  | NORTH => mkWalls (orElse (entryN m) b) (entryE m) (entryS m) (entryW m)
  | EAST => mkWalls (entryN m) (orElse (entryE m) b) (entryS m) (entryW m)
  | SOUTH => mkWalls (entryN m) (entryE m) (orElse (entryS m) b) (entryW m)
  | WEST => mkWalls (entryN m) (entryE m) (entryS m) (orElse (entryW m) b)
  end.

(** [std::map::at] *)
Definition wallAt (m : WallMap) (d : Direction) : Outcome bool :=
  match find d m with Some b => Returns b | None => Throws end.

Record BasicTile : Type := mkTile { walls : WallMap }.

Definition Grid : Type := list (list BasicTile).

(** The tile at column [x], row [y] of a column-major grid. *)
Definition tileAt (maze : Grid) (x y : nat) : option BasicTile :=
  match nth_error maze x with
  | Some column => nth_error column y
  | None => None
  end.

Definition wall (maze : Grid) (x y : nat) (d : Direction) : option bool :=
  match tileAt maze x y with
  | Some t => find d (walls t)
  | None => None
  end.

(** The neighbour of [(x, y)] across its [d] side, when its coordinates are
    not negative. *)
Definition neighbour (x y : nat) (d : Direction) : option (nat * nat) :=
  match d with
  | NORTH => Some (x, S y)
  | EAST => Some (S x, y)
  | SOUTH => match y with O => None | S y' => Some (x, y') end
  | WEST => match x with O => None | S x' => Some (x', y) end
  end.

(* ================================================================= *)
(** * MazeFileUtilities *)

Module MazeFileUtilities.

Import Text.
Local Open Scope Z_scope.
Local Open Scope outcome_scope.

(** What [L()->warn] is given by [isMazeFileNumType]. *)
Inductive Warning : Type :=
| IsNotAFile
| CouldNotOpen
| IsEmpty
| NotSixEntries (lineNum : Z) (entries : nat)
| NonNumericEntry (token : string) (lineNum : Z) (position : Z)
| UnexpectedXY (x y : Z) (lineNum : Z)
| InvalidWallValue (value : Z) (position : Z) (lineNum : Z).

(** The value returned by a validation together with the warning logged
    when it is [false]. *)
Inductive Verdict : Type :=
| Accepted
| Rejected (w : Warning).

Definition accepted (v : Verdict) : bool :=
  match v with Accepted => true | Rejected _ => false end.

Definition isMazeFileBinType (fs : FileSystem) (mazeFilePath : string) : bool := false.

Definition isMazeFileMapType (fs : FileSystem) (mazeFilePath : string) : bool := false.

(** The loop over the tokens of a line that collects [values]. *)
Fixpoint readValues (lineNum : Z) (i : Z) (tokens : list string)
  : Warning + list Z :=
  match tokens with
  | [] => inr []
  | token :: rest =>
      match parseInt token with
      | None => inl (NonNumericEntry token lineNum (i + 1))
      | Some value =>
          match readValues lineNum (i + 1) rest with
          | inl w => inl w
          | inr values => inr (value :: values)
          end
      end
  end.

(** The loop over the four wall values of a line. *)
Fixpoint checkWallValues (lineNum : Z) (i : Z) (wallValues : list Z)
  : option Warning :=
  match wallValues with
  | [] => None
  | value :: rest =>
      if (value =? 0) || (value =? 1) then checkWallValues lineNum (i + 1) rest
      else Some (InvalidWallValue value (2 + i + 1) lineNum)
  end.

(** One turn of the loop of [isMazeFileNumType], for the line numbered
    [lineNum] (already incremented): a warning, or the next [expectedX] and
    [expectedY]. *)
Definition checkLine (lineNum expectedX expectedY : Z) (line : string)
  : Warning + (Z * Z) :=
  let tokens := tokenize line in
  if negb (Nat.eqb 6 (List.length tokens)) then
    inl (NotSixEntries lineNum (List.length tokens))
  else
    match readValues lineNum 0 tokens with
    | inl w => inl w
    | inr values =>
        let v0 := nth 0 values 0 in
        let v1 := nth 1 values 0 in
        let caseOne := (v0 =? expectedX) && (v1 =? expectedY) in
        let caseTwo := (v0 =? expectedX + 1) && (v1 =? 0) && negb (expectedY =? 0) in
        let next :=
          if caseOne then inr (expectedX, expectedY + 1)
          else if caseTwo then inr (expectedX + 1, 1)
          else inl (UnexpectedXY v0 v1 lineNum) in
        match next with
        | inl w => inl w
        | inr state =>
            match checkWallValues lineNum 0 (skipn 2 values) with
            | Some w => inl w
            | None => inr state
            end
        end
    end.

Fixpoint checkLines (lineNum expectedX expectedY : Z) (lines : list string)
  : Verdict :=
  match lines with
  | [] => Accepted
  | line :: rest =>
      match checkLine (lineNum + 1) expectedX expectedY line with
      | inl w => Rejected w
      | inr (expectedX', expectedY') =>
          checkLines (lineNum + 1) expectedX' expectedY' rest
      end
  end.

Definition validateNumType (fs : FileSystem) (mazeFilePath : string) : Verdict :=
  match fs mazeFilePath with
  | NotAFile => Rejected IsNotAFile
  | Unopenable => Rejected CouldNotOpen
  | Contents EmptyString => Rejected IsEmpty
  | Contents content => checkLines 0 0 0 (getlines content)
  end.

Definition isMazeFileNumType (fs : FileSystem) (mazeFilePath : string) : bool :=
  accepted (validateNumType fs mazeFilePath).

Definition isMazeFile (fs : FileSystem) (mazeFilePath : string) : bool :=
  isMazeFileBinType fs mazeFilePath
  || isMazeFileMapType fs mazeFilePath
  || isMazeFileNumType fs mazeFilePath.

(** ** Writing the numeric form *)

Definition endl : string := String newline EmptyString.

Definition bit (b : bool) : Z := if b then 1 else 0.

(** The inner loop over [DIRECTIONS]. *)
Fixpoint writeWalls (tile : BasicTile) (directions : list Direction)
  : Outcome string :=
  match directions with
  | [] => Returns EmptyString
  | direction :: rest =>
      b <- wallAt (walls tile) direction ;;
      more <- writeWalls tile rest ;;
      Returns (" " ++ intToString (bit b) ++ more)%string
  end.

Fixpoint writeColumn (x y : Z) (column : list BasicTile) : Outcome string :=
  match column with
  | [] => Returns EmptyString
  | tile :: rest =>
      ws <- writeWalls tile DIRECTIONS ;;
      more <- writeColumn x (y + 1) rest ;;
      Returns (intToString x ++ " " ++ intToString y ++ ws ++ endl ++ more)%string
  end.

Fixpoint writeColumns (x : Z) (maze : Grid) : Outcome string :=
  match maze with
  | [] => Returns EmptyString
  | column :: rest =>
      text <- writeColumn x 0 column ;;
      more <- writeColumns (x + 1) rest ;;
      Returns (text ++ more)%string
  end.

(** The file system after the call (unchanged, with a warning, when the
    stream cannot be opened). *)
Definition saveMazeFileNumType (maze : Grid) (mazeFilePath : string)
    (fs : FileSystem) : Outcome FileSystem :=
  match fs mazeFilePath with
  | Unopenable => Returns fs
  | _ =>
      text <- writeColumns 0 maze ;;
      Returns (writeFile fs mazeFilePath text)
  end.

(** ** Reading the numeric form *)

(** The loop over [DIRECTIONS] that fills a tile. *)
Fixpoint readWalls (tokens : list string) (directions : list Direction)
    (m : WallMap) : Outcome WallMap :=
  match directions with
  | [] => Returns m
  | direction :: rest =>
      token <- at_ tokens (2 + getDirectionIndex direction) ;;
      value <- strToInt token ;;
      readWalls tokens rest (insert direction (1 =? value) m)
  end.

(** One turn of the loop of [loadMazeFileNumType] on [maze] and [column]. *)
Definition loadLine (state : Grid * list BasicTile) (line : string)
  : Outcome (Grid * list BasicTile) :=
  let (maze, column) := state in
  let tokens := tokenize line in
  m <- readWalls tokens DIRECTIONS noWalls ;;
  let tile := mkTile m in
  token0 <- at_ tokens 0 ;;
  x <- strToInt token0 ;;
  let (maze, column) :=
    if Z.of_nat (List.length maze) <? toSizeT x
    then (maze ++ [column], []) else (maze, column) in
  Returns (maze, column ++ [tile]).

Fixpoint loadLines (state : Grid * list BasicTile) (lines : list string)
  : Outcome (Grid * list BasicTile) :=
  match lines with
  | [] => Returns state
  | line :: rest =>
      state' <- loadLine state line ;;
      loadLines state' rest
  end.

(** The lines of the file as the reading loop of a loader gets them: none
    when the stream could not be opened. *)
Definition linesOf (fs : FileSystem) (mazeFilePath : string) : list string :=
  match fs mazeFilePath with
  | Contents content => getlines content
  | _ => []
  end.

Definition loadMazeFileNumType (fs : FileSystem) (mazeFilePath : string)
  : Outcome Grid :=
  ASSERT_TR (isMazeFileNumType fs mazeFilePath) ;;;
  state <- loadLines ([], []) (linesOf fs mazeFilePath) ;;
  let (maze, column) := state in
  Returns (maze ++ [column]).

Definition loadMazeFileBinType (fs : FileSystem) (mazeFilePath : string)
  : Outcome Grid :=
  AssertFailed.

(** ** Reading the map form *)

(** [for (int j = first; j < bound; j += 4)]: [fuel] bounds the number of
    turns; [bound] turns always suffice. *)
Fixpoint forEveryFourth {S : Type} (fuel : nat) (j bound : nat)
    (body : nat -> S -> Outcome S) (s : S) : Outcome S :=
  match fuel with
  | O => Returns s
  | Datatypes.S fuel' =>
      if Nat.ltb j bound then
        s' <- body j s ;;
        forEveryFourth fuel' (j + 4) bound body s'
      else Returns s
  end.

(** [v.at(i) = f(v.at(i))] *)
Definition updateAt {A : Type} (v : list A) (i : nat) (f : A -> Outcome A)
  : Outcome (list A) :=
  a <- at_ v i ;;
  a' <- f a ;;
  Returns (firstn i v ++ a' :: skipn (Datatypes.S i) v).

(** [std::string::at] *)
Definition charAt (line : string) (j : nat) : Outcome ascii :=
  match String.get j line with
  | Some c => Returns c
  | None => Throws
  end.

Definition insertWall (d : Direction) (isWall : bool) (tile : BasicTile)
  : Outcome BasicTile :=
  Returns (mkTile (insert d isWall (walls tile))).

(** A line of horizontal walls: a new tile in every column, and the south
    wall of the tile above it. *)
Definition horizontalWalls (line : string) (rowsFromTop : nat) (j : nat)
    (upsideDownMaze : Grid) : Outcome Grid :=
  c <- charAt line j ;;
  let isWall := negb (Ascii.eqb c space) in
  let tile := mkTile (insert NORTH isWall noWalls) in
  maze1 <- updateAt upsideDownMaze ((j - 2) / 4)
             (fun column => Returns (column ++ [tile])) ;;
  if Nat.ltb 0 rowsFromTop then
    updateAt maze1 ((j - 2) / 4)
      (fun column => updateAt column (rowsFromTop - 1) (insertWall SOUTH isWall))
  else Returns maze1.

(** A line of vertical walls: the east wall of the tile to the left and the
    west wall of the tile to the right. *)
Definition verticalWalls (line : string) (rowsFromTop : nat) (j : nat)
    (upsideDownMaze : Grid) : Outcome Grid :=
  c <- charAt line j ;;
  let isWall := negb (Ascii.eqb c space) in
  maze1 <-
    (if Nat.ltb 0 j then
       updateAt upsideDownMaze ((j - 4) / 4)
         (fun column => updateAt column rowsFromTop (insertWall EAST isWall))
     else Returns upsideDownMaze) ;;
  if Nat.ltb j (String.length line - 1) then
    updateAt maze1 (j / 4)
      (fun column => updateAt column rowsFromTop (insertWall WEST isWall))
  else Returns maze1.

(** One turn of the reading loop on [upsideDownMaze] and [rowsFromTop]. *)
Definition readMapLine (state : Grid * nat) (line : string)
  : Outcome (Grid * nat) :=
  let (upsideDownMaze, rowsFromTop) := state in
  let tokens := tokenizeAt "+"%char line in
  let upsideDownMaze :=
    match upsideDownMaze with
    | [] => repeat [] (List.length tokens)
    | _ => upsideDownMaze
    end in
  if Nat.eqb (List.length tokens) (List.length upsideDownMaze) then
    maze' <- forEveryFourth (String.length line) 2 (String.length line)
               (horizontalWalls line rowsFromTop) upsideDownMaze ;;
    Returns (maze', rowsFromTop)
  else
    maze' <- forEveryFourth (String.length line) 0 (String.length line)
               (verticalWalls line rowsFromTop) upsideDownMaze ;;
    Returns (maze', (rowsFromTop + 1)%nat).

Fixpoint readMapLines (state : Grid * nat) (lines : list string)
  : Outcome (Grid * nat) :=
  match lines with
  | [] => Returns state
  | line :: rest =>
      state' <- readMapLine state line ;;
      readMapLines state' rest
  end.

(** [pop_back]; on an empty vector the behaviour of the C++ code is
    undefined, which is taken as an abnormal end. *)
Definition pop_back {A : Type} (v : list A) : Outcome (list A) :=
  match v with
  | [] => Throws
  | _ => Returns (removelast v)
  end.

Fixpoint stripLastRow (maze : Grid) : Outcome Grid :=
  match maze with
  | [] => Returns []
  | column :: rest =>
      column' <- pop_back column ;;
      rest' <- stripLastRow rest ;;
      Returns (column' :: rest')
  end.

(** The loop that copies every column from its last tile to its first. *)
Definition flip (upsideDownMaze : Grid) : Grid := map (@rev BasicTile) upsideDownMaze.

(** The grid in reading order (top row first), the last extraneous row
    stripped. *)
Definition readUpsideDown (lines : list string) : Outcome Grid :=
  state <- readMapLines ([], O) lines ;;
  stripLastRow (fst state).

(** The body of [loadMazeFileMapType] below its entry assertion. *)
Definition readMazeFileMapType (lines : list string) : Outcome Grid :=
  upsideDownMaze <- readUpsideDown lines ;;
  Returns (flip upsideDownMaze).

Definition loadMazeFileMapType (fs : FileSystem) (mazeFilePath : string)
  : Outcome Grid :=
  ASSERT_TR (isMazeFileMapType fs mazeFilePath) ;;;
  readMazeFileMapType (linesOf fs mazeFilePath).

Definition loadMaze (fs : FileSystem) (mazeFilePath : string) : Outcome Grid :=
  if isMazeFileBinType fs mazeFilePath then loadMazeFileBinType fs mazeFilePath
  else if isMazeFileMapType fs mazeFilePath then loadMazeFileMapType fs mazeFilePath
  else if isMazeFileNumType fs mazeFilePath then loadMazeFileNumType fs mazeFilePath
  else AssertFailed.

End MazeFileUtilities.

(* ================================================================= *)
(** * Arithmetic of [double] *)

(** The operations of [double] that [Mouse::setWheelSpeedsForMovement] uses
    to normalize its factors. *)
Class Arith (D : Type) : Type := {
  lit0 : D;
  lit1 : D;
  fadd : D -> D -> D;
  fdiv : D -> D -> D;
  fabs : D -> D;
  fle : D -> D -> bool
}.

(** IEEE 754 binary64, the [double] of the compiled program. *)
#[export] Instance binary64 : Arith float := {|
  lit0 := 0%float;
  lit1 := 1%float;
  fadd := PrimFloat.add;
  fdiv := PrimFloat.div;
  fabs := PrimFloat.abs;
  fle := PrimFloat.leb
|}.

Definition Rleb (a b : R) : bool := if Rle_dec a b then true else false.

Definition Rltb (a b : R) : bool := if Rlt_dec a b then true else false.

(** Exact arithmetic: a real number, or [None] for a result that is not a
    real number (a quotient by zero, NaN in binary64); as for a NaN, every
    comparison with [None] is false. *)
#[export] Instance exact : Arith (option R) := {|
  lit0 := Some 0%R;
  lit1 := Some 1%R;
  fadd := fun a b =>
    match a, b with Some x, Some y => Some (x + y)%R | _, _ => None end;
  fdiv := fun a b =>
    match a, b with
    | Some x, Some y => if Req_dec_T y 0 then None else Some (x / y)%R
    | _, _ => None
    end;
  fabs := fun a => match a with Some x => Some (Rabs x) | None => None end;
  fle := fun a b =>
    match a, b with Some x, Some y => Rleb x y | _, _ => false end
|}.

(** Modelled from the spec: [ASSERT_LE] ([Assert.h] is not part of the
    sources at hand). *)
Definition ASSERT_LE {D : Type} `{Arith D} (lhs rhs : D) : Outcome unit :=
  ASSERT_TR (fle lhs rhs).

(* ================================================================= *)
(** * Units and geometry *)

Module Geometry.

Local Open Scope R_scope.

Record Cartesian : Type := mkCartesian { getX : R; getY : R }.

Definition plus (a b : Cartesian) : Cartesian :=
  mkCartesian (getX a + getX b) (getY a + getY b).

Definition minus (a b : Cartesian) : Cartesian :=
  mkCartesian (getX a - getX b) (getY a - getY b).

(** Modelled from the spec: the accessors of a Cartesian point (the units
    library is not part of the sources at hand): the Euclidean norm and the
    two-argument arctangent. *)
Definition getRho (c : Cartesian) : R :=
  R_sqrt.sqrt (getX c * getX c + getY c * getY c).

Definition atan2 (y x : R) : R :=
  if Rltb 0 x then atan (y / x)
  else if Rltb x 0 then
    (if Rleb 0 y then atan (y / x) + PI else atan (y / x) - PI)
  else if Rltb 0 y then PI / 2
  else if Rltb y 0 then - (PI / 2)
  else 0.

Definition getTheta (c : Cartesian) : R := atan2 (getY c) (getX c).

(** Modelled from the spec: [Degrees(d).getRadiansZeroTo2pi()], for an
    angle already in [[0, 360)]. *)
Definition degreesToRadians (d : R) : R := d * PI / 180.

(** Modelled from the spec: [RadiansPerSecond::getRevolutionsPerMinute]. *)
Definition getRevolutionsPerMinute (radiansPerSecond : R) : R :=
  radiansPerSecond * 60 / (2 * PI).

Definition Polygon : Type := list Cartesian.

(** Modelled from the spec: [GeometryUtilities::translateVertex],
    [GeometryUtilities::rotateVertexAroundPoint], [Polygon::translate] and
    [Polygon::rotateAroundPoint] ([GeometryUtilities.cpp] and [Polygon.cpp]
    are not part of the sources at hand). *)
Definition translateVertex (vertex translation : Cartesian) : Cartesian :=
  plus vertex translation.

Definition rotateVertexAroundPoint (vertex : Cartesian) (angle : R)
    (point : Cartesian) : Cartesian :=
  let dx := getX vertex - getX point in
  let dy := getY vertex - getY point in
  mkCartesian (getX point + (dx * cos angle - dy * sin angle))
              (getY point + (dx * sin angle + dy * cos angle)).

Definition translate (p : Polygon) (translation : Cartesian) : Polygon :=
  map (fun v => translateVertex v translation) p.

Definition rotateAroundPoint (p : Polygon) (angle : R) (point : Cartesian)
  : Polygon :=
  map (fun v => rotateVertexAroundPoint v angle point) p.

End Geometry.

(* ================================================================= *)
(** * std::map with string keys *)

Module StringMap.

(** The entries of a [std::map<std::string, A>] in key order. *)
Definition t (A : Type) : Type := list (string * A).

Definition keys {A : Type} (m : t A) : list string := map fst m.

Fixpoint lookup {A : Type} (m : t A) (name : string) : option A :=
  match m with
  | [] => None
  | (k, a) :: rest => if String.eqb k name then Some a else lookup rest name
  end.

(** [ContainerUtilities::mapContains] *)
Definition mapContains {A : Type} (m : t A) (name : string) : bool :=
  match lookup m name with Some _ => true | None => false end.

(** [std::map::at] *)
Definition mapAt {A : Type} (m : t A) (name : string) : Outcome A :=
  match lookup m name with Some a => Returns a | None => Throws end.

(** [m.at(name) = f(m.at(name))] *)
Fixpoint modify {A : Type} (m : t A) (name : string) (f : A -> A) : t A :=
  match m with
  | [] => []
  | (k, a) :: rest =>
      if String.eqb k name then (k, f a) :: rest
      else (k, a) :: modify rest name f
  end.

(** A [std::map] holds one entry for each key. *)
Definition wellKeyed {A : Type} (m : t A) : Prop := NoDup (keys m).

End StringMap.

(* ================================================================= *)
(** * Mouse *)

Module Mouse.

Import Geometry StringMap.
Local Open Scope R_scope.
Local Open Scope outcome_scope.

(** Modelled from the spec: the state of a [Wheel] that [Mouse.cpp] reads
    and writes ([Wheel.cpp] is not part of the sources at hand):
    [setAngularVelocity] stores the velocity, and [updateRotation] adds an
    angle to the rotation the encoders read. *)
Record Wheel : Type := mkWheel {
  getInitialPolygon : Polygon;
  getInitialPosition : Cartesian;
  getInitialDirection : R;
  getRadius : R;
  getMaxAngularVelocityMagnitude : R;
  getAngularVelocity : R;
  getRotation : R
}.

Definition setAngularVelocity (angularVelocity : R) (w : Wheel) : Wheel :=
  mkWheel (getInitialPolygon w) (getInitialPosition w) (getInitialDirection w)
    (getRadius w) (getMaxAngularVelocityMagnitude w) angularVelocity
    (getRotation w).

Definition updateRotation (angle : R) (w : Wheel) : Wheel :=
  mkWheel (getInitialPolygon w) (getInitialPosition w) (getInitialDirection w)
    (getRadius w) (getMaxAngularVelocityMagnitude w) (getAngularVelocity w)
    (getRotation w + angle).

(** Modelled from the spec: the state of a [Sensor] that [Mouse.cpp] reads
    ([Sensor.cpp] is not part of the sources at hand). *)
Record Sensor : Type := mkSensor {
  sensorInitialPolygon : Polygon;
  sensorInitialPosition : Cartesian;
  sensorInitialDirection : R;
  read : R
}.

Record Mouse : Type := mkMouse {
  m_initialTranslation : Cartesian;
  m_initialRotation : R;
  m_currentTranslation : Cartesian;
  m_currentRotation : R;
  m_currentGyro : R;
  m_elapsedSimTime : R;
  m_initialBodyPolygon : Polygon;
  m_initialCollisionPolygon : Polygon;
  m_initialCenterOfMassPolygon : Polygon;
  m_wheels : StringMap.t Wheel;
  m_sensors : StringMap.t Sensor;
  m_wheelSpeedAdjustmentFactors : StringMap.t (R * R);
  m_curveTurnFactors : option R * option R
}.

(** The mouse that the constructor makes: the gyro reads zero, and nothing
    else is set before [initialize]. *)
Definition newMouse : Mouse :=
  mkMouse (mkCartesian 0 0) 0 (mkCartesian 0 0) 0 0 0 [] [] [] [] [] []
    (Some 0, Some 0).

Definition getInitialTranslation (m : Mouse) : Cartesian := m_initialTranslation m.
Definition getInitialRotation (m : Mouse) : R := m_initialRotation m.
Definition getCurrentTranslation (m : Mouse) : Cartesian := m_currentTranslation m.
Definition getCurrentRotation (m : Mouse) : R := m_currentRotation m.
Definition readGyro (m : Mouse) : R := m_currentGyro m.
Definition getElapsedSimTime (m : Mouse) : R := m_elapsedSimTime m.

Definition withWheels (m : Mouse) (wheels : StringMap.t Wheel) : Mouse :=
  mkMouse (m_initialTranslation m) (m_initialRotation m)
    (m_currentTranslation m) (m_currentRotation m) (m_currentGyro m)
    (m_elapsedSimTime m) (m_initialBodyPolygon m)
    (m_initialCollisionPolygon m) (m_initialCenterOfMassPolygon m)
    wheels (m_sensors m) (m_wheelSpeedAdjustmentFactors m)
    (m_curveTurnFactors m).

Definition teleport (translation : Cartesian) (rotation : R) (m : Mouse) : Mouse :=
  mkMouse (m_initialTranslation m) (m_initialRotation m)
    translation rotation (m_currentGyro m)
    (m_elapsedSimTime m) (m_initialBodyPolygon m)
    (m_initialCollisionPolygon m) (m_initialCenterOfMassPolygon m)
    (m_wheels m) (m_sensors m) (m_wheelSpeedAdjustmentFactors m)
    (m_curveTurnFactors m).

(** ** Rates of change *)

Definition getRatesOfChange (initialTranslation : Cartesian) (initialRotation : R)
    (wheelInitialPosition : Cartesian) (wheelInitialDirection : R)
    (wheelLinearVelocity : R) : R * R :=
  let forwardRateOfChange :=
    wheelLinearVelocity * cos (initialRotation - wheelInitialDirection) in
  let wheelToCenter := minus initialTranslation wheelInitialPosition in
  let radialRateOfChange :=
    wheelLinearVelocity
    * sin (getTheta wheelToCenter - wheelInitialDirection)
    * (1 / getRho wheelToCenter) in
  (forwardRateOfChange, radialRateOfChange).

(** ** Polygons at a pose *)

Definition getCurrentPolygon (m : Mouse) (initialPolygon : Polygon)
    (currentTranslation : Cartesian) (currentRotation : R) : Polygon :=
  rotateAroundPoint
    (translate initialPolygon (minus currentTranslation (getInitialTranslation m)))
    (currentRotation - getInitialRotation m)
    currentTranslation.

Definition getCurrentBodyPolygon (m : Mouse)
    (currentTranslation : Cartesian) (currentRotation : R) : Polygon :=
  getCurrentPolygon m (m_initialBodyPolygon m) currentTranslation currentRotation.

Definition getCurrentCollisionPolygon (m : Mouse)
    (currentTranslation : Cartesian) (currentRotation : R) : Polygon :=
  getCurrentPolygon m (m_initialCollisionPolygon m) currentTranslation currentRotation.

Definition getCurrentCenterOfMassPolygon (m : Mouse)
    (currentTranslation : Cartesian) (currentRotation : R) : Polygon :=
  getCurrentPolygon m (m_initialCenterOfMassPolygon m) currentTranslation currentRotation.

Definition getCurrentWheelPolygons (m : Mouse)
    (currentTranslation : Cartesian) (currentRotation : R) : list Polygon :=
  map (fun pair : string * Wheel =>
         getCurrentPolygon m (getInitialPolygon (snd pair))
           currentTranslation currentRotation)
      (m_wheels m).

Definition getCurrentSensorPolygons (m : Mouse)
    (currentTranslation : Cartesian) (currentRotation : R) : list Polygon :=
  map (fun pair : string * Sensor =>
         getCurrentPolygon m (sensorInitialPolygon (snd pair))
           currentTranslation currentRotation)
      (m_sensors m).

Definition getCurrentSensorPositionAndDirection (m : Mouse) (sensor : Sensor)
    (currentTranslation : Cartesian) (currentRotation : R) : Cartesian * R :=
  let translationDelta := minus currentTranslation (getInitialTranslation m) in
  let rotationDelta := currentRotation - getInitialRotation m in
  (rotateVertexAroundPoint
     (translateVertex (sensorInitialPosition sensor) translationDelta)
     rotationDelta currentTranslation,
   sensorInitialDirection sensor + rotationDelta).

(** ** The integrator *)

Section Update.

(** The reading that a sensor takes of the maze of the mouse from a
    position and in a direction ([Sensor.cpp] and [Maze.cpp] are not part
    of the sources at hand). *)
Variable readMaze : Sensor -> Cartesian -> R -> R.

(** Modelled from the spec: [Sensor::updateReading]: the reading of the
    sensor is refreshed. *)
Definition updateReading (s : Sensor) (position : Cartesian) (direction : R)
  : Sensor :=
  mkSensor (sensorInitialPolygon s) (sensorInitialPosition s)
    (sensorInitialDirection s) (readMaze s position direction).

(** One turn of the loop over the wheels, on [sumDx], [sumDy] and [sumDr]. *)
Definition accumulate (m : Mouse) (sums : R * R * R) (wheel : string * Wheel)
  : R * R * R :=
  let '(sumDx, sumDy, sumDr) := sums in
  let ratesOfChange :=
    getRatesOfChange (getInitialTranslation m) (getInitialRotation m)
      (getInitialPosition (snd wheel)) (getInitialDirection (snd wheel))
      (getAngularVelocity (snd wheel) * getRadius (snd wheel)) in
  (sumDx + fst ratesOfChange * cos (getCurrentRotation m),
   sumDy + fst ratesOfChange * sin (getCurrentRotation m),
   sumDr + snd ratesOfChange).

Definition update (elapsed : R) (m : Mouse) : Mouse :=
  let wheels :=
    map (fun wheel : string * Wheel =>
           (fst wheel,
            updateRotation (getAngularVelocity (snd wheel) * elapsed) (snd wheel)))
        (m_wheels m) in
  let '(sumDx, sumDy, sumDr) := fold_left (accumulate m) (m_wheels m) (0, 0, 0) in
  let size := INR (List.length (m_wheels m)) in
  let aveDx := sumDx / size in
  let aveDy := sumDy / size in
  let aveDr := sumDr / size in
  let currentGyro := aveDr in
  let currentRotation := m_currentRotation m + aveDr * elapsed in
  let currentTranslation :=
    plus (m_currentTranslation m) (mkCartesian (aveDx * elapsed) (aveDy * elapsed)) in
  let sensors :=
    map (fun pair : string * Sensor =>
           let translationAndRotation :=
             getCurrentSensorPositionAndDirection m (snd pair)
               currentTranslation currentRotation in
           (fst pair,
            updateReading (snd pair)
              (fst translationAndRotation) (snd translationAndRotation)))
        (m_sensors m) in
  mkMouse (m_initialTranslation m) (m_initialRotation m)
    currentTranslation currentRotation currentGyro
    (m_elapsedSimTime m + elapsed) (m_initialBodyPolygon m)
    (m_initialCollisionPolygon m) (m_initialCenterOfMassPolygon m)
    wheels sensors (m_wheelSpeedAdjustmentFactors m)
    (m_curveTurnFactors m).

End Update.

(** ** Wheel speeds *)

Definition hasWheel (m : Mouse) (name : string) : bool :=
  mapContains (m_wheels m) name.

Definition getWheelMaxSpeed (m : Mouse) (name : string) : Outcome R :=
  ASSERT_TR (mapContains (m_wheels m) name) ;;;
  wheel <- mapAt (m_wheels m) name ;;
  Returns (getMaxAngularVelocityMagnitude wheel).

(** The loop of [setWheelSpeeds] over the entries of [wheelSpeeds]. *)
Fixpoint setEachWheelSpeed (wheelSpeeds : StringMap.t R) (m : Mouse)
  : Outcome Mouse :=
  match wheelSpeeds with
  | [] => Returns m
  | entry :: rest =>
      ASSERT_TR (mapContains (m_wheels m) (fst entry)) ;;;
      maxSpeed <- getWheelMaxSpeed m (fst entry) ;;
      ASSERT_TR (Rleb (Rabs (getRevolutionsPerMinute (snd entry)))
                      (getRevolutionsPerMinute maxSpeed)) ;;;
      _ <- mapAt (m_wheels m) (fst entry) ;;
      setEachWheelSpeed rest
        (withWheels m (modify (m_wheels m) (fst entry) (setAngularVelocity (snd entry))))
  end.

Definition setWheelSpeeds (wheelSpeeds : StringMap.t R) (m : Mouse) : Outcome Mouse :=
  setEachWheelSpeed wheelSpeeds m.

(** The first lines of [setWheelSpeedsForMovement]: the two normalized
    factors, once both checks on their magnitude have passed. *)
Definition normalizeFactors {D : Type} `{Arith D} (forwardFactor turnFactor : D)
  : Outcome (D * D) :=
  let factorMagnitude := fadd (fabs forwardFactor) (fabs turnFactor) in
  let normalizedForwardFactor := fdiv forwardFactor factorMagnitude in
  let normalizedTurnFactor := fdiv turnFactor factorMagnitude in
  let normalizedFactorMagnitude :=
    fadd (fabs normalizedForwardFactor) (fabs normalizedTurnFactor) in
  ASSERT_LE lit0 normalizedFactorMagnitude ;;;
  ASSERT_LE normalizedFactorMagnitude lit1 ;;;
  Returns (normalizedForwardFactor, normalizedTurnFactor).

(** The value of an exact result; a result that is not a real number has
    failed every [ASSERT_LE] before it is used. *)
Definition realOf (x : option R) : Outcome R :=
  match x with Some r => Returns r | None => AssertFailed end.

(** The loop of [setWheelSpeedsForMovement] that builds [wheelSpeeds]. *)
Fixpoint movementSpeeds (factors : StringMap.t (R * R))
    (fractionOfMaxSpeed normalizedForwardFactor normalizedTurnFactor : R)
    (wheels : StringMap.t Wheel) : Outcome (StringMap.t R) :=
  match wheels with
  | [] => Returns []
  | wheel :: rest =>
      ASSERT_TR (mapContains factors (fst wheel)) ;;;
      adjustmentFactors <- mapAt factors (fst wheel) ;;
      more <- movementSpeeds factors fractionOfMaxSpeed
                normalizedForwardFactor normalizedTurnFactor rest ;;
      Returns ((fst wheel,
                getMaxAngularVelocityMagnitude (snd wheel)
                * fractionOfMaxSpeed
                * (normalizedForwardFactor * fst adjustmentFactors
                   + normalizedTurnFactor * snd adjustmentFactors)) :: more)
  end.

Definition setWheelSpeedsForMovement (fractionOfMaxSpeed forwardFactor turnFactor : R)
    (m : Mouse) : Outcome Mouse :=
  normalized <- normalizeFactors (Some forwardFactor) (Some turnFactor) ;;
  normalizedForwardFactor <- realOf (fst normalized) ;;
  normalizedTurnFactor <- realOf (snd normalized) ;;
  wheelSpeeds <- movementSpeeds (m_wheelSpeedAdjustmentFactors m)
                   fractionOfMaxSpeed normalizedForwardFactor normalizedTurnFactor
                   (m_wheels m) ;;
  setWheelSpeeds wheelSpeeds m.

Definition setWheelSpeedsForMoveForward (fractionOfMaxSpeed : R) (m : Mouse) :=
  setWheelSpeedsForMovement fractionOfMaxSpeed 1 0 m.

Definition setWheelSpeedsForTurnLeft (fractionOfMaxSpeed : R) (m : Mouse) :=
  setWheelSpeedsForMovement fractionOfMaxSpeed 0 1 m.

Definition setWheelSpeedsForTurnRight (fractionOfMaxSpeed : R) (m : Mouse) :=
  setWheelSpeedsForMovement fractionOfMaxSpeed 0 (-1) m.

(** The product of two results of exact arithmetic. *)
Definition times (a b : option R) : option R :=
  match a, b with
  | Some x, Some y => Some (x * y)
  | _, _ => None
  end.

(** [setWheelSpeedsForMovement] for factors that are results of exact
    arithmetic: the curve turn factors are quotients, and a quotient by
    zero is not a real number. *)
Definition setWheelSpeedsForMovementOf (fractionOfMaxSpeed : R)
    (forwardFactor turnFactor : option R) (m : Mouse) : Outcome Mouse :=
  normalized <- normalizeFactors forwardFactor turnFactor ;;
  normalizedForwardFactor <- realOf (fst normalized) ;;
  normalizedTurnFactor <- realOf (snd normalized) ;;
  wheelSpeeds <- movementSpeeds (m_wheelSpeedAdjustmentFactors m)
                   fractionOfMaxSpeed normalizedForwardFactor normalizedTurnFactor
                   (m_wheels m) ;;
  setWheelSpeeds wheelSpeeds m.

Definition setWheelSpeedsForCurveTurnLeft (fractionOfMaxSpeed : R) (m : Mouse) :=
  setWheelSpeedsForMovementOf fractionOfMaxSpeed
    (fst (m_curveTurnFactors m)) (snd (m_curveTurnFactors m)) m.

Definition setWheelSpeedsForCurveTurnRight (fractionOfMaxSpeed : R) (m : Mouse) :=
  setWheelSpeedsForMovementOf fractionOfMaxSpeed
    (fst (m_curveTurnFactors m))
    (times (Some (-1)) (snd (m_curveTurnFactors m))) m.


(** ** Factors derived from the wheels *)

(** The loop that determines the two largest magnitudes. *)
Definition largerMagnitudes (maxima : R * R) (pair : string * (R * R)) : R * R :=
  let forwardRateOfChangeMagnitude := Rabs (fst (snd pair)) in
  let radialRateOfChangeMagnitude := Rabs (snd (snd pair)) in
  (if Rltb (fst maxima) forwardRateOfChangeMagnitude
   then forwardRateOfChangeMagnitude else fst maxima,
   if Rltb (snd maxima) radialRateOfChangeMagnitude
   then radialRateOfChangeMagnitude else snd maxima).

(** The loop that divides by the largest magnitudes. *)
Fixpoint normalizeContributions (maxForward maxRadial : R)
    (ratesOfChangePairs : StringMap.t (R * R)) : Outcome (StringMap.t (R * R)) :=
  match ratesOfChangePairs with
  | [] => Returns []
  | entry :: rest =>
      let normalizedForwardContribution :=
        fdiv (Some (fst (snd entry))) (Some maxForward) in
      let normalizedRadialContribution :=
        fdiv (Some (snd (snd entry))) (Some maxRadial) in
      ASSERT_LE (Some (-1)) normalizedForwardContribution ;;;
      ASSERT_LE (Some (-1)) normalizedRadialContribution ;;;
      ASSERT_LE normalizedForwardContribution (Some 1) ;;;
      ASSERT_LE normalizedRadialContribution (Some 1) ;;;
      forward <- realOf normalizedForwardContribution ;;
      radial <- realOf normalizedRadialContribution ;;
      more <- normalizeContributions maxForward maxRadial rest ;;
      Returns ((fst entry, (forward, radial)) :: more)
  end.

Definition getWheelSpeedAdjustmentFactors (initialTranslation : Cartesian)
    (initialRotation : R) (wheels : StringMap.t Wheel)
  : Outcome (StringMap.t (R * R)) :=
  let ratesOfChangePairs :=
    map (fun wheel : string * Wheel =>
           (fst wheel,
            getRatesOfChange initialTranslation initialRotation
              (getInitialPosition (snd wheel)) (getInitialDirection (snd wheel))
              (getMaxAngularVelocityMagnitude (snd wheel) * getRadius (snd wheel))))
        wheels in
  let maxima := fold_left largerMagnitudes ratesOfChangePairs (0, 0) in
  normalizeContributions (fst maxima) (snd maxima) ratesOfChangePairs.

(** The loop over the two adjustment factors of one wheel. *)
Definition addContributions (initialTranslation : Cartesian) (initialRotation : R)
    (wheel : Wheel) (maxLinearVelocity : R) (totals : R * R) (adjustmentFactor : R)
  : R * R :=
  let ratesOfChange :=
    getRatesOfChange initialTranslation initialRotation
      (getInitialPosition wheel) (getInitialDirection wheel)
      (maxLinearVelocity * adjustmentFactor) in
  (fst totals + fst ratesOfChange, snd totals + snd ratesOfChange).

(** The loop over the wheels, on [totalForwardRateOfChange] and
    [totalRadialRateOfChange]. *)
Fixpoint totalRatesOfChange (initialTranslation : Cartesian) (initialRotation : R)
    (wheelSpeedAdjustmentFactors : StringMap.t (R * R))
    (wheels : StringMap.t Wheel) (totals : R * R) : Outcome (R * R) :=
  match wheels with
  | [] => Returns totals
  | wheel :: rest =>
      let maxLinearVelocity :=
        getMaxAngularVelocityMagnitude (snd wheel) * getRadius (snd wheel) in
      ASSERT_TR (mapContains wheelSpeedAdjustmentFactors (fst wheel)) ;;;
      adjustmentFactors <- mapAt wheelSpeedAdjustmentFactors (fst wheel) ;;
      totalRatesOfChange initialTranslation initialRotation
        wheelSpeedAdjustmentFactors rest
        (fold_left
           (addContributions initialTranslation initialRotation (snd wheel)
              maxLinearVelocity)
           [fst adjustmentFactors; snd adjustmentFactors] totals)
  end.

Definition getCurveTurnFactors (initialTranslation : Cartesian) (initialRotation : R)
    (wheels : StringMap.t Wheel)
    (wheelSpeedAdjustmentFactors : StringMap.t (R * R))
    (curveTurnArcLength : R) : Outcome (option R * option R) :=
  totals <- totalRatesOfChange initialTranslation initialRotation
              wheelSpeedAdjustmentFactors wheels (0, 0) ;;
  let totalForwardRateOfChange := fst totals in
  let totalRadialRateOfChange := snd totals in
  let totalDistance := curveTurnArcLength in
  let totalRotation := degreesToRadians 90 in
  let B := Some 1 in
  let A :=
    times (fdiv (Some totalDistance) (Some totalRotation))
          (fdiv (Some totalRadialRateOfChange) (Some totalForwardRateOfChange)) in
  Returns (A, B).

(** ** Initialization *)

(** Modelled from the spec: the constant [DIRECTION_TO_ANGLE]: east is 0
    degrees, north 90, west 180 and south 270. *)
Definition DIRECTION_TO_ANGLE (d : Direction) : R :=
  match d with
  | EAST => degreesToRadians 0
  | NORTH => degreesToRadians 90
  | WEST => degreesToRadians 180
  | SOUTH => degreesToRadians 270
  end.

Section Initialize.

(** The parameters [P()->wallLength()] and [P()->wallWidth()]. *)
Variables wallLength wallWidth : R.

(** [GeometryUtilities::convexHull] and
    [GeometryUtilities::createCirclePolygon]. *)
Variable convexHull : list Polygon -> Polygon.
Variable createCirclePolygon : Cartesian -> R -> nat -> Polygon.

(** What the [MouseParser] makes of a mouse file ([MouseParser.cpp] is not
    part of the sources at hand): [None] when the parser cannot be
    created; else the body, the wheels and the sensors that [getBody],
    [getWheels] and [getSensors] yield for the initial translation and
    rotation, and whether all three succeeded. *)
Variable parse :
  string -> Cartesian -> R ->
  option (Polygon * StringMap.t Wheel * StringMap.t Sensor * bool).

(** The mouse after [initialize], and the value the call returns. *)
Definition initialize (mouseFile : string) (initialDirection : Direction)
    (m : Mouse) : Outcome (Mouse * bool) :=
  let halfOfTileDistance := (wallLength + wallWidth) / 2 in
  let initialTranslation := mkCartesian halfOfTileDistance halfOfTileDistance in
  let initialRotation := DIRECTION_TO_ANGLE initialDirection in
  match parse mouseFile initialTranslation initialRotation with
  | None =>
      Returns
        (mkMouse initialTranslation initialRotation
           initialTranslation initialRotation (m_currentGyro m)
           (m_elapsedSimTime m) (m_initialBodyPolygon m)
           (m_initialCollisionPolygon m) (m_initialCenterOfMassPolygon m)
           (m_wheels m) (m_sensors m) (m_wheelSpeedAdjustmentFactors m)
           (m_curveTurnFactors m),
         false)
  | Some (body, wheels, sensors, success) =>
      factors <- getWheelSpeedAdjustmentFactors initialTranslation initialRotation wheels ;;
      curveTurnFactors <-
        getCurveTurnFactors initialTranslation initialRotation wheels factors
          (wallLength / 2 * (5 / 10) * PI) ;;
      let polygons :=
        body :: map (fun pair : string * Wheel => getInitialPolygon (snd pair)) wheels
        ++ map (fun pair : string * Sensor => sensorInitialPolygon (snd pair)) sensors in
      Returns
        (mkMouse initialTranslation initialRotation
           initialTranslation initialRotation (m_currentGyro m)
           (m_elapsedSimTime m)
           body (convexHull polygons)
           (createCirclePolygon initialTranslation (5 / 1000) 8)
           wheels sensors factors curveTurnFactors,
         success)
  end.

End Initialize.

End Mouse.

(* ================================================================= *)
(** * Mouse: the sensors, the tile and the direction *)

Module MouseQueries.

Import Text Geometry StringMap Mouse.
Local Open Scope R_scope.
Local Open Scope outcome_scope.

(** ** Sensors *)

Definition hasSensor (m : Mouse) (name : string) : bool :=
  mapContains (m_sensors m) name.

Definition readSensor (m : Mouse) (name : string) : Outcome R :=
  ASSERT_TR (hasSensor m name) ;;;
  sensor <- mapAt (m_sensors m) name ;;
  Returns (read sensor).

(** ** Conversions *)

(** [std::floor] of a result of exact arithmetic. *)
Definition floor (x : option R) : option R :=
  option_map (fun r => IZR (Zfloor r)) x.

(** [static_cast<int>] of a double: the value is truncated toward zero; the
    conversion is not defined when the truncated value is outside the range
    of [int], nor for a value that is not a real number. *)
Definition truncate (r : R) : Z := if Rleb 0 r then Zfloor r else Zceil r.

Definition static_cast_int (x : option R) : option Z :=
  match x with
  | Some r =>
      let z := truncate r in
      if ((INT_MIN <=? z) && (z <=? INT_MAX))%Z then Some z else None
  | None => None
  end.

(** Modelled from the spec: [Angle::getRadiansZeroTo2pi], the angle
    normalized to [[0, 2 PI)]. *)
Definition getRadiansZeroTo2pi (radians : R) : R :=
  radians - 2 * PI * IZR (Zfloor (radians / (2 * PI))).

(** ** The tile and the direction *)

Section Tiles.

(** The parameters [P()->wallLength()] and [P()->wallWidth()]. *)
Variables wallLength wallWidth : R.

Definition getCurrentDiscretizedTranslation (m : Mouse) : option (Z * Z) :=
  let tileLength := wallLength + wallWidth in
  let currentTranslation := getCurrentTranslation m in
  let x :=
    static_cast_int
      (floor (fdiv (Some (getX currentTranslation)) (Some tileLength))) in
  let y :=
    static_cast_int
      (floor (fdiv (Some (getY currentTranslation)) (Some tileLength))) in
  match x, y with
  | Some x, Some y => Some (x, y)
  | _, _ => None
  end.

End Tiles.

(** The [switch] has no default: with any other value of [dir] the
    function ends without a [return]. *)
Definition getCurrentDiscretizedRotation (m : Mouse) : option Direction :=
  let dir :=
    static_cast_int
      (floor
         (fdiv
            (Some (getRadiansZeroTo2pi (getCurrentRotation m + degreesToRadians 45)))
            (Some (degreesToRadians 90)))) in
  match dir with
  | Some 0%Z => Some EAST
  | Some 1%Z => Some NORTH
  | Some 2%Z => Some WEST
  | Some 3%Z => Some SOUTH
  | _ => None
  end.

End MouseQueries.


(* ================================================================= *)
(** * Kinematics: the rates of change and the integrator *)

Module Kinematics.

Import Geometry StringMap Mouse.
Local Open Scope R_scope.

(** ** Deciding comparisons of real numbers *)

Lemma Rltb_true a b : a < b -> Rltb a b = true.
Proof. intros H. unfold Rltb. destruct (Rlt_dec a b); [reflexivity | contradiction]. Qed.

Lemma Rltb_false a b : ~ a < b -> Rltb a b = false.
Proof. intros H. unfold Rltb. destruct (Rlt_dec a b); [contradiction | reflexivity]. Qed.

Lemma Rleb_true a b : a <= b -> Rleb a b = true.
Proof. intros H. unfold Rleb. destruct (Rle_dec a b); [reflexivity | contradiction]. Qed.

Lemma Rleb_le a b : Rleb a b = true -> a <= b.
Proof. unfold Rleb. destruct (Rle_dec a b); [trivial | discriminate]. Qed.

(** ** Quantities the specification names *)

Fixpoint sumR (l : list R) : R :=
  match l with
  | [] => 0
  | x :: rest => x + sumR rest
  end.

(** The linear velocity of a wheel: its angular velocity times its radius. *)
Definition linearVelocity (w : Wheel) : R := getAngularVelocity w * getRadius w.

(** The vector from the initial position of a wheel to the initial
    translation of the mouse. *)
Definition wheelToCenter (m : Mouse) (w : Wheel) : Cartesian :=
  minus (getInitialTranslation m) (getInitialPosition w).

Definition forwardRate (m : Mouse) (w : Wheel) : R :=
  linearVelocity w * cos (getInitialRotation m - getInitialDirection w).

Definition radialRate (m : Mouse) (w : Wheel) : R :=
  linearVelocity w
  * sin (getTheta (wheelToCenter m w) - getInitialDirection w)
  / getRho (wheelToCenter m w).

Definition wheelCount (m : Mouse) : R := INR (List.length (m_wheels m)).

(** The averages over all wheels. *)
Definition averageForwardRate (m : Mouse) : R :=
  sumR (map (fun wheel => forwardRate m (snd wheel)) (m_wheels m)) / wheelCount m.

Definition averageRadialRate (m : Mouse) : R :=
  sumR (map (fun wheel => radialRate m (snd wheel)) (m_wheels m)) / wheelCount m.

(** ** getRatesOfChange *)

Lemma getRatesOfChange_eq P0 R0 Pw Dw v :
  getRatesOfChange P0 R0 Pw Dw v =
  (v * cos (R0 - Dw), v * sin (getTheta (minus P0 Pw) - Dw) / getRho (minus P0 Pw)).
Proof. unfold getRatesOfChange. f_equal. unfold Rdiv. ring. Qed.


(** ** update *)

Lemma fold_accumulate m ws : forall sx sy sr,
  fold_left (accumulate m) ws (sx, sy, sr) =
  (sx + sumR (map (fun w => forwardRate m (snd w)) ws) * cos (getCurrentRotation m),
   sy + sumR (map (fun w => forwardRate m (snd w)) ws) * sin (getCurrentRotation m),
   sr + sumR (map (fun w => radialRate m (snd w)) ws)).
Proof.
  induction ws as [|w ws IH]; intros sx sy sr; cbn [fold_left map sumR].
  - f_equal; [f_equal|]; ring.
  - unfold accumulate at 2. rewrite getRatesOfChange_eq. cbn [fst snd].
    rewrite IH.
    unfold forwardRate, radialRate, linearVelocity, wheelToCenter.
    f_equal; [f_equal|]; unfold Rdiv; ring.
Qed.

Lemma update_rotation ur elapsed m :
  m_currentRotation (update ur elapsed m)
  = m_currentRotation m + averageRadialRate m * elapsed.
Proof.
  unfold update. rewrite fold_accumulate. cbn [m_currentRotation].
  unfold averageRadialRate, wheelCount. f_equal. f_equal. unfold Rdiv. ring.
Qed.

Lemma update_translation ur elapsed m :
  m_currentTranslation (update ur elapsed m)
  = plus (m_currentTranslation m)
      (mkCartesian (averageForwardRate m * cos (m_currentRotation m) * elapsed)
                   (averageForwardRate m * sin (m_currentRotation m) * elapsed)).
Proof.
  unfold update. rewrite fold_accumulate. cbn [m_currentTranslation].
  unfold averageForwardRate, wheelCount, getCurrentRotation.
  f_equal. f_equal; unfold Rdiv; ring.
Qed.

(** C1, as amended.  For every elapsed duration, [update] adds to
    [currentTranslation] the averaged forward rate times the cosine and
    sine of the rotation the mouse had BEFORE the call, times the elapsed
    duration; the rotation itself is incremented by the averaged radial
    rate times the elapsed duration. *)
Theorem update_translation_uses_old_rotation
    (readMaze : Sensor -> Cartesian -> R -> R)
    (elapsed : R) (m : Mouse) :
  m_wheels m <> [] ->
  let oldRotation := m_currentRotation m in
  let m' := update readMaze elapsed m in
  m_currentRotation m' = oldRotation + averageRadialRate m * elapsed
  /\ m_currentTranslation m'
     = plus (m_currentTranslation m)
         (mkCartesian (averageForwardRate m * cos oldRotation * elapsed)
                      (averageForwardRate m * sin oldRotation * elapsed)).
Proof.
  intros _. cbv zeta. split.
  - apply update_rotation.
  - apply update_translation.
Qed.

(** A mouse at the origin heading east, with one wheel one unit below its
    centre, rolling east at [PI] radians per second. *)
Definition wheelBelow : Wheel :=
  mkWheel [] (mkCartesian 0 (-1)) 0 1 PI PI 0.

Definition oneWheelMouse : Mouse :=
  mkMouse (mkCartesian 0 0) 0 (mkCartesian 0 0) 0 0 0 [] [] []
    [("wheel"%string, wheelBelow)] [] [("wheel"%string, (1, 1))]
    (Some 1, Some 1).

Definition nothingInRange (s : Sensor) (position : Cartesian) (direction : R) : R := 0.

Lemma atan2_up y : 0 < y -> atan2 y 0 = PI / 2.
Proof.
  intros Hy. unfold atan2.
  rewrite (Rltb_false 0 0) by lra. rewrite (Rltb_true 0 y) by assumption. reflexivity.
Qed.

Lemma oneWheelMouse_forward : averageForwardRate oneWheelMouse = PI.
Proof.
  unfold averageForwardRate, wheelCount, forwardRate, linearVelocity. simpl.
  replace (0 - 0) with 0 by ring. rewrite cos_0. field.
Qed.

Lemma oneWheelMouse_radial : averageRadialRate oneWheelMouse = PI.
Proof.
  unfold averageRadialRate, wheelCount, radialRate, linearVelocity, wheelToCenter.
  simpl. unfold getTheta, getRho, minus. simpl.
  replace (0 - -1) with 1 by ring. replace (0 - 0) with 0 by ring.
  rewrite atan2_up by lra.
  replace (PI / 2 - 0) with (PI / 2) by ring. rewrite sin_PI2.
  replace (0 * 0 + 1 * 1) with 1 by ring. rewrite sqrt_1. field.
Qed.

Lemma update_translation_witness :
  let m' := update nothingInRange 1 oneWheelMouse in
  m_currentRotation m' = 0 + averageRadialRate oneWheelMouse * 1
  /\ m_currentTranslation m'
     = plus (mkCartesian 0 0)
         (mkCartesian (averageForwardRate oneWheelMouse * cos 0 * 1)
                      (averageForwardRate oneWheelMouse * sin 0 * 1)).
Proof.
  apply (update_translation_uses_old_rotation nothingInRange 1 oneWheelMouse).
  discriminate.
Defined.

(** C1 as stated fails: after one second the one-wheel mouse has turned by
    [PI], and its translation has moved by [PI] along the OLD heading (to
    [(PI, 0)]), not by [PI] along the new heading (to [(- PI, 0)]). *)
Lemma update_translation_not_new_rotation :
  let m := oneWheelMouse in
  let m' := update nothingInRange 1 m in
  m_wheels m <> []
  /\ m_currentRotation m' = PI
  /\ m_currentTranslation m'
     <> plus (m_currentTranslation m)
          (mkCartesian (averageForwardRate m * cos (m_currentRotation m') * 1)
                       (averageForwardRate m * sin (m_currentRotation m') * 1)).
Proof.
  cbv zeta.
  assert (Hrot : m_currentRotation (update nothingInRange 1 oneWheelMouse) = PI).
  { rewrite update_rotation, oneWheelMouse_radial. simpl. ring. }
  split; [discriminate|]. split; [exact Hrot|].
  rewrite Hrot, update_translation, oneWheelMouse_forward. simpl.
  rewrite cos_0, cos_PI. unfold plus. simpl.
  intros H. injection H as Hx _.
  pose proof PI_RGT_0. lra.
Qed.

End Kinematics.


(* ================================================================= *)
(** * Polygons at a pose *)

Module Polygons.

Import Geometry StringMap Mouse Kinematics.
Local Open Scope R_scope.

(** A polygon translated by [currentTranslation - initialTranslation] and
    then rotated by [currentRotation - initialRotation] about
    [currentTranslation]. *)
Definition placed (initialTranslation : Cartesian) (initialRotation : R)
    (currentTranslation : Cartesian) (currentRotation : R)
    (initialPolygon : Polygon) : Polygon :=
  rotateAroundPoint
    (translate initialPolygon (minus currentTranslation initialTranslation))
    (currentRotation - initialRotation)
    currentTranslation.

(** The mouse at a later simulated time: after any number of ticks of the
    integrator, teleports and wheel speed commands. *)
Inductive evolves (readMaze : Sensor -> Cartesian -> R -> R) (m0 : Mouse)
  : Mouse -> Prop :=
| at_start : evolves readMaze m0 m0
| after_update m elapsed :
    evolves readMaze m0 m -> evolves readMaze m0 (update readMaze elapsed m)
| after_teleport m translation rotation :
    evolves readMaze m0 m -> evolves readMaze m0 (teleport translation rotation m)
| after_setWheelSpeeds m wheelSpeeds m' :
    evolves readMaze m0 m -> setWheelSpeeds wheelSpeeds m = Returns m' ->
    evolves readMaze m0 m'.

Definition wheelPolygons (m : Mouse) : list Polygon :=
  map (fun pair : string * Wheel => getInitialPolygon (snd pair)) (m_wheels m).

Definition sensorPolygons (m : Mouse) : list Polygon :=
  map (fun pair : string * Sensor => sensorInitialPolygon (snd pair)) (m_sensors m).

(** What never changes once the mouse is initialized. *)
Definition sameInitialGeometry (m0 m : Mouse) : Prop :=
  m_initialTranslation m = m_initialTranslation m0
  /\ m_initialRotation m = m_initialRotation m0
  /\ m_initialBodyPolygon m = m_initialBodyPolygon m0
  /\ wheelPolygons m = wheelPolygons m0
  /\ sensorPolygons m = sensorPolygons m0
  /\ m_initialCollisionPolygon m = m_initialCollisionPolygon m0
  /\ m_initialCenterOfMassPolygon m = m_initialCenterOfMassPolygon m0.

Lemma modify_polygons (wheels : StringMap.t Wheel) name speed :
  map (fun pair : string * Wheel => getInitialPolygon (snd pair))
      (modify wheels name (setAngularVelocity speed))
  = map (fun pair : string * Wheel => getInitialPolygon (snd pair)) wheels.
Proof.
  induction wheels as [|[k w] rest IH]; simpl; [reflexivity|].
  destruct (String.eqb k name); simpl; [reflexivity|]. now rewrite IH.
Qed.

Lemma setEachWheelSpeed_geometry wheelSpeeds : forall m m',
  setEachWheelSpeed wheelSpeeds m = Returns m' -> sameInitialGeometry m m'.
Proof.
  induction wheelSpeeds as [|[name speed] rest IH]; intros m m' H; simpl in H.
  - injection H as <-. repeat split.
  - destruct (ASSERT_TR (mapContains (m_wheels m) name)); try discriminate.
    simpl in H.
    destruct (getWheelMaxSpeed m name); try discriminate. simpl in H.
    destruct (ASSERT_TR _); try discriminate. simpl in H.
    destruct (mapAt (m_wheels m) name); try discriminate. simpl in H.
    apply IH in H. destruct H as (H1 & H2 & H3 & H4 & H5 & H6 & H7).
    repeat split; try assumption.
    rewrite H4. unfold wheelPolygons. simpl. apply modify_polygons.
Qed.

Lemma update_geometry readMaze elapsed m :
  sameInitialGeometry m (update readMaze elapsed m).
Proof.
  unfold sameInitialGeometry, wheelPolygons, sensorPolygons, update.
  destruct (fold_left _ _ _) as [[sumDx sumDy] sumDr]. cbn.
  rewrite !map_map. repeat split.
Qed.

Lemma sameInitialGeometry_trans m0 m m' :
  sameInitialGeometry m0 m -> sameInitialGeometry m m' -> sameInitialGeometry m0 m'.
Proof.
  intros (H1 & H2 & H3 & H4 & H5 & H6 & H7) (G1 & G2 & G3 & G4 & G5 & G6 & G7).
  repeat split; congruence.
Qed.

Lemma evolves_geometry readMaze m0 m :
  evolves readMaze m0 m -> sameInitialGeometry m0 m.
Proof.
  induction 1 as [|m e _ IH|m t r _ IH|m ws m' _ IH Hset].
  - repeat split.
  - eapply sameInitialGeometry_trans; [exact IH | apply update_geometry].
  - exact IH.
  - eapply sameInitialGeometry_trans; [exact IH |].
    apply setEachWheelSpeed_geometry with (wheelSpeeds := ws). exact Hset.
Qed.

(** C9.  At every simulated time (after any ticks of the integrator,
    teleports and wheel speed commands since the mouse [m0] was
    initialized) and for every current pose, the body polygon, each wheel
    polygon and each sensor polygon that the mouse returns (and its
    collision and centre of mass polygons as well) is the initial polygon
    translated by [currentTranslation - initialTranslation] and
    then rotated by [currentRotation - initialRotation] about
    [currentTranslation]. *)
Theorem current_polygons_follow_pose
    (readMaze : Sensor -> Cartesian -> R -> R) (m0 m : Mouse)
    (currentTranslation : Cartesian) (currentRotation : R) :
  evolves readMaze m0 m ->
  let place :=
    placed (m_initialTranslation m0) (m_initialRotation m0)
      currentTranslation currentRotation in
  getCurrentBodyPolygon m currentTranslation currentRotation
  = place (m_initialBodyPolygon m0)
  /\ getCurrentWheelPolygons m currentTranslation currentRotation
     = map place (wheelPolygons m0)
  /\ getCurrentSensorPolygons m currentTranslation currentRotation
     = map place (sensorPolygons m0)
  /\ getCurrentCollisionPolygon m currentTranslation currentRotation
     = place (m_initialCollisionPolygon m0)
  /\ getCurrentCenterOfMassPolygon m currentTranslation currentRotation
     = place (m_initialCenterOfMassPolygon m0).
Proof.
  intros Hev. apply evolves_geometry in Hev.
  destruct Hev as (H1 & H2 & H3 & H4 & H5 & H6 & H7). cbv zeta.
  unfold getCurrentBodyPolygon, getCurrentWheelPolygons, getCurrentSensorPolygons,
    getCurrentCollisionPolygon, getCurrentCenterOfMassPolygon,
    getCurrentPolygon, placed, getInitialTranslation, getInitialRotation.
  rewrite H1, H2, H3, H6, H7. split; [reflexivity|]. split; [|split].
  - rewrite <- H4. unfold wheelPolygons. rewrite map_map. reflexivity.
  - rewrite <- H5. unfold sensorPolygons. rewrite map_map. reflexivity.
  - split; reflexivity.
Qed.

(** A mouse with a body, a wheel and a sensor that are triangles, at the
    origin and heading east. *)
Definition bodyTriangle : Polygon :=
  [mkCartesian 0 0; mkCartesian 1 0; mkCartesian 0 1].

Definition wheelTriangle : Polygon :=
  [mkCartesian 0 (-1); mkCartesian 1 (-1); mkCartesian 0 (-2)].

Definition sensorTriangle : Polygon :=
  [mkCartesian 1 0; mkCartesian 2 0; mkCartesian 1 1].

Definition hullSquare : Polygon :=
  [mkCartesian 2 1; mkCartesian 0 1; mkCartesian 0 (-2); mkCartesian 2 (-2)].

Definition massTriangle : Polygon :=
  [mkCartesian 1 0; mkCartesian 0 1; mkCartesian (-1) 0].

Definition triangleMouse : Mouse :=
  mkMouse (mkCartesian 0 0) 0 (mkCartesian 0 0) 0 0 0
    bodyTriangle hullSquare massTriangle
    [("wheel"%string, mkWheel wheelTriangle (mkCartesian 0 (-1)) 0 1 PI PI 0)]
    [("front"%string, mkSensor sensorTriangle (mkCartesian 1 0) 0 0)]
    [("wheel"%string, (1, 1))] (Some 1, Some 1).

(** The mouse after a teleport and a tick of one second. *)
Definition triangleMouseLater : Mouse :=
  update nothingInRange 1 (teleport (mkCartesian 3 4) 0 triangleMouse).

(** A vertex [(x, y)] of the mouse at the origin heading east is at
    [(3 - y, 4 + x)] once the mouse is at [(3, 4)] heading north. *)
Lemma placed_north (p : Polygon) :
  placed (mkCartesian 0 0) 0 (mkCartesian 3 4) (PI / 2) p
  = map (fun v => mkCartesian (3 - getY v) (4 + getX v)) p.
Proof.
  unfold placed, rotateAroundPoint, translate. rewrite map_map.
  apply map_ext. intros [x y].
  unfold rotateVertexAroundPoint, translateVertex, plus, minus.
  cbn [getX getY]. replace (PI / 2 - 0) with (PI / 2) by ring.
  rewrite cos_PI2, sin_PI2. f_equal; ring.
Qed.

Lemma current_polygons_witness :
  getCurrentBodyPolygon triangleMouseLater (mkCartesian 3 4) (PI / 2)
  = [mkCartesian (3 - 0) (4 + 0); mkCartesian (3 - 0) (4 + 1);
     mkCartesian (3 - 1) (4 + 0)]
  /\ getCurrentWheelPolygons triangleMouseLater (mkCartesian 3 4) (PI / 2)
     = [[mkCartesian (3 - -1) (4 + 0); mkCartesian (3 - -1) (4 + 1);
         mkCartesian (3 - -2) (4 + 0)]]
  /\ getCurrentSensorPolygons triangleMouseLater (mkCartesian 3 4) (PI / 2)
     = [[mkCartesian (3 - 0) (4 + 1); mkCartesian (3 - 0) (4 + 2);
         mkCartesian (3 - 1) (4 + 1)]]
  /\ getCurrentCollisionPolygon triangleMouseLater (mkCartesian 3 4) (PI / 2)
     = [mkCartesian (3 - 1) (4 + 2); mkCartesian (3 - 1) (4 + 0);
        mkCartesian (3 - -2) (4 + 0); mkCartesian (3 - -2) (4 + 2)]
  /\ getCurrentCenterOfMassPolygon triangleMouseLater (mkCartesian 3 4) (PI / 2)
     = [mkCartesian (3 - 0) (4 + 1); mkCartesian (3 - 1) (4 + 0);
        mkCartesian (3 - 0) (4 + -1)].
Proof.
  pose proof (current_polygons_follow_pose nothingInRange triangleMouse
                triangleMouseLater (mkCartesian 3 4) (PI / 2)
                (after_update _ _ _ 1
                   (after_teleport _ _ _ (mkCartesian 3 4) 0
                      (at_start _ _)))) as H.
  cbv zeta in H. unfold wheelPolygons, sensorPolygons, triangleMouse in H.
  cbn [m_initialTranslation m_initialRotation m_wheels m_sensors
       m_initialBodyPolygon m_initialCollisionPolygon
       m_initialCenterOfMassPolygon map snd getInitialPolygon
       sensorInitialPolygon] in H.
  rewrite !placed_north in H. exact H.
Defined.

End Polygons.


(* ================================================================= *)
(** * The wheel speed synthesizer *)

Module Synthesizer.

Import Geometry StringMap Mouse Kinematics.
Local Open Scope R_scope.

(** ** std::map lemmas *)

Lemma keys_modify {A : Type} (m : StringMap.t A) name f :
  keys (modify m name f) = keys m.
Proof.
  induction m as [|[k a] rest IH]; simpl; [reflexivity|].
  destruct (String.eqb k name); simpl; [reflexivity|]. now rewrite IH.
Qed.

Lemma lookup_modify {A : Type} (m : StringMap.t A) name f k :
  lookup (modify m name f) k
  = if String.eqb name k then option_map f (lookup m name) else lookup m k.
Proof.
  induction m as [|[k0 a] rest IH]; simpl.
  - now destruct (String.eqb name k).
  - destruct (String.eqb k0 name) eqn:E0; simpl.
    + apply String.eqb_eq in E0. subst k0.
      destruct (String.eqb name k); reflexivity.
    + rewrite IH. destruct (String.eqb name k) eqn:E1; [|reflexivity].
      apply String.eqb_eq in E1. subst k. now rewrite E0.
Qed.

Lemma lookup_In {A : Type} (m : StringMap.t A) k a :
  lookup m k = Some a -> In (k, a) m.
Proof.
  induction m as [|[k0 a0] rest IH]; simpl; [discriminate|].
  destruct (String.eqb k0 k) eqn:E.
  - apply String.eqb_eq in E. intros [= ->]. left. now subst.
  - intros H. right. now apply IH.
Qed.

Lemma In_keys {A : Type} (m : StringMap.t A) k a : In (k, a) m -> In k (keys m).
Proof. intros H. unfold keys. change k with (fst (k, a)). now apply in_map. Qed.

Lemma In_modify {A : Type} (m : StringMap.t A) name f k a' :
  wellKeyed m -> In (k, a') (modify m name f) ->
  (k = name /\ exists a, lookup m name = Some a /\ a' = f a)
  \/ (k <> name /\ In (k, a') m).
Proof.
  unfold wellKeyed.
  induction m as [|[k0 a0] rest IH]; simpl; intros Hnd Hin; [contradiction|].
  inversion Hnd as [|? ? Hnotin Hnd']; subst.
  destruct (String.eqb k0 name) eqn:E.
  - apply String.eqb_eq in E. subst k0.
    destruct Hin as [Heq|Hin].
    + injection Heq as <- <-. left. split; [reflexivity|]. now exists a0.
    + right. split.
      * intros ->. apply Hnotin. now apply In_keys with a'.
      * now right.
  - apply String.eqb_neq in E.
    destruct Hin as [Heq|Hin].
    + injection Heq as <- <-. right. split; [assumption | now left].
    + destruct (IH Hnd' Hin) as [(-> & a & Ha & ->)|(Hne & Hin')].
      * left. split; [reflexivity|]. now exists a.
      * right. split; [assumption | now right].
Qed.

(** ** setWheelSpeeds *)

Definition withinLimit (w : Wheel) : Prop :=
  Rabs (getAngularVelocity w) <= getMaxAngularVelocityMagnitude w.

Lemma rpm_scale x : getRevolutionsPerMinute x = x * (60 / (2 * PI)).
Proof. unfold getRevolutionsPerMinute. unfold Rdiv. ring. Qed.

Lemma rpm_factor_pos : 0 < 60 / (2 * PI).
Proof. pose proof PI_RGT_0. apply Rdiv_lt_0_compat; lra. Qed.

Lemma rpm_le speed maxSpeed :
  Rabs (getRevolutionsPerMinute speed) <= getRevolutionsPerMinute maxSpeed
  <-> Rabs speed <= maxSpeed.
Proof.
  rewrite !rpm_scale. pose proof rpm_factor_pos as Hc.
  rewrite Rabs_mult, (Rabs_right (60 / (2 * PI))) by lra.
  split; intros H.
  - apply Rmult_le_reg_r with (60 / (2 * PI)); assumption.
  - apply Rmult_le_compat_r; lra.
Qed.

Lemma getWheelMaxSpeed_returns m name maxSpeed :
  getWheelMaxSpeed m name = Returns maxSpeed ->
  exists w, lookup (m_wheels m) name = Some w
            /\ maxSpeed = getMaxAngularVelocityMagnitude w.
Proof.
  unfold getWheelMaxSpeed, mapContains, mapAt.
  destruct (lookup (m_wheels m) name) as [w|]; simpl; [|discriminate].
  intros [= <-]. now exists w.
Qed.

(** What [setWheelSpeeds] leaves behind: a wheel named in [wheelSpeeds]
    turns at a speed given for it there, which is within its limit; the
    other wheels are untouched. *)
Lemma setEachWheelSpeed_sets wheelSpeeds : forall m m',
  wellKeyed (m_wheels m) ->
  setEachWheelSpeed wheelSpeeds m = Returns m' ->
  keys (m_wheels m') = keys (m_wheels m)
  /\ forall k w', In (k, w') (m_wheels m') ->
       (exists speed, In (k, speed) wheelSpeeds
                      /\ getAngularVelocity w' = speed /\ withinLimit w')
       \/ (~ In k (keys wheelSpeeds) /\ In (k, w') (m_wheels m)).
Proof.
  induction wheelSpeeds as [|[name speed] rest IH]; intros m m' Hnd H; simpl in H.
  - injection H as <-. split; [reflexivity|]. intros k w' Hin. right. now split.
  - destruct (ASSERT_TR (mapContains (m_wheels m) name)); try discriminate.
    simpl in H.
    destruct (getWheelMaxSpeed m name) as [maxSpeed| |] eqn:Hmax; try discriminate.
    simpl in H.
    destruct (Rleb _ _) eqn:Hle; try discriminate. simpl in H.
    destruct (mapAt (m_wheels m) name) as [w1| |]; try discriminate. simpl in H.
    apply getWheelMaxSpeed_returns in Hmax. destruct Hmax as (w0 & Hw0 & ->).
    apply Rleb_le in Hle. apply (proj1 (rpm_le _ _)) in Hle.
    apply IH in H; [|simpl; unfold wellKeyed; now rewrite keys_modify].
    simpl in H. destruct H as [Hkeys Hall]. rewrite keys_modify in Hkeys.
    split; [assumption|].
    intros k w' Hin. destruct (Hall k w' Hin) as [(s & Hs & Hv & Hlim)|(Hnot & Hin')].
    + left. exists s. repeat split; try assumption. now right.
    + apply In_modify in Hin'; [|assumption].
      destruct Hin' as [(-> & w2 & Hw2 & ->)|(Hne & Hin'')].
      * left. exists speed. split; [now left|]. split; [reflexivity|].
        unfold withinLimit. simpl.
        rewrite Hw0 in Hw2. injection Hw2 as <-. exact Hle.
      * right. split; [|assumption]. simpl. intros [Heq|Hk]; [congruence | contradiction].
Qed.

Lemma movementSpeeds_keys factors fraction nf nt wheels : forall wheelSpeeds,
  movementSpeeds factors fraction nf nt wheels = Returns wheelSpeeds ->
  keys wheelSpeeds = keys wheels.
Proof.
  induction wheels as [|[name w] rest IH]; intros wheelSpeeds H; simpl in H.
  - now injection H as <-.
  - destruct (ASSERT_TR _); try discriminate. simpl in H.
    destruct (mapAt factors name); try discriminate. simpl in H.
    destruct (movementSpeeds factors fraction nf nt rest) as [more| |];
      try discriminate.
    simpl in H. injection H as <-. simpl. f_equal. now apply IH.
Qed.

(** C6.  After every call of [setWheelSpeedsForMovement] that returns,
    every wheel turns at an angular velocity whose magnitude is at most the
    maximum angular velocity magnitude of the wheel. *)
Theorem setWheelSpeedsForMovement_within_limits
    (fractionOfMaxSpeed forwardFactor turnFactor : R) (m m' : Mouse) :
  wellKeyed (m_wheels m) ->
  setWheelSpeedsForMovement fractionOfMaxSpeed forwardFactor turnFactor m
  = Returns m' ->
  forall name w, In (name, w) (m_wheels m') ->
    Rabs (getAngularVelocity w) <= getMaxAngularVelocityMagnitude w.
Proof.
  intros Hnd H name w Hin. unfold setWheelSpeedsForMovement in H.
  destruct (normalizeFactors _ _) as [[nf nt]| |]; try discriminate. simpl in H.
  destruct (realOf nf) as [rf| |]; try discriminate. simpl in H.
  destruct (realOf nt) as [rt| |]; try discriminate. simpl in H.
  destruct (movementSpeeds _ _ _ _ _) as [wheelSpeeds| |] eqn:Hspeeds;
    try discriminate.
  simpl in H. apply movementSpeeds_keys in Hspeeds.
  apply setEachWheelSpeed_sets in H; [|assumption].
  destruct H as [Hkeys Hall].
  destruct (Hall name w Hin) as [(s & _ & _ & Hlim)|(Hnot & Hin')].
  - exact Hlim.
  - exfalso. apply Hnot. rewrite Hspeeds. now apply In_keys with w.
Qed.

(** ** Normalization of the factors, in exact arithmetic *)

Lemma magnitude_pos fw tu : Rabs fw + Rabs tu <> 0 -> 0 < Rabs fw + Rabs tu.
Proof. pose proof (Rabs_pos fw). pose proof (Rabs_pos tu). lra. Qed.

Lemma normalized_magnitude_one fw tu :
  Rabs fw + Rabs tu <> 0 ->
  Rabs (fw / (Rabs fw + Rabs tu)) + Rabs (tu / (Rabs fw + Rabs tu)) = 1.
Proof.
  intros Hm. pose proof (magnitude_pos fw tu Hm) as Hpos.
  unfold Rdiv. rewrite !Rabs_mult.
  rewrite (Rabs_right (/ (Rabs fw + Rabs tu))).
  - field. assumption.
  - apply Rle_ge. left. now apply Rinv_0_lt_compat.
Qed.

(** With a magnitude that is not zero both quotients exist, their
    magnitudes add up to exactly 1, and both checks pass. *)
Lemma normalizeFactors_exact fw tu :
  Rabs fw + Rabs tu <> 0 ->
  normalizeFactors (Some fw) (Some tu)
  = Returns (Some (fw / (Rabs fw + Rabs tu)), Some (tu / (Rabs fw + Rabs tu))).
Proof.
  intros Hm. unfold normalizeFactors. cbn.
  destruct (Req_dec_T (Rabs fw + Rabs tu) 0) as [Hz|_]; [contradiction|].
  unfold ASSERT_LE, ASSERT_TR. cbn.
  rewrite (normalized_magnitude_one fw tu Hm).
  rewrite !Rleb_true by lra. reflexivity.
Qed.

(** With both factors zero the quotients are not numbers and the first
    check fails. *)
Lemma normalizeFactors_exact_zero fw tu :
  Rabs fw + Rabs tu = 0 -> normalizeFactors (Some fw) (Some tu) = AssertFailed.
Proof.
  intros Hm. unfold normalizeFactors. cbn.
  destruct (Req_dec_T (Rabs fw + Rabs tu) 0) as [_|Hnz]; [|contradiction].
  reflexivity.
Qed.

(** ** Calls that return *)

Lemma In_lookup {A : Type} (m : StringMap.t A) k a :
  wellKeyed m -> In (k, a) m -> lookup m k = Some a.
Proof.
  unfold wellKeyed. induction m as [|[k0 a0] rest IH]; simpl; [contradiction|].
  intros Hnd Hin. inversion Hnd as [|? ? Hnotin Hnd']; subst.
  destruct Hin as [Heq|Hin].
  - injection Heq as -> ->. now rewrite String.eqb_refl.
  - destruct (String.eqb k0 k) eqn:E.
    + apply String.eqb_eq in E. subst k0. exfalso. apply Hnotin.
      now apply In_keys with a.
    + now apply IH.
Qed.

Lemma setEachWheelSpeed_returns wheelSpeeds : forall m,
  (forall k speed, In (k, speed) wheelSpeeds ->
     exists w, lookup (m_wheels m) k = Some w
               /\ Rabs speed <= getMaxAngularVelocityMagnitude w) ->
  exists m', setEachWheelSpeed wheelSpeeds m = Returns m'.
Proof.
  induction wheelSpeeds as [|[name speed] rest IH]; intros m Hall; simpl.
  - now exists m.
  - destruct (Hall name speed (or_introl eq_refl)) as (w & Hw & Hle).
    unfold getWheelMaxSpeed, mapContains, mapAt. rewrite Hw. simpl.
    rewrite Rleb_true by (apply rpm_le; exact Hle). simpl.
    apply IH. intros k s Hin. simpl. rewrite lookup_modify.
    destruct (Hall k s (or_intror Hin)) as (w' & Hw' & Hle').
    destruct (String.eqb name k) eqn:E.
    + apply String.eqb_eq in E. subst k. rewrite Hw in *. injection Hw' as <-.
      simpl. eexists. split; [reflexivity | exact Hle'].
    + now exists w'.
Qed.


(** With factors whose magnitude is not zero, a fraction in [[-1, 1]],
    adjustment factors in [[-1, 1]] for every wheel and no negative
    maximum, [setWheelSpeedsForMovement] returns. *)
Lemma movementSpeeds_returns factors fraction nf nt wheels :
  (forall name w, In (name, w) wheels -> exists p, lookup factors name = Some p) ->
  exists wheelSpeeds,
    movementSpeeds factors fraction nf nt wheels = Returns wheelSpeeds
    /\ forall k speed, In (k, speed) wheelSpeeds ->
         exists w p, In (k, w) wheels /\ lookup factors k = Some p
           /\ speed = getMaxAngularVelocityMagnitude w * fraction
                      * (nf * fst p + nt * snd p).
Proof.
  induction wheels as [|[name w] rest IH]; intros Hall; simpl.
  - exists []. split; [reflexivity|]. intros k s [].
  - destruct (Hall name w (or_introl eq_refl)) as (p & Hp).
    destruct IH as (more & Hmore & Hspec).
    { intros n w' Hin. apply Hall with w'. now right. }
    unfold mapContains, mapAt. rewrite Hp. simpl. rewrite Hmore. simpl.
    eexists. split; [reflexivity|].
    intros k s [Heq|Hin].
    + injection Heq as <- <-. exists w, p. split; [now left|]. now split.
    + destruct (Hspec k s Hin) as (w' & p' & Hin' & Hp' & Hs).
      exists w', p'. split; [now right|]. now split.
Qed.

Lemma combination_bound nf nt af aT :
  Rabs nf + Rabs nt = 1 -> Rabs af <= 1 -> Rabs aT <= 1 ->
  Rabs (nf * af + nt * aT) <= 1.
Proof.
  intros Hn Hf Ht.
  eapply Rle_trans; [apply Rabs_triang|]. rewrite !Rabs_mult.
  pose proof (Rabs_pos nf). pose proof (Rabs_pos nt).
  pose proof (Rabs_pos af). pose proof (Rabs_pos aT). nra.
Qed.

Lemma setWheelSpeedsForMovement_returns
    (fractionOfMaxSpeed forwardFactor turnFactor : R) (m : Mouse) :
  wellKeyed (m_wheels m) ->
  Rabs forwardFactor + Rabs turnFactor <> 0 ->
  Rabs fractionOfMaxSpeed <= 1 ->
  (forall name w, In (name, w) (m_wheels m) ->
     0 <= getMaxAngularVelocityMagnitude w
     /\ exists p, lookup (m_wheelSpeedAdjustmentFactors m) name = Some p
                  /\ Rabs (fst p) <= 1 /\ Rabs (snd p) <= 1) ->
  exists m',
    setWheelSpeedsForMovement fractionOfMaxSpeed forwardFactor turnFactor m
    = Returns m'.
Proof.
  intros Hnd Hm Hf Hall. unfold setWheelSpeedsForMovement.
  rewrite normalizeFactors_exact by assumption. cbn [bind fst snd realOf].
  set (nf := forwardFactor / _). set (nt := turnFactor / _).
  destruct (movementSpeeds_returns (m_wheelSpeedAdjustmentFactors m)
              fractionOfMaxSpeed nf nt (m_wheels m)) as (speeds & Hs & Hspec).
  { intros name w Hin. destruct (Hall name w Hin) as (_ & p & Hp & _). now exists p. }
  rewrite Hs. cbn [bind]. apply setEachWheelSpeed_returns.
  intros k speed Hin. destruct (Hspec k speed Hin) as (w & p & Hw & Hp & ->).
  exists w. split; [now apply In_lookup|].
  destruct (Hall k w Hw) as (Hmax & p' & Hp' & Hpf & Hpt).
  rewrite Hp in Hp'. injection Hp' as <-.
  pose proof (combination_bound nf nt (fst p) (snd p)
                (normalized_magnitude_one forwardFactor turnFactor Hm) Hpf Hpt) as Hc.
  rewrite !Rabs_mult. rewrite (Rabs_right (getMaxAngularVelocityMagnitude w)) by lra.
  pose proof (Rabs_pos fractionOfMaxSpeed) as Hf0.
  pose proof (Rabs_pos (nf * fst p + nt * snd p)) as Hc0.
  assert (Hprod : Rabs fractionOfMaxSpeed * Rabs (nf * fst p + nt * snd p) <= 1)
    by nra.
  rewrite Rmult_assoc.
  rewrite <- (Rmult_1_r (getMaxAngularVelocityMagnitude w)) at 2.
  apply Rmult_le_compat_l; assumption.
Qed.

(** Driving the one-wheel mouse forward at full speed. *)
Definition fullSpeedAhead : R :=
  PI * 1 * (1 / (Rabs 1 + Rabs 0) * 1 + 0 / (Rabs 1 + Rabs 0) * 1).

Definition oneWheelMouseAhead : Mouse :=
  withWheels oneWheelMouse
    [("wheel"%string, setAngularVelocity fullSpeedAhead wheelBelow)].

Lemma fullSpeedAhead_value : fullSpeedAhead = PI.
Proof.
  unfold fullSpeedAhead. rewrite Rabs_R1, Rabs_R0. field.
Qed.

Lemma oneWheelMouse_moves_forward :
  setWheelSpeedsForMovement 1 1 0 oneWheelMouse = Returns oneWheelMouseAhead.
Proof.
  unfold setWheelSpeedsForMovement.
  rewrite normalizeFactors_exact by (rewrite Rabs_R1, Rabs_R0; lra).
  cbn. fold fullSpeedAhead.
  rewrite Rleb_true; [reflexivity|].
  apply rpm_le. rewrite fullSpeedAhead_value.
  pose proof PI_RGT_0. rewrite Rabs_right; lra.
Qed.

Lemma setWheelSpeedsForMovement_witness :
  Rabs (getAngularVelocity (setAngularVelocity fullSpeedAhead wheelBelow))
  <= getMaxAngularVelocityMagnitude (setAngularVelocity fullSpeedAhead wheelBelow).
Proof.
  apply (setWheelSpeedsForMovement_within_limits 1 1 0 oneWheelMouse
           oneWheelMouseAhead) with (name := "wheel"%string).
  - unfold wellKeyed. simpl. repeat constructor. intros [].
  - exact oneWheelMouse_moves_forward.
  - simpl. now left.
Defined.

(** ** Normalization of the factors, in binary64 *)

(** The double nearest to 3.1. *)
Definition threePointOne : float := 0x1.8cccccccccccdp+1%float.

(** C10.  In binary64 the normalized magnitude is not always exactly 1:
    for the factors 3.1 and 1.0, whose magnitude is positive, the two
    quotients have magnitudes that add up to [1 + 2^-52], and the check
    [ASSERT_LE(normalizedFactorMagnitude, 1.0)] fails.  With both factors
    zero the quotient is a NaN and the first check fails. *)
Theorem normalizeFactors_binary64_exceeds_one :
  let forwardFactor := threePointOne in
  let turnFactor := 1%float in
  let factorMagnitude :=
    PrimFloat.add (PrimFloat.abs forwardFactor) (PrimFloat.abs turnFactor) in
  let normalizedFactorMagnitude :=
    PrimFloat.add (PrimFloat.abs (PrimFloat.div forwardFactor factorMagnitude))
                  (PrimFloat.abs (PrimFloat.div turnFactor factorMagnitude)) in
  PrimFloat.ltb 0%float factorMagnitude = true
  /\ normalizedFactorMagnitude = 0x1.0000000000001p+0%float
  /\ PrimFloat.leb normalizedFactorMagnitude 1%float = false
  /\ normalizeFactors forwardFactor turnFactor = AssertFailed
  /\ PrimFloat.is_nan (PrimFloat.div 0%float 0%float) = true
  /\ normalizeFactors 0%float 0%float = AssertFailed.
Proof.
  cbv zeta. repeat split; vm_compute; reflexivity.
Qed.

End Synthesizer.


(* ================================================================= *)
(** * The curve turn factors *)

Module CurveTurn.

Import Geometry StringMap Mouse Kinematics Synthesizer.
Local Open Scope R_scope.

(** The adjustment factors [(a_f, a_t)] of a wheel. *)
Definition adjustmentFactorsOf (m : Mouse) (name : string) : R * R :=
  match lookup (m_wheelSpeedAdjustmentFactors m) name with
  | Some p => p
  | None => (0, 0)
  end.

(** The forward and radial contributions of a wheel driven at a given
    angular velocity. *)
Definition contributionAt (m : Mouse) (w : Wheel) (angularVelocity : R) : R * R :=
  getRatesOfChange (m_initialTranslation m) (m_initialRotation m)
    (getInitialPosition w) (getInitialDirection w)
    (angularVelocity * getRadius w).

(** The contributions of a wheel driven at its maximum angular velocity
    times [a_f], and then at its maximum times [a_t], added up. *)
Definition forwardContributions (m : Mouse) (wheel : string * Wheel) : R :=
  let maxSpeed := getMaxAngularVelocityMagnitude (snd wheel) in
  fst (contributionAt m (snd wheel) (maxSpeed * fst (adjustmentFactorsOf m (fst wheel))))
  + fst (contributionAt m (snd wheel) (maxSpeed * snd (adjustmentFactorsOf m (fst wheel)))).

Definition radialContributions (m : Mouse) (wheel : string * Wheel) : R :=
  let maxSpeed := getMaxAngularVelocityMagnitude (snd wheel) in
  snd (contributionAt m (snd wheel) (maxSpeed * fst (adjustmentFactorsOf m (fst wheel))))
  + snd (contributionAt m (snd wheel) (maxSpeed * snd (adjustmentFactorsOf m (fst wheel)))).

Definition totalForwardRateOfChange (m : Mouse) : R :=
  sumR (map (forwardContributions m) (m_wheels m)).

Definition totalRadialRateOfChange (m : Mouse) : R :=
  sumR (map (radialContributions m) (m_wheels m)).

Lemma totalRatesOfChange_sums P0 R0 factors wheels : forall totals result,
  totalRatesOfChange P0 R0 factors wheels totals = Returns result ->
  forall m, m_initialTranslation m = P0 -> m_initialRotation m = R0 ->
    m_wheelSpeedAdjustmentFactors m = factors ->
    result = (fst totals + sumR (map (forwardContributions m) wheels),
              snd totals + sumR (map (radialContributions m) wheels)).
Proof.
  induction wheels as [|[name w] rest IH]; intros totals result H m HP HR HF;
    simpl in H.
  - injection H as <-. simpl. destruct totals as [tf tr]. simpl.
    f_equal; ring.
  - unfold mapContains, mapAt in H.
    destruct (lookup factors name) as [[af aT]|] eqn:Hl; simpl in H;
      [|discriminate].
    rewrite (IH _ _ H m HP HR HF). simpl.
    unfold forwardContributions, radialContributions, contributionAt,
      adjustmentFactorsOf, addContributions.
    cbn [fst snd]. rewrite HP, HR, HF, Hl. cbn [fst snd fold_left].
    rewrite !getRatesOfChange_eq. cbn [fst snd].
    f_equal; unfold Rdiv; ring.
Qed.

(** ** Quotients of exact arithmetic *)

Lemma fdiv_real x y : y <> 0 -> fdiv (Some x) (Some y) = Some (x / y).
Proof.
  intros Hy. cbn [fdiv exact]. destruct (Req_dec_T y 0); [contradiction|].
  reflexivity.
Qed.

Lemma fdiv_by_zero x : fdiv (Some x) (Some 0) = None.
Proof.
  cbn [fdiv exact]. destruct (Req_dec_T 0 0) as [_|H]; [reflexivity|].
  now elim H.
Qed.

(** What [initialize] stores as curve turn factors, in terms of the two
    totals of the loop of [getCurveTurnFactors]. *)
Lemma initialize_curveTurnFactors
    (wallLength wallWidth : R)
    (convexHull : list Polygon -> Polygon)
    (createCirclePolygon : Cartesian -> R -> nat -> Polygon)
    (parse : string -> Cartesian -> R ->
             option (Polygon * StringMap.t Wheel * StringMap.t Sensor * bool))
    (mouseFile : string) (initialDirection : Direction) (m0 m : Mouse) :
  initialize wallLength wallWidth convexHull createCirclePolygon parse
    mouseFile initialDirection m0 = Returns (m, true) ->
  exists totals : R * R,
    m_curveTurnFactors m
    = (times (fdiv (Some (wallLength / 2 * (5 / 10) * PI))
                   (Some (degreesToRadians 90)))
             (fdiv (Some (snd totals)) (Some (fst totals))),
       Some 1)
    /\ fst totals = totalForwardRateOfChange m
    /\ snd totals = totalRadialRateOfChange m.
Proof.
  intros H. unfold initialize in H.
  destruct (parse _ _ _) as [[[[body wheels] sensors] success]|];
    [|discriminate].
  destruct (getWheelSpeedAdjustmentFactors _ _ wheels) as [factors| |];
    try discriminate.
  cbn [bind] in H. unfold getCurveTurnFactors in H.
  destruct (totalRatesOfChange _ _ factors wheels (0, 0)) as [totals| |] eqn:Ht;
    try discriminate.
  cbn [bind] in H. injection H as <- _. exists totals.
  split; [reflexivity|].
  unfold totalRadialRateOfChange, totalForwardRateOfChange.
  match goal with
  | |- context [map (forwardContributions ?m1) _] =>
      pose proof (totalRatesOfChange_sums _ _ _ _ _ _ Ht m1
                    eq_refl eq_refl eq_refl) as Hsums
  end.
  cbn [m_wheels]. split.
  - etransitivity; [exact (f_equal fst Hsums)|]. cbn [fst snd]. ring.
  - etransitivity; [exact (f_equal snd Hsums)|]. cbn [fst snd]. ring.
Qed.

(** C5.  The curve turn factors that [initialize] stores are the pair
    [(A, B)] with [B = 1] and
    [A = (L / (PI / 2)) * (totalRadialRateOfChange / totalForwardRateOfChange)],
    where [L = PI * (wallLength / 2) / 2] and the two totals add up, over
    all wheels, the forward and the radial contributions of the wheel
    driven at its maximum angular velocity times [a_f] and then at its
    maximum times [a_t].  When the total forward rate of change is zero
    the quotient, and with it [A], is not a real number. *)
Theorem curveTurnFactors_formula
    (wallLength wallWidth : R)
    (convexHull : list Polygon -> Polygon)
    (createCirclePolygon : Cartesian -> R -> nat -> Polygon)
    (parse : string -> Cartesian -> R ->
             option (Polygon * StringMap.t Wheel * StringMap.t Sensor * bool))
    (mouseFile : string) (initialDirection : Direction) (m0 m : Mouse) :
  initialize wallLength wallWidth convexHull createCirclePolygon parse
    mouseFile initialDirection m0 = Returns (m, true) ->
  let L := PI * (wallLength / 2) / 2 in
  snd (m_curveTurnFactors m) = Some 1
  /\ (totalForwardRateOfChange m <> 0 ->
      fst (m_curveTurnFactors m)
      = Some ((L / (PI / 2))
              * (totalRadialRateOfChange m / totalForwardRateOfChange m)))
  /\ (totalForwardRateOfChange m = 0 -> fst (m_curveTurnFactors m) = None).
Proof.
  intros H. cbv zeta.
  destruct (initialize_curveTurnFactors _ _ _ _ _ _ _ _ _ H)
    as (totals & Hfactors & Hforward & Hradial).
  rewrite Hfactors. set (A := times _ _). cbn [fst snd]. subst A.
  split; [reflexivity|].
  pose proof PI_RGT_0 as Hpi.
  assert (Hquarter : degreesToRadians 90 <> 0)
    by (unfold degreesToRadians; lra).
  rewrite (fdiv_real _ _ Hquarter), <- Hforward, <- Hradial. split.
  - intros Hnz. rewrite (fdiv_real _ _ Hnz). unfold times.
    apply f_equal. unfold degreesToRadians. field. lra.
  - intros Hz. rewrite Hz, fdiv_by_zero. reflexivity.
Qed.

(** A mouse file that describes one wheel, one unit below the centre of
    the first tile (for a wall length of 2 and a wall width of 0) and
    rolling east. *)
Definition wheelBelowCentre : Wheel :=
  mkWheel [] (mkCartesian 1 0) 0 1 1 0 0.

Definition parseOneWheel (mouseFile : string) (initialTranslation : Cartesian)
    (initialRotation : R)
  : option (Polygon * StringMap.t Wheel * StringMap.t Sensor * bool) :=
  Some ([], [("wheel"%string, wheelBelowCentre)], [], true).

Definition noHull (polygons : list Polygon) : Polygon := [].

Definition noCircle (centre : Cartesian) (radius : R) (vertices : nat) : Polygon := [].

Lemma oneWheel_rates v :
  getRatesOfChange (mkCartesian ((2 + 0) / 2) ((2 + 0) / 2)) (degreesToRadians 0)
    (mkCartesian 1 0) 0 v = (v, v).
Proof.
  rewrite getRatesOfChange_eq. unfold minus, getTheta, getRho, degreesToRadians.
  cbn [getX getY].
  replace ((2 + 0) / 2 - 1) with 0 by field.
  replace ((2 + 0) / 2 - 0) with 1 by field.
  replace (0 * PI / 180 - 0) with 0 by field.
  rewrite cos_0, (atan2_up 1) by lra.
  replace (PI / 2 - 0) with (PI / 2) by ring. rewrite sin_PI2.
  replace (0 * 0 + 1 * 1) with 1 by ring. rewrite sqrt_1.
  f_equal; field.
Qed.

(** The mouse of that file is initialized, and its wheel, driven at its
    maximum times either adjustment factor, moves it forward: the total
    forward rate of change is 2. *)
Lemma oneWheel_initializes :
  exists m,
    initialize 2 0 noHull noCircle parseOneWheel "mouse" EAST newMouse
    = Returns (m, true)
    /\ totalForwardRateOfChange m = 2
    /\ totalRadialRateOfChange m = 2.
Proof.
  unfold initialize, parseOneWheel, getWheelSpeedAdjustmentFactors.
  cbn [map fst snd wheelBelowCentre getInitialPosition getInitialDirection
       getMaxAngularVelocityMagnitude getRadius DIRECTION_TO_ANGLE].
  rewrite oneWheel_rates. cbn [fold_left largerMagnitudes fst snd].
  rewrite Rmult_1_r, Rabs_R1, !Rltb_true by lra.
  cbn [normalizeContributions fst snd fdiv exact].
  destruct (Req_dec_T 1 0) as [H|_]; [lra|].
  unfold ASSERT_LE, ASSERT_TR. cbn [fle exact].
  rewrite !Rleb_true by lra. cbn [bind realOf].
  unfold getCurveTurnFactors.
  cbn [totalRatesOfChange fst snd mapContains mapAt lookup String.eqb
       Ascii.eqb Bool.eqb ASSERT_TR bind wheelBelowCentre].
  eexists. split; [reflexivity|].
  unfold totalForwardRateOfChange, totalRadialRateOfChange,
    forwardContributions, radialContributions, contributionAt,
    adjustmentFactorsOf.
  cbn [m_wheels m_wheelSpeedAdjustmentFactors m_initialTranslation
       m_initialRotation map sumR fst snd lookup String.eqb Ascii.eqb Bool.eqb
       wheelBelowCentre getInitialPosition getInitialDirection
       getMaxAngularVelocityMagnitude getRadius].
  rewrite !oneWheel_rates. cbn [fst snd]. split; field.
Qed.

Lemma curveTurnFactors_witness :
  exists m,
    initialize 2 0 noHull noCircle parseOneWheel "mouse" EAST newMouse
    = Returns (m, true)
    /\ totalForwardRateOfChange m <> 0
    /\ snd (m_curveTurnFactors m) = Some 1
    /\ fst (m_curveTurnFactors m)
       = Some ((PI * (2 / 2) / 2 / (PI / 2))
               * (totalRadialRateOfChange m / totalForwardRateOfChange m)).
Proof.
  destruct oneWheel_initializes as (m & Hm & Hforward & _). exists m.
  assert (Hnz : totalForwardRateOfChange m <> 0) by (rewrite Hforward; lra).
  split; [exact Hm|]. split; [exact Hnz|].
  destruct (curveTurnFactors_formula 2 0 noHull noCircle parseOneWheel
              "mouse" EAST newMouse m Hm) as (HB & HA & _).
  split; [exact HB | exact (HA Hnz)].
Defined.

(** ** Curve turns when a factor is not a real number *)

(** With real factors, [setWheelSpeedsForMovementOf] is
    [setWheelSpeedsForMovement]. *)
Lemma setWheelSpeedsForMovementOf_real fraction forwardFactor turnFactor m :
  setWheelSpeedsForMovementOf fraction (Some forwardFactor) (Some turnFactor) m
  = setWheelSpeedsForMovement fraction forwardFactor turnFactor m.
Proof. reflexivity. Qed.

(** With a forward factor that is not a real number, the normalized
    magnitude is not one either, and the first [ASSERT_LE] fails. *)
Lemma setWheelSpeedsForMovementOf_not_real fraction turnFactor m :
  setWheelSpeedsForMovementOf fraction None turnFactor m = AssertFailed.
Proof.
  unfold setWheelSpeedsForMovementOf, normalizeFactors, ASSERT_LE.
  destruct turnFactor; reflexivity.
Qed.

(** A mouse file that describes one wheel, one unit above the centre of
    the first tile and rolling east: driven forward and then in turn, the
    wheel undoes its own contribution, and both totals are zero. *)
Definition wheelAboveCentre : Wheel :=
  mkWheel [] (mkCartesian 1 2) 0 1 1 0 0.

Definition parseWheelAbove (mouseFile : string) (initialTranslation : Cartesian)
    (initialRotation : R)
  : option (Polygon * StringMap.t Wheel * StringMap.t Sensor * bool) :=
  Some ([], [("wheel"%string, wheelAboveCentre)], [], true).

Lemma atan2_down y : y < 0 -> atan2 y 0 = - (PI / 2).
Proof.
  intros Hy. unfold atan2.
  rewrite (Rltb_false 0 0), (Rltb_false 0 y), (Rltb_true y 0) by lra.
  reflexivity.
Qed.

Lemma wheelAbove_rates v :
  getRatesOfChange (mkCartesian ((2 + 0) / 2) ((2 + 0) / 2)) (degreesToRadians 0)
    (mkCartesian 1 2) 0 v = (v, - v).
Proof.
  rewrite getRatesOfChange_eq. unfold minus, getTheta, getRho, degreesToRadians.
  cbn [getX getY].
  replace ((2 + 0) / 2 - 1) with 0 by field.
  replace ((2 + 0) / 2 - 2) with (-1) by field.
  replace (0 * PI / 180 - 0) with 0 by field.
  rewrite cos_0, (atan2_down (-1)) by lra.
  replace (- (PI / 2) - 0) with (- (PI / 2)) by ring. rewrite sin_neg, sin_PI2.
  replace (0 * 0 + -1 * -1) with 1 by ring. rewrite sqrt_1.
  f_equal; field.
Qed.

(** The mouse of that file is initialized with success, its factor [A] is
    not a real number, and its curve turns fail. *)
Lemma curveTurnFactors_not_real :
  exists m,
    initialize 2 0 noHull noCircle parseWheelAbove "mouse" EAST newMouse
    = Returns (m, true)
    /\ fst (m_curveTurnFactors m) = None
    /\ forall fractionOfMaxSpeed,
         setWheelSpeedsForCurveTurnLeft fractionOfMaxSpeed m = AssertFailed.
Proof.
  unfold initialize, parseWheelAbove, getWheelSpeedAdjustmentFactors.
  cbn [map fst snd wheelAboveCentre getInitialPosition getInitialDirection
       getMaxAngularVelocityMagnitude getRadius DIRECTION_TO_ANGLE].
  rewrite wheelAbove_rates. cbn [fold_left largerMagnitudes fst snd].
  rewrite Rmult_1_r, Rabs_Ropp, Rabs_R1, !Rltb_true by lra.
  cbn [normalizeContributions fst snd].
  rewrite !fdiv_real by lra.
  unfold ASSERT_LE, ASSERT_TR. cbn [fle exact].
  rewrite !Rleb_true by lra. cbn [bind realOf].
  unfold getCurveTurnFactors.
  cbn [totalRatesOfChange fst snd mapContains mapAt lookup String.eqb
       Ascii.eqb Bool.eqb ASSERT_TR bind wheelAboveCentre fold_left
       addContributions getInitialPosition getInitialDirection
       getMaxAngularVelocityMagnitude getRadius].
  rewrite !wheelAbove_rates. cbn [fst snd].
  replace (0 + 1 * 1 * (1 / 1) + 1 * 1 * (- (1) / 1)) with 0 by field.
  rewrite fdiv_by_zero.
  eexists. split; [reflexivity|].
  assert (Hnone : forall a, times a None = None) by (now intros [a|]).
  cbn [m_curveTurnFactors fst]. split; [apply Hnone|].
  intros fraction. unfold setWheelSpeedsForCurveTurnLeft.
  cbn [m_curveTurnFactors fst snd]. rewrite Hnone.
  apply setWheelSpeedsForMovementOf_not_real.
Qed.

End CurveTurn.


(* ================================================================= *)
(** * Lines, tokens and numerals *)

Module TextFacts.

Import Text.
Local Open Scope string_scope.

(** Every character of a string satisfies a test. *)
Fixpoint allChars (test : ascii -> bool) (s : string) : bool :=
  match s with
  | EmptyString => true
  | String c rest => test c && allChars test rest
  end.

(** A character that neither separates tokens nor ends a line. *)
Definition inToken (c : ascii) : bool :=
  negb (isWhitespace c) && negb (Ascii.eqb c newline).

Lemma append_assoc (a b c : string) : (a ++ b) ++ c = a ++ (b ++ c).
Proof. induction a as [|x a IH]; simpl; [reflexivity | now rewrite IH]. Qed.

Lemma append_nil_r (a : string) : a ++ "" = a.
Proof. induction a as [|x a IH]; simpl; [reflexivity | now rewrite IH]. Qed.

Lemma allChars_append test a b :
  allChars test (a ++ b) = allChars test a && allChars test b.
Proof.
  induction a as [|x a IH]; simpl; [reflexivity|].
  now rewrite IH, andb_assoc.
Qed.

(** ** getline *)

Lemma getlines_line (l rest : string) :
  allChars (fun c => negb (Ascii.eqb c newline)) l = true ->
  getlines (l ++ String newline rest) = l :: getlines rest.
Proof.
  induction l as [|c l IH]; intros H.
  - reflexivity.
  - simpl in H. apply andb_true_iff in H. destruct H as [Hc Hl].
    apply negb_true_iff in Hc.
    change (getlines (String c (l ++ String newline rest))
            = String c l :: getlines rest).
    cbn [getlines]. rewrite Hc, (IH Hl). reflexivity.
Qed.

(** ** tokenize *)

Lemma tokenizeFrom_word isDelimiter (t : string) : forall word rest,
  allChars (fun c => negb (isDelimiter c)) t = true ->
  tokenizeFrom isDelimiter word (t ++ rest)
  = tokenizeFrom isDelimiter (word ++ t) rest.
Proof.
  induction t as [|c t IH]; intros word rest H.
  - simpl. now rewrite append_nil_r.
  - simpl in H. apply andb_true_iff in H. destruct H as [Hc Ht].
    apply negb_true_iff in Hc.
    change (tokenizeFrom isDelimiter word (String c (t ++ rest))
            = tokenizeFrom isDelimiter (word ++ String c t) rest).
    cbn [tokenizeFrom]. rewrite Hc, (IH _ _ Ht), append_assoc. reflexivity.
Qed.

(** A token followed by a delimiter. *)
Lemma tokenizeFrom_token isDelimiter (t : string) d rest :
  allChars (fun c => negb (isDelimiter c)) t = true ->
  t <> "" -> isDelimiter d = true ->
  tokenizeFrom isDelimiter "" (t ++ String d rest)
  = t :: tokenizeFrom isDelimiter "" rest.
Proof.
  intros Ht Hne Hd. rewrite tokenizeFrom_word by assumption.
  cbn [append tokenizeFrom]. rewrite Hd.
  destruct t; [contradiction | reflexivity].
Qed.

(** A token at the end of the line. *)
Lemma tokenizeFrom_last isDelimiter (t : string) :
  allChars (fun c => negb (isDelimiter c)) t = true ->
  t <> "" ->
  tokenizeFrom isDelimiter "" t = [t].
Proof.
  intros Ht Hne. rewrite <- (append_nil_r t) at 1.
  rewrite tokenizeFrom_word by assumption.
  cbn [append tokenizeFrom]. destruct t; [contradiction | reflexivity].
Qed.

(** ** Numerals *)

Lemma uint_chars (d : Decimal.uint) :
  allChars inToken (NilEmpty.string_of_uint d) = true.
Proof. induction d; simpl; try rewrite IHd; reflexivity. Qed.

Lemma nilzero_chars (d : Decimal.uint) :
  allChars inToken (NilZero.string_of_uint d) = true.
Proof.
  destruct d; try reflexivity;
    match goal with
    | |- allChars _ (NilZero.string_of_uint ?x) = _ => exact (uint_chars x)
    end.
Qed.

Lemma intToString_chars (z : Z) : allChars inToken (intToString z) = true.
Proof.
  unfold intToString, NilZero.string_of_int.
  destruct (Z.to_int z) as [d|d].
  - apply nilzero_chars.
  - cbn [allChars]. rewrite nilzero_chars. reflexivity.
Qed.

Lemma intToString_nonempty (z : Z) : intToString z <> "".
Proof.
  unfold intToString, NilZero.string_of_int, NilZero.string_of_uint.
  destruct (Z.to_int z) as [d|d]; destruct d; discriminate.
Qed.

Lemma to_int_nonnil (z : Z) :
  Z.to_int z <> Decimal.Pos Decimal.Nil /\ Z.to_int z <> Decimal.Neg Decimal.Nil.
Proof.
  destruct z as [|p|p]; simpl; split; try discriminate;
    intros [= H]; now apply (Unsigned.to_uint_nonnil p).
Qed.

Lemma parseInt_intToString (z : Z) :
  (INT_MIN <= z <= INT_MAX)%Z -> parseInt (intToString z) = Some z.
Proof.
  intros Hz. unfold parseInt, intToString.
  destruct (to_int_nonnil z) as [H1 H2].
  rewrite NilZero.isi by assumption. rewrite DecimalZ.of_to.
  destruct (Z.leb_spec INT_MIN z); [|lia].
  destruct (Z.leb_spec z INT_MAX); [|lia]. reflexivity.
Qed.

Lemma parseInt_range (s : string) (z : Z) :
  parseInt s = Some z -> (INT_MIN <= z <= INT_MAX)%Z.
Proof.
  unfold parseInt. destruct (NilZero.int_of_string s) as [d|]; [|discriminate].
  destruct (Z.leb_spec INT_MIN (Z.of_int d)); [|discriminate].
  destruct (Z.leb_spec (Z.of_int d) INT_MAX); [|discriminate].
  intros [= <-]. lia.
Qed.

Lemma inToken_not_whitespace s :
  allChars inToken s = true -> allChars (fun c => negb (isWhitespace c)) s = true.
Proof.
  induction s as [|c s IH]; simpl; [reflexivity|].
  intros H. apply andb_true_iff in H. destruct H as [Hc Hs].
  unfold inToken in Hc. apply andb_true_iff in Hc. destruct Hc as [Hw _].
  now rewrite Hw, IH.
Qed.

Lemma inToken_not_newline s :
  allChars inToken s = true ->
  allChars (fun c => negb (Ascii.eqb c newline)) s = true.
Proof.
  induction s as [|c s IH]; simpl; [reflexivity|].
  intros H. apply andb_true_iff in H. destruct H as [Hc Hs].
  unfold inToken in Hc. apply andb_true_iff in Hc. destruct Hc as [_ Hn].
  now rewrite Hn, IH.
Qed.

End TextFacts.


(* ================================================================= *)
(** * The numeric form: records, writer, validator, loader *)

Module NumericForm.

Import Text MazeFileUtilities TextFacts.
Local Open Scope Z_scope.

(** ** Records *)

(** A tile with its four walls given. *)
Definition tileOf (n e s w : bool) : BasicTile :=
  mkTile (mkWalls (Some n) (Some e) (Some s) (Some w)).

Definition complete (tile : BasicTile) : Prop :=
  exists n e s w, tile = tileOf n e s w.

(** The wall value that the writer prints for a direction. *)
Definition wallBit (tile : BasicTile) (d : Direction) : Z :=
  match find d (walls tile) with
  | Some b => bit b
  | None => 0
  end.

(** Values printed one after the other, a single space before each. *)
Fixpoint spaced (values : list Z) : string :=
  match values with
  | [] => EmptyString
  | v :: rest => (" " ++ intToString v ++ spaced rest)%string
  end.

(** The line [x y n e s w] of a tile. *)
Definition numericLine (x y : Z) (tile : BasicTile) : string :=
  (intToString x
   ++ spaced [y; wallBit tile NORTH; wallBit tile EAST;
              wallBit tile SOUTH; wallBit tile WEST])%string.

(** The lines of a column from row [y] on, and of the columns of a maze
    from column [x] on: column after column, and row after row in each. *)
Fixpoint columnLines (x y : Z) (column : list BasicTile) : list string :=
  match column with
  | [] => []
  | tile :: rest => numericLine x y tile :: columnLines x (y + 1) rest
  end.

Fixpoint mazeLines (x : Z) (maze : Grid) : list string :=
  match maze with
  | [] => []
  | column :: rest => columnLines x 0 column ++ mazeLines (x + 1) rest
  end.

(** The values of a line whose tokens are all integers. *)
Fixpoint parseAll (tokens : list string) : option (list Z) :=
  match tokens with
  | [] => Some []
  | token :: rest =>
      match parseInt token, parseAll rest with
      | Some v, Some vs => Some (v :: vs)
      | _, _ => None
      end
  end.

Definition valuesOf (line : string) : option (list Z) := parseAll (tokenize line).

(** A grid whose columns all have the same height. *)
Definition rectangular (maze : Grid) : Prop :=
  exists height, Forall (fun column => List.length column = height) maze.

(** A grid that has a tile, no empty column, four walls in every tile, and
    whose width and heights are values of an [int]. *)
Definition wellFormed (maze : Grid) : Prop :=
  maze <> []
  /\ Forall (fun column => column <> []) maze
  /\ Forall (Forall complete) maze
  /\ Z.of_nat (List.length maze) <= INT_MAX
  /\ Forall (fun column => Z.of_nat (List.length column) <= INT_MAX) maze.

(** ** Lines and tokens of a record *)

Lemma spaced_chars values :
  allChars (fun c => negb (Ascii.eqb c newline)) (spaced values) = true.
Proof.
  induction values as [|v rest IH]; [reflexivity|].
  cbn [spaced append allChars]. rewrite allChars_append, IH.
  rewrite (inToken_not_newline _ (intToString_chars v)). reflexivity.
Qed.

Lemma numericLine_chars x y tile :
  allChars (fun c => negb (Ascii.eqb c newline)) (numericLine x y tile) = true.
Proof.
  unfold numericLine. rewrite allChars_append, spaced_chars.
  now rewrite (inToken_not_newline _ (intToString_chars x)).
Qed.

Lemma tokenize_spaced values : forall v,
  tokenize (intToString v ++ spaced values)
  = intToString v :: map intToString values.
Proof.
  unfold tokenize.
  induction values as [|v' rest IH]; intros v.
  - cbn [spaced map]. rewrite append_nil_r. apply tokenizeFrom_last.
    + apply inToken_not_whitespace, intToString_chars.
    + apply intToString_nonempty.
  - cbn [spaced map].
    change (" " ++ intToString v' ++ spaced rest)%string
      with (String space (intToString v' ++ spaced rest)).
    rewrite tokenizeFrom_token.
    + now rewrite IH.
    + apply inToken_not_whitespace, intToString_chars.
    + apply intToString_nonempty.
    + reflexivity.
Qed.

Lemma parseAll_intToString values :
  Forall (fun v => INT_MIN <= v <= INT_MAX) values ->
  parseAll (map intToString values) = Some values.
Proof.
  induction 1 as [|v rest Hv _ IH]; [reflexivity|].
  cbn [map parseAll]. now rewrite parseInt_intToString, IH.
Qed.

Lemma bit_range b : INT_MIN <= bit b <= INT_MAX.
Proof. unfold INT_MIN, INT_MAX. destruct b; simpl; lia. Qed.

Lemma wallBit_range tile d : INT_MIN <= wallBit tile d <= INT_MAX.
Proof.
  unfold wallBit. destruct (find d (walls tile)); [apply bit_range|].
  unfold INT_MIN, INT_MAX. lia.
Qed.

Lemma valuesOf_numericLine x y tile :
  INT_MIN <= x <= INT_MAX -> INT_MIN <= y <= INT_MAX ->
  valuesOf (numericLine x y tile)
  = Some [x; y; wallBit tile NORTH; wallBit tile EAST;
          wallBit tile SOUTH; wallBit tile WEST].
Proof.
  intros Hx Hy. unfold valuesOf, numericLine. rewrite tokenize_spaced.
  apply (parseAll_intToString (x :: y :: _)).
  repeat (apply Forall_cons; [first [assumption | apply wallBit_range]|]).
  apply Forall_nil.
Qed.

(** ** One line of the validator and of the loader *)

Lemma parseAll_nil_inv tokens : parseAll tokens = Some [] -> tokens = [].
Proof.
  destruct tokens as [|t rest]; [reflexivity|]. simpl.
  destruct (parseInt t); [|discriminate].
  destruct (parseAll rest); discriminate.
Qed.

Lemma parseAll_cons_inv tokens v vs :
  parseAll tokens = Some (v :: vs) ->
  exists t rest, tokens = t :: rest /\ parseInt t = Some v
                 /\ parseAll rest = Some vs.
Proof.
  destruct tokens as [|t rest]; simpl; [discriminate|].
  destruct (parseInt t) as [v'|] eqn:Ht; [|discriminate].
  destruct (parseAll rest) as [vs'|] eqn:Hrest; [|discriminate].
  intros [= -> ->]. exists t, rest. auto.
Qed.

Lemma parseAll_length tokens : forall values,
  parseAll tokens = Some values -> List.length tokens = List.length values.
Proof.
  induction tokens as [|t rest IH]; intros values; simpl.
  - now intros [= <-].
  - destruct (parseInt t); [|discriminate].
    destruct (parseAll rest) as [vs|]; [|discriminate].
    intros [= <-]. simpl. f_equal. now apply IH.
Qed.

Lemma readValues_parseAll tokens : forall lineNum i values,
  parseAll tokens = Some values -> readValues lineNum i tokens = inr values.
Proof.
  induction tokens as [|t rest IH]; intros lineNum i values; simpl.
  - now intros [= <-].
  - destruct (parseInt t); [|discriminate].
    destruct (parseAll rest) as [vs|] eqn:E; [|discriminate].
    intros [= <-]. now rewrite (IH _ _ vs eq_refl).
Qed.

Lemma readValues_inr tokens : forall lineNum i values,
  readValues lineNum i tokens = inr values -> parseAll tokens = Some values.
Proof.
  induction tokens as [|t rest IH]; intros lineNum i values; simpl.
  - now intros [= <-].
  - destruct (parseInt t); [|discriminate].
    destruct (readValues lineNum (i + 1) rest) as [w|vs] eqn:E; [discriminate|].
    intros [= <-]. now rewrite (IH _ _ _ E).
Qed.

(** The wall values of a line are all 0 or 1. *)
Definition binary (n e s w : Z) : Prop :=
  (n = 0 \/ n = 1) /\ (e = 0 \/ e = 1) /\ (s = 0 \/ s = 1) /\ (w = 0 \/ w = 1).

Lemma checkWallValues_binary lineNum n e s w :
  binary n e s w -> checkWallValues lineNum 0 [n; e; s; w] = None.
Proof.
  intros ([-> | ->] & [-> | ->] & [-> | ->] & [-> | ->]); reflexivity.
Qed.

Lemma checkWallValues_None lineNum n e s w :
  checkWallValues lineNum 0 [n; e; s; w] = None -> binary n e s w.
Proof.
  cbn [checkWallValues].
  destruct (Z.eqb_spec n 0), (Z.eqb_spec n 1); cbn [orb]; try discriminate;
  destruct (Z.eqb_spec e 0), (Z.eqb_spec e 1); cbn [orb]; try discriminate;
  destruct (Z.eqb_spec s 0), (Z.eqb_spec s 1); cbn [orb]; try discriminate;
  destruct (Z.eqb_spec w 0), (Z.eqb_spec w 1); cbn [orb]; try discriminate;
  intros _; unfold binary; auto.
Qed.

(** The next [expectedX] and [expectedY] for a record [(x, y)], when it is
    one of the two expected records. *)
Definition expectedNext (expectedX expectedY x y : Z) : option (Z * Z) :=
  if (x =? expectedX) && (y =? expectedY) then Some (expectedX, expectedY + 1)
  else if (x =? expectedX + 1) && (y =? 0) && negb (expectedY =? 0)
       then Some (expectedX + 1, 1)
       else None.

Lemma checkLine_values lineNum expectedX expectedY line x y n e s w :
  valuesOf line = Some [x; y; n; e; s; w] ->
  checkLine lineNum expectedX expectedY line
  = match expectedNext expectedX expectedY x y with
    | None => inl (UnexpectedXY x y lineNum)
    | Some state =>
        match checkWallValues lineNum 0 [n; e; s; w] with
        | Some warning => inl warning
        | None => inr state
        end
    end.
Proof.
  intros Hv. unfold valuesOf in Hv. unfold checkLine.
  rewrite (parseAll_length _ _ Hv). cbn [List.length Nat.eqb negb].
  rewrite (readValues_parseAll _ lineNum 0 _ Hv). cbn [nth skipn].
  unfold expectedNext.
  destruct ((x =? expectedX) && (y =? expectedY)); [reflexivity|].
  destruct ((x =? expectedX + 1) && (y =? 0) && negb (expectedY =? 0));
    reflexivity.
Qed.

Lemma expectedNext_Some expectedX expectedY x y state :
  expectedNext expectedX expectedY x y = Some state ->
  state = (x, y + 1)
  /\ ((x = expectedX /\ y = expectedY)
      \/ (x = expectedX + 1 /\ y = 0 /\ expectedY <> 0)).
Proof.
  unfold expectedNext.
  destruct (Z.eqb_spec x expectedX), (Z.eqb_spec y expectedY); cbn [andb].
  - intros [= <-]. subst. split; [reflexivity | now left].
  - destruct (Z.eqb_spec x (expectedX + 1)); [lia|]. discriminate.
  - destruct (Z.eqb_spec x (expectedX + 1)), (Z.eqb_spec y 0),
      (Z.eqb_spec expectedY 0); cbn [andb negb]; try discriminate.
    intros [= <-]. subst. split; [reflexivity | right; auto].
  - destruct (Z.eqb_spec x (expectedX + 1)), (Z.eqb_spec y 0),
      (Z.eqb_spec expectedY 0); cbn [andb negb]; try discriminate.
    intros [= <-]. subst. split; [reflexivity | right; auto].
Qed.

Lemma checkLine_inr lineNum expectedX expectedY line state :
  checkLine lineNum expectedX expectedY line = inr state ->
  exists x y n e s w,
    valuesOf line = Some [x; y; n; e; s; w]
    /\ expectedNext expectedX expectedY x y = Some state
    /\ binary n e s w.
Proof.
  intros H. assert (Hv : exists values, valuesOf line = Some values
                                        /\ List.length values = 6%nat).
  { unfold checkLine in H.
    destruct (Nat.eqb 6 (List.length (tokenize line))) eqn:E;
      cbn [negb] in H; [|discriminate].
    apply Nat.eqb_eq in E.
    destruct (readValues lineNum 0 (tokenize line)) as [w|values] eqn:Hr;
      [discriminate|].
    apply readValues_inr in Hr. exists values. split; [exact Hr|].
    rewrite <- (parseAll_length _ _ Hr). now symmetry. }
  destruct Hv as (values & Hv & Hlen).
  destruct values as [|x [|y [|n [|e [|s [|w [|? ?]]]]]]]; try discriminate.
  rewrite (checkLine_values lineNum expectedX expectedY line x y n e s w Hv) in H.
  exists x, y, n, e, s, w. split; [exact Hv|].
  destruct (expectedNext expectedX expectedY x y) as [st|]; [|discriminate].
  destruct (checkWallValues lineNum 0 [n; e; s; w]) eqn:Hw; [discriminate|].
  injection H as <-. split; [reflexivity|]. now apply checkWallValues_None in Hw.
Qed.

Lemma loadLine_values maze column line x y n e s w :
  valuesOf line = Some [x; y; n; e; s; w] ->
  loadLine (maze, column) line
  = Returns (if Z.of_nat (List.length maze) <? toSizeT x
             then (maze ++ [column], [tileOf (1 =? n) (1 =? e) (1 =? s) (1 =? w)])
             else (maze, column ++ [tileOf (1 =? n) (1 =? e) (1 =? s) (1 =? w)])).
Proof.
  intros Hv. unfold valuesOf in Hv. unfold loadLine.
  destruct (parseAll_cons_inv _ _ _ Hv) as (t0 & r0 & -> & H0 & Hv0).
  destruct (parseAll_cons_inv _ _ _ Hv0) as (t1 & r1 & -> & H1 & Hv1).
  destruct (parseAll_cons_inv _ _ _ Hv1) as (t2 & r2 & -> & H2 & Hv2).
  destruct (parseAll_cons_inv _ _ _ Hv2) as (t3 & r3 & -> & H3 & Hv3).
  destruct (parseAll_cons_inv _ _ _ Hv3) as (t4 & r4 & -> & H4 & Hv4).
  destruct (parseAll_cons_inv _ _ _ Hv4) as (t5 & r5 & -> & H5 & Hv5).
  apply parseAll_nil_inv in Hv5. subst r5.
  cbn [readWalls DIRECTIONS getDirectionIndex Nat.add at_ nth_error bind].
  unfold strToInt. rewrite H2, H3, H4, H5, H0. cbn [bind].
  destruct (Z.of_nat (List.length maze) <? toSizeT x); reflexivity.
Qed.

(** ** The loops over the lines *)

Lemma bind_returns {A B : Type} (o : Outcome A) (k : A -> Outcome B) (a : A) :
  o = Returns a -> bind o k = k a.
Proof. now intros ->. Qed.

(** The loop of the validator, with the state it ends in. *)
Fixpoint scanLines (lineNum expectedX expectedY : Z) (lines : list string)
  : Warning + (Z * Z * Z) :=
  match lines with
  | [] => inr (lineNum, expectedX, expectedY)
  | line :: rest =>
      match checkLine (lineNum + 1) expectedX expectedY line with
      | inl w => inl w
      | inr (expectedX', expectedY') =>
          scanLines (lineNum + 1) expectedX' expectedY' rest
      end
  end.

Lemma checkLines_scan lines : forall lineNum expectedX expectedY,
  checkLines lineNum expectedX expectedY lines
  = match scanLines lineNum expectedX expectedY lines with
    | inl w => Rejected w
    | inr _ => Accepted
    end.
Proof.
  induction lines as [|line rest IH]; intros lineNum ex ey; simpl; [reflexivity|].
  destruct (checkLine (lineNum + 1) ex ey line) as [w|[ex' ey']]; [reflexivity|].
  apply IH.
Qed.

Lemma scanLines_app lines1 lines2 : forall lineNum expectedX expectedY,
  scanLines lineNum expectedX expectedY (lines1 ++ lines2)
  = match scanLines lineNum expectedX expectedY lines1 with
    | inl w => inl w
    | inr (lineNum', expectedX', expectedY') =>
        scanLines lineNum' expectedX' expectedY' lines2
    end.
Proof.
  induction lines1 as [|line rest IH]; intros lineNum ex ey; simpl; [reflexivity|].
  destruct (checkLine (lineNum + 1) ex ey line) as [w|[ex' ey']]; [reflexivity|].
  apply IH.
Qed.

Lemma loadLines_app lines1 lines2 : forall state,
  loadLines state (lines1 ++ lines2)
  = bind (loadLines state lines1) (fun state' => loadLines state' lines2).
Proof.
  induction lines1 as [|line rest IH]; intros state; simpl; [reflexivity|].
  destruct (loadLine state line) as [state'| |]; simpl; [apply IH | reflexivity..].
Qed.

(** ** The lines of a written maze pass the validator *)

(** Two states of the validator that differ by arithmetic only. *)
Ltac same_state :=
  match goal with
  | |- inr (?a, ?b, ?c) = inr (?a', ?b', ?c') =>
      replace a' with a by lia; replace b' with b by lia;
      replace c' with c by lia; reflexivity
  end.

Lemma complete_bits tile :
  complete tile ->
  binary (wallBit tile NORTH) (wallBit tile EAST)
         (wallBit tile SOUTH) (wallBit tile WEST).
Proof.
  intros (n & e & s & w & ->). unfold binary, wallBit. simpl.
  destruct n, e, s, w; simpl; auto.
Qed.

Lemma complete_reads tile :
  complete tile ->
  tileOf (1 =? wallBit tile NORTH) (1 =? wallBit tile EAST)
         (1 =? wallBit tile SOUTH) (1 =? wallBit tile WEST) = tile.
Proof.
  intros (n & e & s & w & ->). unfold wallBit. simpl.
  now destruct n, e, s, w.
Qed.

Lemma scan_column column : forall x y lineNum,
  0 <= x <= INT_MAX -> 0 <= y ->
  y + Z.of_nat (List.length column) <= INT_MAX + 1 ->
  Forall complete column ->
  scanLines lineNum x y (columnLines x y column)
  = inr (lineNum + Z.of_nat (List.length column), x,
         y + Z.of_nat (List.length column)).
Proof.
  induction column as [|tile rest IH]; intros x y lineNum Hx Hy Hlen Hc.
  - simpl. same_state.
  - inversion Hc as [|? ? Htile Hrest]; subst.
    cbn [columnLines scanLines List.length] in *.
    rewrite (checkLine_values _ _ _ _ x y _ _ _ _
               (valuesOf_numericLine x y tile
                  ltac:(unfold INT_MIN in *; lia) ltac:(unfold INT_MIN; lia))).
    unfold expectedNext. rewrite !Z.eqb_refl. cbn [andb].
    rewrite (checkWallValues_binary _ _ _ _ _ (complete_bits tile Htile)).
    rewrite IH by (try assumption; lia).
    same_state.
Qed.

Lemma scan_new_column tile rest x lineNum expectedY :
  1 <= x <= INT_MAX -> expectedY <> 0 ->
  Z.of_nat (List.length (tile :: rest)) <= INT_MAX + 1 ->
  Forall complete (tile :: rest) ->
  scanLines lineNum (x - 1) expectedY (columnLines x 0 (tile :: rest))
  = inr (lineNum + Z.of_nat (List.length (tile :: rest)), x,
         Z.of_nat (List.length (tile :: rest))).
Proof.
  intros Hx Hey Hlen Hc. inversion Hc as [|? ? Htile Hrest]; subst.
  cbn [columnLines scanLines List.length] in *.
  rewrite (checkLine_values _ _ _ _ x 0 _ _ _ _
             (valuesOf_numericLine x 0 tile
                ltac:(unfold INT_MIN in *; lia)
                ltac:(unfold INT_MIN, INT_MAX; lia))).
  unfold expectedNext.
  destruct (Z.eqb_spec x (x - 1)); [lia|]. cbn [andb].
  destruct (Z.eqb_spec x (x - 1 + 1)); [|lia].
  destruct (Z.eqb_spec expectedY 0); [contradiction|]. cbn [andb negb Z.eqb].
  rewrite (checkWallValues_binary _ _ _ _ _ (complete_bits tile Htile)).
  replace (x - 1 + 1) with x by lia.
  change (0 + 1) with 1.
  rewrite (scan_column rest x 1 (lineNum + 1)) by (try assumption; lia).
  same_state.
Qed.

Lemma scan_maze maze : forall x lineNum expectedY,
  1 <= x -> expectedY <> 0 ->
  x + Z.of_nat (List.length maze) <= INT_MAX + 1 ->
  Forall (fun column => column <> []) maze ->
  Forall (fun column => Z.of_nat (List.length column) <= INT_MAX) maze ->
  Forall (Forall complete) maze ->
  exists state,
    scanLines lineNum (x - 1) expectedY (mazeLines x maze) = inr state.
Proof.
  induction maze as [|column rest IH];
    intros x lineNum ey Hx Hey Hlen Hne Hh Hc.
  - simpl. eexists. reflexivity.
  - inversion Hne as [|? ? Hcol Hne']; subst.
    inversion Hh as [|? ? Hhcol Hh']; subst.
    inversion Hc as [|? ? Hccol Hc']; subst.
    destruct column as [|tile tiles]; [contradiction|].
    cbn [mazeLines]. rewrite scanLines_app.
    cbn [List.length] in Hlen.
    rewrite scan_new_column by (try assumption; lia).
    destruct (IH (x + 1) (lineNum + Z.of_nat (List.length (tile :: tiles)))
                (Z.of_nat (List.length (tile :: tiles)))) as [state Hstate];
      try assumption; try (cbn [List.length]; lia).
    replace (x + 1 - 1) with x in Hstate by lia.
    now exists state.
Qed.

(** ** The loader reads the lines of a written maze back *)

Lemma toSizeT_small x : 0 <= x <= INT_MAX -> toSizeT x = x.
Proof.
  intros Hx. unfold toSizeT. apply Z.mod_small.
  unfold INT_MAX in Hx. lia.
Qed.

Lemma load_column column : forall (maze : Grid) current x y,
  Z.of_nat (List.length maze) = x -> x <= INT_MAX -> 0 <= y ->
  y + Z.of_nat (List.length column) <= INT_MAX + 1 ->
  Forall complete column ->
  loadLines (maze, current) (columnLines x y column)
  = Returns (maze, current ++ column).
Proof.
  induction column as [|tile rest IH]; intros maze current x y Hm Hx Hy Hlen Hc.
  - simpl. now rewrite app_nil_r.
  - inversion Hc as [|? ? Htile Hrest]; subst.
    cbn [columnLines loadLines List.length] in *.
    rewrite (loadLine_values maze current _ _ y _ _ _ _
               (valuesOf_numericLine (Z.of_nat (List.length maze)) y tile
                  ltac:(unfold INT_MIN in *; lia) ltac:(unfold INT_MIN; lia))).
    rewrite toSizeT_small by lia. rewrite Z.ltb_irrefl.
    rewrite (complete_reads tile Htile). cbn [bind].
    rewrite IH by (try assumption; try reflexivity; lia).
    now rewrite <- app_assoc.
Qed.

Lemma load_new_column tile rest (maze : Grid) current x :
  Z.of_nat (List.length maze) = x - 1 -> x <= INT_MAX ->
  Z.of_nat (List.length (tile :: rest)) <= INT_MAX + 1 ->
  Forall complete (tile :: rest) ->
  loadLines (maze, current) (columnLines x 0 (tile :: rest))
  = Returns (maze ++ [current], tile :: rest).
Proof.
  intros Hm Hx Hlen Hc. inversion Hc as [|? ? Htile Hrest]; subst.
  cbn [columnLines loadLines List.length] in *.
  rewrite (loadLine_values maze current _ x 0 _ _ _ _
             (valuesOf_numericLine x 0 tile
                ltac:(unfold INT_MIN in *; lia)
                ltac:(unfold INT_MIN, INT_MAX; lia))).
  rewrite toSizeT_small by lia.
  destruct (Z.ltb_spec (Z.of_nat (List.length maze)) x); [|lia].
  rewrite (complete_reads tile Htile). cbn [bind].
  change (0 + 1) with 1.
  apply (load_column rest (maze ++ [current]) [tile] x 1);
    try assumption; try lia.
  rewrite length_app. cbn [List.length]. lia.
Qed.

Lemma load_maze (maze : Grid) : forall (loaded : Grid) current x,
  Z.of_nat (List.length loaded) = x - 1 ->
  x + Z.of_nat (List.length maze) <= INT_MAX + 1 ->
  Forall (fun column => column <> []) maze ->
  Forall (fun column => Z.of_nat (List.length column) <= INT_MAX) maze ->
  Forall (Forall complete) maze ->
  exists loaded' current',
    loadLines (loaded, current) (mazeLines x maze) = Returns (loaded', current')
    /\ loaded' ++ [current'] = (loaded ++ [current]) ++ maze.
Proof.
  induction maze as [|column rest IH];
    intros loaded current x Hm Hlen Hne Hh Hc.
  - simpl. exists loaded, current. split; [reflexivity|]. now rewrite app_nil_r.
  - inversion Hne as [|? ? Hcol Hne']; subst.
    inversion Hh as [|? ? Hhcol Hh']; subst.
    inversion Hc as [|? ? Hccol Hc']; subst.
    destruct column as [|tile tiles]; [contradiction|].
    cbn [mazeLines]. rewrite loadLines_app.
    cbn [List.length] in Hlen.
    rewrite load_new_column by (try assumption; lia). cbn [bind].
    destruct (IH (loaded ++ [current]) (tile :: tiles) (x + 1))
      as (loaded' & current' & Hload & Heq); try assumption.
    + rewrite length_app. cbn [List.length]. lia.
    + cbn [List.length]. lia.
    + exists loaded', current'. split; [exact Hload|].
      rewrite Heq. now rewrite <- app_assoc.
Qed.

(** ** The writer *)

Lemma writeWalls_complete tile :
  complete tile ->
  writeWalls tile DIRECTIONS
  = Returns (spaced [wallBit tile NORTH; wallBit tile EAST;
                     wallBit tile SOUTH; wallBit tile WEST]).
Proof. intros (n & e & s & w & ->). reflexivity. Qed.

Lemma written_line x y tile text more :
  ((intToString x ++ " " ++ intToString y
    ++ spaced [wallBit tile NORTH; wallBit tile EAST;
               wallBit tile SOUTH; wallBit tile WEST]
    ++ endl ++ text) ++ more)%string
  = (numericLine x y tile ++ String newline (text ++ more))%string.
Proof.
  unfold numericLine, endl. cbn [spaced].
  repeat (rewrite !append_assoc; cbn [append]).
  reflexivity.
Qed.

Lemma writeColumn_lines column : forall x y,
  Forall complete column ->
  exists text,
    writeColumn x y column = Returns text
    /\ forall more,
         getlines (text ++ more) = columnLines x y column ++ getlines more.
Proof.
  induction column as [|tile rest IH]; intros x y Hc.
  - exists EmptyString. split; reflexivity.
  - inversion Hc as [|? ? Htile Hrest]; subst.
    destruct (IH x (y + 1) Hrest) as (text & Htext & Hlines).
    cbn [writeColumn]. rewrite (writeWalls_complete tile Htile), Htext.
    cbn [bind]. eexists. split; [reflexivity|].
    intros more. rewrite written_line.
    rewrite getlines_line by apply numericLine_chars.
    cbn [columnLines app]. now rewrite Hlines.
Qed.

Lemma writeColumns_lines (maze : Grid) : forall x,
  Forall (Forall complete) maze ->
  exists text,
    writeColumns x maze = Returns text
    /\ forall more,
         getlines (text ++ more) = mazeLines x maze ++ getlines more.
Proof.
  induction maze as [|column rest IH]; intros x Hc.
  - exists EmptyString. split; reflexivity.
  - inversion Hc as [|? ? Hcol Hrest]; subst.
    destruct (writeColumn_lines column x 0 Hcol) as (text & Htext & Hlines).
    destruct (IH (x + 1) Hrest) as (text' & Htext' & Hlines').
    cbn [writeColumns]. rewrite Htext, Htext'. cbn [bind].
    eexists. split; [reflexivity|].
    intros more. rewrite append_assoc, Hlines, Hlines'.
    cbn [mazeLines]. now rewrite app_assoc.
Qed.

Lemma mazeLines_nonempty (maze : Grid) x :
  maze <> [] -> Forall (fun column => column <> []) maze ->
  mazeLines x maze <> [].
Proof.
  destruct maze as [|[|tile tiles] rest]; intros Hm Hne.
  - contradiction.
  - inversion Hne; contradiction.
  - discriminate.
Qed.

Lemma getlines_nonempty content :
  getlines content <> [] -> content <> EmptyString.
Proof. intros H ->. now apply H. Qed.

(** The lines of a well-formed maze are accepted. *)
Lemma checkLines_mazeLines (maze : Grid) :
  wellFormed maze -> checkLines 0 0 0 (mazeLines 0 maze) = Accepted.
Proof.
  intros (Hm & Hne & Hc & Hw & Hh).
  destruct maze as [|column rest]; [contradiction|].
  inversion Hne as [|? ? Hcol Hne']; subst.
  inversion Hh as [|? ? Hhcol Hh']; subst.
  inversion Hc as [|? ? Hccol Hc']; subst.
  rewrite checkLines_scan. cbn [mazeLines]. rewrite scanLines_app.
  assert (H0 : 0 <= INT_MAX) by (unfold INT_MAX; lia).
  rewrite scan_column by (try assumption; lia).
  destruct column as [|tile tiles]; [contradiction|].
  cbn [List.length] in Hw.
  destruct (scan_maze rest (0 + 1)
              (0 + Z.of_nat (List.length (tile :: tiles)))
              (0 + Z.of_nat (List.length (tile :: tiles))))
    as [state Hstate]; try assumption; try (cbn [List.length]; lia).
  change (0 + 1 - 1) with 0 in Hstate. now rewrite Hstate.
Qed.

(** The loader rebuilds a well-formed maze from its lines. *)
Lemma loadLines_mazeLines (maze : Grid) :
  wellFormed maze ->
  exists loaded current,
    loadLines ([], []) (mazeLines 0 maze) = Returns (loaded, current)
    /\ loaded ++ [current] = maze.
Proof.
  intros (Hm & Hne & Hc & Hw & Hh).
  destruct maze as [|column rest]; [contradiction|].
  inversion Hne as [|? ? Hcol Hne']; subst.
  inversion Hh as [|? ? Hhcol Hh']; subst.
  inversion Hc as [|? ? Hccol Hc']; subst.
  cbn [mazeLines]. rewrite loadLines_app.
  erewrite bind_returns;
    [|apply (load_column column [] [] 0 0); try assumption; try reflexivity;
      try (unfold INT_MAX; lia); lia].
  cbn [app]. cbn [List.length] in Hw.
  destruct (load_maze rest [] column (0 + 1))
    as (loaded & current & Hload & Heq); try assumption; try reflexivity;
    try lia.
  exists loaded, current. split; [exact Hload | exact Heq].
Qed.

(** C4.  Saving a rectangular, well-formed maze in the numeric form (to a
    path that can be opened) and loading the file again yields the maze
    itself; the file holds one line [x y n e s w] for every tile, column
    after column and row after row in each column, the four wall values
    in the order north, east, south, west. *)
Theorem save_load_roundtrip (maze : Grid) (mazeFilePath : string)
    (fs : FileSystem) :
  rectangular maze -> wellFormed maze -> fs mazeFilePath <> Unopenable ->
  exists fs',
    saveMazeFileNumType maze mazeFilePath fs = Returns fs'
    /\ linesOf fs' mazeFilePath = mazeLines 0 maze
    /\ loadMazeFileNumType fs' mazeFilePath = Returns maze.
Proof.
  intros _ Hwf Hopen.
  destruct Hwf as (Hm & Hne & Hc & Hw & Hh).
  destruct (writeColumns_lines maze 0 Hc) as (text & Htext & Hlines).
  specialize (Hlines EmptyString). rewrite append_nil_r in Hlines.
  cbn [getlines] in Hlines. rewrite app_nil_r in Hlines.
  exists (writeFile fs mazeFilePath text).
  assert (Hsave : saveMazeFileNumType maze mazeFilePath fs
                  = Returns (writeFile fs mazeFilePath text)).
  { unfold saveMazeFileNumType. rewrite Htext.
    destruct (fs mazeFilePath); try reflexivity. contradiction. }
  assert (Hfile : writeFile fs mazeFilePath text mazeFilePath = Contents text).
  { unfold writeFile. now rewrite String.eqb_refl. }
  assert (Hl : linesOf (writeFile fs mazeFilePath text) mazeFilePath
               = mazeLines 0 maze).
  { unfold linesOf. now rewrite Hfile. }
  split; [exact Hsave|]. split; [exact Hl|].
  unfold loadMazeFileNumType, isMazeFileNumType, validateNumType.
  rewrite Hl, Hfile.
  assert (Htext' : text <> EmptyString).
  { apply getlines_nonempty. rewrite Hlines. now apply mazeLines_nonempty. }
  destruct text as [|c text']; [contradiction|].
  rewrite Hlines.
  rewrite checkLines_mazeLines by (repeat split; assumption).
  cbn [accepted ASSERT_TR bind].
  destruct (loadLines_mazeLines maze) as (loaded & current & Hload & Heq);
    [repeat split; assumption|].
  rewrite Hload. cbn [bind]. now rewrite Heq.
Qed.

(** The 2 by 2 maze of scenario S1 and its file. *)
Definition mazeS1 : Grid :=
  [[tileOf true false false true; tileOf true true false false];
   [tileOf false false true true; tileOf false true true false]].

Definition fileS1 : string :=
  ("0 0 1 0 0 1" ++ endl ++ "0 1 1 1 0 0" ++ endl
   ++ "1 0 0 0 1 1" ++ endl ++ "1 1 0 1 1 0" ++ endl)%string.

Definition noFiles : FileSystem := fun _ => NotAFile.

Definition onlyS1 : FileSystem := writeFile noFiles "S1" fileS1.

Lemma mazeS1_wellFormed : wellFormed mazeS1.
Proof.
  unfold wellFormed, mazeS1. split; [discriminate|].
  split; [repeat constructor; discriminate|].
  split; [repeat constructor; repeat eexists|].
  split; [vm_compute; discriminate|].
  repeat constructor; vm_compute; discriminate.
Qed.

Lemma save_load_roundtrip_witness :
  exists fs',
    saveMazeFileNumType mazeS1 "S1" noFiles = Returns fs'
    /\ linesOf fs' "S1" = mazeLines 0 mazeS1
    /\ loadMazeFileNumType fs' "S1" = Returns mazeS1.
Proof.
  apply (save_load_roundtrip mazeS1 "S1" noFiles).
  - exists 2%nat. repeat constructor.
  - exact mazeS1_wellFormed.
  - discriminate.
Defined.

(** ** What the loader makes of an accepted file *)

Lemma parseAll_range tokens : forall values,
  parseAll tokens = Some values ->
  Forall (fun v => INT_MIN <= v <= INT_MAX) values.
Proof.
  induction tokens as [|t rest IH]; intros values; simpl.
  - intros [= <-]. constructor.
  - destruct (parseInt t) as [v|] eqn:Ht; [|discriminate].
    destruct (parseAll rest) as [vs|]; [|discriminate].
    intros [= <-]. constructor; [now apply parseInt_range with t | now apply IH].
Qed.

Lemma tileAt_grown (maze : Grid) column tile x y t :
  tileAt (maze ++ [column]) x y = Some t ->
  tileAt (maze ++ [column ++ [tile]]) x y = Some t.
Proof.
  unfold tileAt.
  destruct (Nat.lt_ge_cases x (List.length maze)) as [Hlt|Hge].
  - rewrite !nth_error_app1 by assumption. trivial.
  - rewrite !nth_error_app2 by assumption.
    destruct (x - List.length maze)%nat as [|k]; simpl.
    + intros H. rewrite nth_error_app1; [assumption|].
      apply nth_error_Some. congruence.
    + now destruct k.
Qed.

Lemma tileAt_widened (maze : Grid) column x y t :
  tileAt maze x y = Some t -> tileAt (maze ++ [column]) x y = Some t.
Proof.
  unfold tileAt. destruct (nth_error maze x) as [c|] eqn:E; [|discriminate].
  rewrite nth_error_app1 by (apply nth_error_Some; congruence).
  now rewrite E.
Qed.

Lemma tileAt_last (maze : Grid) column tile :
  tileAt (maze ++ [column ++ [tile]]) (List.length maze) (List.length column)
  = Some tile.
Proof.
  unfold tileAt. rewrite nth_error_app2 by lia. rewrite Nat.sub_diag. simpl.
  rewrite nth_error_app2 by lia. now rewrite Nat.sub_diag.
Qed.

Lemma tileAt_first (maze : Grid) tile :
  tileAt (maze ++ [[tile]]) (List.length maze) 0 = Some tile.
Proof.
  unfold tileAt. rewrite nth_error_app2 by lia. now rewrite Nat.sub_diag.
Qed.

(** The loader follows the validator: it reads every line of an accepted
    sequence, keeps the tiles it has placed, and places the tile of every
    record at the coordinates the record gives. *)
Lemma loadLines_accepted lines :
  forall lineNum expectedX expectedY (maze : Grid) column state,
  scanLines lineNum expectedX expectedY lines = inr state ->
  Z.of_nat (List.length maze) = expectedX ->
  Z.of_nat (List.length column) = expectedY ->
  exists (maze' : Grid) column',
    loadLines (maze, column) lines = Returns (maze', column')
    /\ (forall x y t, tileAt (maze ++ [column]) x y = Some t ->
                      tileAt (maze' ++ [column']) x y = Some t)
    /\ (forall line x y n e s w,
          In line lines -> valuesOf line = Some [x; y; n; e; s; w] ->
          tileAt (maze' ++ [column']) (Z.to_nat x) (Z.to_nat y)
          = Some (tileOf (1 =? n) (1 =? e) (1 =? s) (1 =? w))).
Proof.
  induction lines as [|line rest IH];
    intros lineNum ex ey maze column state Hscan Hm Hc.
  - exists maze, column. split; [reflexivity|]. split; [trivial|].
    intros ? ? ? ? ? ? ? [].
  - cbn [scanLines] in Hscan.
    destruct (checkLine (lineNum + 1) ex ey line) as [w|[ex' ey']] eqn:Hline;
      [discriminate|].
    destruct (checkLine_inr _ _ _ _ _ Hline)
      as (x & y & n & e & s & w & Hv & Hnext & _).
    apply expectedNext_Some in Hnext. destruct Hnext as [Hst Hcase].
    injection Hst as -> ->.
    pose proof (parseAll_range _ _ Hv) as Hrange.
    inversion Hrange as [|? ? Hxr _]; subst.
    set (tile := tileOf (1 =? n) (1 =? e) (1 =? s) (1 =? w)).
    cbn [loadLines]. erewrite bind_returns; [|eapply loadLine_values; exact Hv].
    fold tile.
    assert (Hx0 : 0 <= x) by (destruct Hcase as [[-> _]|[-> _]]; lia).
    rewrite toSizeT_small by lia.
    destruct Hcase as [[-> ->]|(-> & -> & Hey)].
    + rewrite Z.ltb_irrefl.
      destruct (IH _ _ _ maze (column ++ [tile]) state Hscan)
        as (maze' & column' & Hload & Hkeep & Hplace).
      * reflexivity.
      * rewrite length_app. cbn [List.length]. lia.
      * exists maze', column'. split; [exact Hload|]. split.
        -- intros x y t Ht. apply Hkeep. now apply tileAt_grown.
        -- intros l x y n' e' s' w' [<-|Hin] Hv'.
           ++ rewrite Hv in Hv'. injection Hv' as <- <- <- <- <- <-.
              apply Hkeep. rewrite !Nat2Z.id. apply tileAt_last.
           ++ now apply Hplace with l.
    + destruct (Z.ltb_spec (Z.of_nat (List.length maze))
                  (Z.of_nat (List.length maze) + 1)); [|lia].
      destruct (IH _ _ _ (maze ++ [column]) [tile] state Hscan)
        as (maze' & column' & Hload & Hkeep & Hplace).
      * rewrite length_app. cbn [List.length]. lia.
      * reflexivity.
      * exists maze', column'. split; [exact Hload|]. split.
        -- intros x y t Ht. apply Hkeep. now apply tileAt_widened.
        -- intros l x y n' e' s' w' [<-|Hin] Hv'.
           ++ rewrite Hv in Hv'. injection Hv' as <- <- <- <- <- <-.
              apply Hkeep.
              replace (Z.to_nat (Z.of_nat (List.length maze) + 1))
                with (List.length (maze ++ [column]))
                by (rewrite length_app; cbn [List.length]; lia).
              apply tileAt_first.
           ++ now apply Hplace with l.
Qed.

Lemma accepted_scan fs mazeFilePath :
  isMazeFileNumType fs mazeFilePath = true ->
  exists state, scanLines 0 0 0 (linesOf fs mazeFilePath) = inr state.
Proof.
  unfold isMazeFileNumType, validateNumType, linesOf.
  destruct (fs mazeFilePath) as [| |content]; try discriminate.
  destruct content as [|c content]; [discriminate|].
  rewrite checkLines_scan.
  destruct (scanLines 0 0 0 (getlines (String c content))) as [w|state];
    [discriminate|].
  intros _. now exists state.
Qed.

(** Every accepted file is loaded. *)
Lemma loadMaze_returns fs mazeFilePath :
  isMazeFileNumType fs mazeFilePath = true ->
  exists maze, loadMaze fs mazeFilePath = Returns maze.
Proof.
  intros Hacc. destruct (accepted_scan fs mazeFilePath Hacc) as [state Hscan].
  destruct (loadLines_accepted _ _ _ _ [] [] state Hscan eq_refl eq_refl)
    as (maze' & column' & Hload & _).
  unfold loadMaze, isMazeFileBinType, isMazeFileMapType, loadMazeFileNumType.
  rewrite Hacc. cbn [ASSERT_TR bind].
  erewrite bind_returns; [|exact Hload].
  now exists (maze' ++ [column']).
Qed.

(** Shared walls agree: wall symmetry of a grid. *)
Definition wallsAgree (maze : Grid) : Prop :=
  forall x y d x' y',
    neighbour x y d = Some (x', y') ->
    tileAt maze x y <> None -> tileAt maze x' y' <> None ->
    wall maze x y d = wall maze x' y' (opposite d).

(** C3, as amended.  In every maze returned by [loadMaze], the tile at
    [(x, y)] carries exactly the four wall values of the record of the
    file for [(x, y)] (a value of 1 is a wall): the loader copies the two
    sides of a shared wall as the file gives them and does not
    symmetrize. *)
Theorem loadMaze_keeps_file_walls (fs : FileSystem) (mazeFilePath : string)
    (maze : Grid) :
  loadMaze fs mazeFilePath = Returns maze ->
  forall line x y n e s w,
    In line (linesOf fs mazeFilePath) ->
    valuesOf line = Some [x; y; n; e; s; w] ->
    tileAt maze (Z.to_nat x) (Z.to_nat y)
    = Some (tileOf (1 =? n) (1 =? e) (1 =? s) (1 =? w)).
Proof.
  intros Hload line x y n e s w Hin Hv.
  unfold loadMaze, isMazeFileBinType, isMazeFileMapType in Hload.
  destruct (isMazeFileNumType fs mazeFilePath) eqn:Hacc; [|discriminate].
  destruct (accepted_scan fs mazeFilePath Hacc) as [state Hscan].
  destruct (loadLines_accepted _ _ _ _ [] [] state Hscan eq_refl eq_refl)
    as (maze' & column' & Hlines & _ & Hplace).
  unfold loadMazeFileNumType in Hload. rewrite Hacc in Hload.
  cbn [ASSERT_TR bind] in Hload.
  erewrite bind_returns in Hload; [|exact Hlines].
  injection Hload as <-.
  now apply Hplace with line.
Qed.

Lemma loadMaze_S1 : loadMaze onlyS1 "S1" = Returns mazeS1.
Proof. vm_compute. reflexivity. Qed.

Lemma loadMaze_keeps_file_walls_witness :
  tileAt mazeS1 (Z.to_nat 1) (Z.to_nat 0)
  = Some (tileOf (1 =? 0) (1 =? 0) (1 =? 1) (1 =? 1)).
Proof.
  apply (loadMaze_keeps_file_walls onlyS1 "S1" mazeS1 loadMaze_S1
           "1 0 0 0 1 1" 1 0 0 0 1 1).
  - vm_compute. right. right. left. reflexivity.
  - vm_compute. reflexivity.
Defined.

(** C3 as stated fails: the file of scenario S1 is accepted and loaded, the
    tile at [(0, 0)] has no east wall, and its east neighbour at [(1, 0)]
    has a west wall. *)
Lemma loadMaze_not_symmetric :
  exists maze,
    loadMaze onlyS1 "S1" = Returns maze
    /\ wall maze 0 0 EAST = Some false
    /\ wall maze 1 0 WEST = Some true
    /\ ~ wallsAgree maze.
Proof.
  exists mazeS1. split; [exact loadMaze_S1|].
  split; [reflexivity|]. split; [reflexivity|].
  intros H. specialize (H 0%nat 0%nat EAST 1%nat 0%nat eq_refl).
  simpl in H. assert (Hne : Some false = Some true).
  { apply H; discriminate. }
  discriminate.
Qed.

(** ** The ordering and uniqueness rules *)

(** The coordinates [(x, y)] of a line. *)
Definition coordinatesOf (line : string) : option (Z * Z) :=
  match valuesOf line with
  | Some (x :: y :: _) => Some (x, y)
  | _ => None
  end.

(** The rules for two adjacent records: the records are sorted by x and
    then by y; x increases by at most 1; within a column y increases by at
    most 1; the first record of a column has y = 0. *)
Definition adjacentOK (a b : Z * Z) : Prop :=
  (fst a < fst b \/ (fst a = fst b /\ snd a <= snd b))
  /\ fst b <= fst a + 1
  /\ (fst b = fst a -> snd b <= snd a + 1)
  /\ (fst b <> fst a -> snd b = 0).

(** The rules for a file: the first record is [(0, 0)], adjacent records
    follow the rules above, and every [(x, y)] is unique. *)
Definition wellOrdered (coordinates : list (Z * Z)) : Prop :=
  (forall c, hd_error coordinates = Some c -> c = (0, 0))
  /\ Sorted adjacentOK coordinates
  /\ NoDup coordinates.

(** What the validator accepts after a record: the next row of the same
    column, or the first row of the next column. *)
Definition follows (a b : Z * Z) : Prop :=
  (fst b = fst a /\ snd b = snd a + 1) \/ (fst b = fst a + 1 /\ snd b = 0).

Definition lexLt (a b : Z * Z) : Prop :=
  fst a < fst b \/ (fst a = fst b /\ snd a < snd b).

Lemma Sorted_weaken {A : Type} (R S : A -> A -> Prop) (l : list A) :
  (forall a b, R a b -> S a b) -> Sorted R l -> Sorted S l.
Proof.
  intros HRS. induction 1 as [|a l _ IH Hhd]; constructor; [assumption|].
  destruct Hhd; constructor. now apply HRS.
Qed.

Lemma follows_adjacentOK a b : follows a b -> adjacentOK a b.
Proof. unfold follows, adjacentOK. intros [[H1 H2]|[H1 H2]]; repeat split; lia. Qed.

Lemma follows_lexLt a b : follows a b -> lexLt a b.
Proof. unfold follows, lexLt. intros [[H1 H2]|[H1 H2]]; lia. Qed.

Lemma lexLt_trans a b c : lexLt a b -> lexLt b c -> lexLt a c.
Proof. unfold lexLt. lia. Qed.

Lemma StronglySorted_lexLt_NoDup l : StronglySorted lexLt l -> NoDup l.
Proof.
  induction 1 as [|a l _ IH Hall]; constructor; [|assumption].
  intros Hin. rewrite Forall_forall in Hall. specialize (Hall a Hin).
  unfold lexLt in Hall. lia.
Qed.

Lemma follows_NoDup l : Sorted follows l -> NoDup l.
Proof.
  intros H. apply StronglySorted_lexLt_NoDup.
  apply Sorted_StronglySorted; [exact lexLt_trans|].
  apply Sorted_weaken with follows; [exact follows_lexLt | assumption].
Qed.

(** The records of an accepted sequence of lines follow one another. *)
Lemma scan_follows lines : forall lineNum expectedX expectedY state,
  scanLines lineNum expectedX expectedY lines = inr state ->
  exists coordinates,
    map coordinatesOf lines = map Some coordinates
    /\ Sorted follows coordinates
    /\ (forall c, hd_error coordinates = Some c ->
          c = (expectedX, expectedY)
          \/ (c = (expectedX + 1, 0) /\ expectedY <> 0)).
Proof.
  induction lines as [|line rest IH]; intros lineNum ex ey state Hscan.
  - exists []. split; [reflexivity|]. split; [constructor|]. discriminate.
  - cbn [scanLines] in Hscan.
    destruct (checkLine (lineNum + 1) ex ey line) as [w|[ex' ey']] eqn:Hline;
      [discriminate|].
    destruct (checkLine_inr _ _ _ _ _ Hline)
      as (x & y & n & e & s & w & Hv & Hnext & _).
    apply expectedNext_Some in Hnext. destruct Hnext as [Hst Hcase].
    injection Hst as -> ->.
    destruct (IH _ _ _ _ Hscan) as (coordinates & Hmap & Hsorted & Hhead).
    exists ((x, y) :: coordinates). split; [|split].
    + cbn [map]. unfold coordinatesOf at 1. rewrite Hv. now rewrite Hmap.
    + constructor; [assumption|].
      destruct coordinates as [|c rest']; constructor.
      destruct (Hhead c eq_refl) as [->|[-> _]]; unfold follows; simpl; lia.
    + intros c [= <-].
      destruct Hcase as [[-> ->]|(-> & -> & Hey)]; [now left | now right].
Qed.

Lemma map_Some_inj {A : Type} (l l' : list A) :
  map Some l = map Some l' -> l = l'.
Proof.
  revert l'. induction l as [|a l IH]; intros [|a' l']; simpl;
    try discriminate; [reflexivity|].
  intros [= -> H]. f_equal. now apply IH.
Qed.

Lemma accepted_wellOrdered fs mazeFilePath coordinates :
  isMazeFileNumType fs mazeFilePath = true ->
  map coordinatesOf (linesOf fs mazeFilePath) = map Some coordinates ->
  wellOrdered coordinates.
Proof.
  intros Hacc Hmap. destruct (accepted_scan _ _ Hacc) as [state Hscan].
  destruct (scan_follows _ _ _ _ _ Hscan) as (cs & Hcs & Hsorted & Hhead).
  rewrite Hcs in Hmap. apply map_Some_inj in Hmap. subst cs.
  split; [|split].
  - intros c Hc. destruct (Hhead c Hc) as [->|[_ H]]; [reflexivity | now elim H].
  - apply Sorted_weaken with follows; [exact follows_adjacentOK | assumption].
  - now apply follows_NoDup.
Qed.

(** C7.  [isMazeFileNumType] rejects every file whose records violate the
    ordering or uniqueness rules; and when the first two lines of a file
    are records with X = 0 and Y = 0, the validation fails with the warning
    that names the unexpected x and y values 0 and 0 and the line
    number 2. *)
Theorem isMazeFileNumType_rejects_disorder (fs : FileSystem)
    (mazeFilePath : string) :
  (forall coordinates,
     map coordinatesOf (linesOf fs mazeFilePath) = map Some coordinates ->
     ~ wellOrdered coordinates ->
     isMazeFileNumType fs mazeFilePath = false)
  /\ (forall line1 line2 rest n e s w n' e' s' w',
        linesOf fs mazeFilePath = line1 :: line2 :: rest ->
        valuesOf line1 = Some [0; 0; n; e; s; w] -> binary n e s w ->
        valuesOf line2 = Some [0; 0; n'; e'; s'; w'] ->
        validateNumType fs mazeFilePath = Rejected (UnexpectedXY 0 0 2)
        /\ isMazeFileNumType fs mazeFilePath = false).
Proof.
  split.
  - intros coordinates Hmap Hbad.
    destruct (isMazeFileNumType fs mazeFilePath) eqn:Hacc; [|reflexivity].
    exfalso. apply Hbad. now apply accepted_wellOrdered with fs mazeFilePath.
  - intros line1 line2 rest n e s w n' e' s' w' Hlines Hv1 Hbin Hv2.
    assert (Hrej : validateNumType fs mazeFilePath
                   = Rejected (UnexpectedXY 0 0 2)).
    { unfold validateNumType. unfold linesOf in Hlines.
      destruct (fs mazeFilePath) as [| |content]; try discriminate.
      destruct content as [|c content]; [discriminate|].
      rewrite Hlines. cbn [checkLines].
      rewrite (checkLine_values (0 + 1) 0 0 line1 0 0 n e s w Hv1).
      cbn [expectedNext Z.eqb andb].
      rewrite (checkWallValues_binary _ _ _ _ _ Hbin).
      rewrite (checkLine_values (0 + 1 + 1) 0 (0 + 1) line2 0 0 n' e' s' w' Hv2).
      reflexivity. }
    split; [exact Hrej|].
    unfold isMazeFileNumType. now rewrite Hrej.
Qed.

(** The file of scenario S2: two lines with X = 0 and Y = 0. *)
Definition fileS2 : string :=
  ("0 0 1 0 0 1" ++ endl ++ "0 0 1 1 0 0" ++ endl)%string.

Definition onlyS2 : FileSystem := writeFile noFiles "S2" fileS2.

Lemma isMazeFileNumType_rejects_witness :
  validateNumType onlyS2 "S2" = Rejected (UnexpectedXY 0 0 2)
  /\ isMazeFileNumType onlyS2 "S2" = false.
Proof.
  apply (proj2 (isMazeFileNumType_rejects_disorder onlyS2 "S2")
           "0 0 1 0 0 1"%string "0 0 1 1 0 0"%string [] 1 0 0 1 1 1 0 0).
  - vm_compute. reflexivity.
  - vm_compute. reflexivity.
  - unfold binary. lia.
  - vm_compute. reflexivity.
Defined.

End NumericForm.


(* ================================================================= *)
(** * The map form *)

Module MapForm.

Import Text MazeFileUtilities NumericForm.

(** A 2 by 2 maze drawn in the map form. *)
Definition mapText : string :=
  ("+---+---+" ++ endl ++ "|       |" ++ endl ++ "+   +---+" ++ endl
   ++ "|   |   |" ++ endl ++ "+---+---+" ++ endl)%string.

Definition onlyMap : FileSystem := writeFile noFiles "map" mapText.

(** The grid in reading order, the row drawn first in the file first. *)
Definition mapUpsideDown : Grid :=
  [[tileOf true false false true; tileOf false true true true];
   [tileOf true true true false; tileOf true true true true]].

Lemma flip_tileAt (upsideDownMaze : Grid) x y column :
  nth_error upsideDownMaze x = Some column ->
  (y < List.length column)%nat ->
  tileAt (flip upsideDownMaze) x y
  = nth_error column (List.length column - 1 - y).
Proof.
  intros Hx Hy. unfold tileAt, flip.
  rewrite nth_error_map, Hx. cbn [option_map].
  rewrite nth_error_rev.
  destruct (Nat.ltb_spec y (List.length column)); [|lia].
  f_equal. lia.
Qed.

(** C8, as amended.  No file is recognized as a file in the map form:
    [isMazeFileMapType] answers [false] for every file, so that [loadMaze]
    never reads a file as a map, and a call of [loadMazeFileMapType] fails
    its entry assertion.  The code of [loadMazeFileMapType] below that
    assertion, when it returns, returns the grid flipped vertically: row
    [y] of a column is the row that was read [y] rows before the last one,
    so that the row read last is [y = 0]. *)
Theorem map_form_not_detected_body_flips (fs : FileSystem)
    (mazeFilePath : string) :
  isMazeFileMapType fs mazeFilePath = false
  /\ loadMazeFileMapType fs mazeFilePath = AssertFailed
  /\ loadMaze fs mazeFilePath
     = (if isMazeFileNumType fs mazeFilePath
        then loadMazeFileNumType fs mazeFilePath else AssertFailed)
  /\ forall maze,
       readMazeFileMapType (linesOf fs mazeFilePath) = Returns maze ->
       exists upsideDownMaze,
         readUpsideDown (linesOf fs mazeFilePath) = Returns upsideDownMaze
         /\ List.length maze = List.length upsideDownMaze
         /\ forall x y column,
              nth_error upsideDownMaze x = Some column ->
              (y < List.length column)%nat ->
              tileAt maze x y = nth_error column (List.length column - 1 - y).
Proof.
  split; [reflexivity|]. split; [reflexivity|]. split; [reflexivity|].
  intros maze H. unfold readMazeFileMapType in H.
  destruct (readUpsideDown (linesOf fs mazeFilePath)) as [upsideDownMaze| |];
    try discriminate.
  cbn [bind] in H. injection H as <-.
  exists upsideDownMaze. split; [reflexivity|]. split.
  - unfold flip. now rewrite length_map.
  - intros x y column Hx Hy. now apply flip_tileAt.
Qed.

Lemma readUpsideDown_mapText :
  readUpsideDown (linesOf onlyMap "map") = Returns mapUpsideDown.
Proof. vm_compute. reflexivity. Qed.

Lemma readMazeFileMapType_mapText :
  readMazeFileMapType (linesOf onlyMap "map") = Returns (flip mapUpsideDown).
Proof. vm_compute. reflexivity. Qed.

Lemma map_form_witness :
  exists upsideDownMaze,
    readUpsideDown (linesOf onlyMap "map") = Returns upsideDownMaze
    /\ List.length (flip mapUpsideDown) = List.length upsideDownMaze
    /\ forall x y column,
         nth_error upsideDownMaze x = Some column ->
         (y < List.length column)%nat ->
         tileAt (flip mapUpsideDown) x y
         = nth_error column (List.length column - 1 - y).
Proof.
  exact (proj2 (proj2 (proj2 (map_form_not_detected_body_flips onlyMap "map")))
           (flip mapUpsideDown) readMazeFileMapType_mapText).
Defined.

(** C8 as stated fails: the file [map] is in the map form (the reading code
    makes a 2 by 2 grid of it), yet no detection recognizes it, and
    [loadMaze] does not return a grid for it. *)
Lemma map_form_not_recognized :
  readMazeFileMapType (linesOf onlyMap "map") = Returns (flip mapUpsideDown)
  /\ isMazeFileMapType onlyMap "map" = false
  /\ isMazeFile onlyMap "map" = false
  /\ loadMazeFileMapType onlyMap "map" = AssertFailed
  /\ loadMaze onlyMap "map" = AssertFailed.
Proof.
  split; [exact readMazeFileMapType_mapText|].
  repeat split; vm_compute; reflexivity.
Qed.

End MapForm.


(* ================================================================= *)
(** * More on the numeric form: what the validator and the loader do with
      any file *)

Module NumericFiles.

Import Text MazeFileUtilities TextFacts NumericForm.
Local Open Scope Z_scope.

(** ** The lines of a grid that grows *)

Lemma columnLines_app column1 column2 : forall x y,
  columnLines x y (column1 ++ column2)
  = columnLines x y column1
    ++ columnLines x (y + Z.of_nat (List.length column1)) column2.
Proof.
  induction column1 as [|tile rest IH]; intros x y; cbn [app columnLines List.length].
  - now replace (y + Z.of_nat 0) with y by lia.
  - rewrite IH. cbn [app]. do 3 f_equal. lia.
Qed.

Lemma mazeLines_app (maze1 maze2 : Grid) : forall x,
  mazeLines x (maze1 ++ maze2)
  = mazeLines x maze1 ++ mazeLines (x + Z.of_nat (List.length maze1)) maze2.
Proof.
  induction maze1 as [|column rest IH]; intros x; cbn [app mazeLines List.length].
  - now replace (x + Z.of_nat 0) with x by lia.
  - rewrite IH, <- app_assoc. do 3 f_equal. lia.
Qed.

Lemma binary_reads n e s w :
  binary n e s w ->
  wallBit (tileOf (1 =? n) (1 =? e) (1 =? s) (1 =? w)) NORTH = n
  /\ wallBit (tileOf (1 =? n) (1 =? e) (1 =? s) (1 =? w)) EAST = e
  /\ wallBit (tileOf (1 =? n) (1 =? e) (1 =? s) (1 =? w)) SOUTH = s
  /\ wallBit (tileOf (1 =? n) (1 =? e) (1 =? s) (1 =? w)) WEST = w.
Proof.
  intros ([-> | ->] & [-> | ->] & [-> | ->] & [-> | ->]); repeat split.
Qed.

Lemma tileOf_complete n e s w : complete (tileOf n e s w).
Proof. now exists n, e, s, w. Qed.

(** The loader on an accepted sequence of lines: the columns it closes are
    not empty, every tile has its four walls, there is one tile for each
    line, and the lines of the grid read as the lines of the file do. *)
Lemma loadLines_shape lines :
  forall lineNum expectedX expectedY (maze : Grid) column state,
  scanLines lineNum expectedX expectedY lines = inr state ->
  Z.of_nat (List.length maze) = expectedX ->
  Z.of_nat (List.length column) = expectedY ->
  Forall (fun c => c <> []) maze ->
  Forall (Forall complete) (maze ++ [column]) ->
  exists (maze' : Grid) column',
    loadLines (maze, column) lines = Returns (maze', column')
    /\ Forall (fun c => c <> []) maze'
    /\ (column <> [] \/ lines <> [] -> column' <> [])
    /\ Forall (Forall complete) (maze' ++ [column'])
    /\ List.length (List.concat (maze' ++ [column']))
       = (List.length (List.concat (maze ++ [column])) + List.length lines)%nat
    /\ map valuesOf (mazeLines 0 (maze' ++ [column']))
       = map valuesOf (mazeLines 0 (maze ++ [column])) ++ map valuesOf lines.
Proof.
  induction lines as [|line rest IH];
    intros lineNum ex ey maze column state Hscan Hm Hc Hne Hcomp.
  - exists maze, column. split; [reflexivity|]. split; [assumption|].
    split; [intros [H|H]; [assumption | contradiction]|].
    split; [assumption|]. split; [cbn; lia | now rewrite app_nil_r].
  - cbn [scanLines] in Hscan.
    destruct (checkLine (lineNum + 1) ex ey line) as [w|[ex' ey']] eqn:Hline;
      [discriminate|].
    destruct (checkLine_inr _ _ _ _ _ Hline)
      as (x & y & n & e & s & w & Hv & Hnext & Hbin).
    apply expectedNext_Some in Hnext. destruct Hnext as [Hst Hcase].
    injection Hst as -> ->.
    pose proof (parseAll_range _ _ Hv) as Hrange.
    inversion Hrange as [|? ? Hxr Hrange']; subst.
    inversion Hrange' as [|? ? Hyr _]; subst.
    apply Forall_app in Hcomp. destruct Hcomp as [Hcm Hcc].
    inversion Hcc as [|? ? Hccol _]; subst.
    destruct (binary_reads n e s w Hbin) as (Bn & Be & Bs & Bw).
    set (tile := tileOf (1 =? n) (1 =? e) (1 =? s) (1 =? w)) in *.
    assert (Hline' : valuesOf (numericLine x y tile) = valuesOf line).
    { rewrite valuesOf_numericLine by assumption.
      now rewrite Bn, Be, Bs, Bw, Hv. }
    cbn [loadLines]. erewrite bind_returns; [|eapply loadLine_values; exact Hv].
    fold tile.
    assert (Hx0 : 0 <= x) by (destruct Hcase as [[-> _]|[-> _]]; lia).
    rewrite toSizeT_small by lia.
    destruct Hcase as [[-> ->]|(-> & -> & Hey)].
    + rewrite Z.ltb_irrefl.
      destruct (IH _ _ _ maze (column ++ [tile]) state Hscan)
        as (maze' & column' & Hload & Hne' & Hcol' & Hcomp' & Hlen & Hvals);
        try assumption; try reflexivity.
      * rewrite length_app. cbn [List.length]. lia.
      * apply Forall_app. split; [assumption|]. constructor; [|constructor].
        apply Forall_app. split; [assumption|].
        constructor; [apply tileOf_complete | constructor].
      * exists maze', column'. split; [exact Hload|]. split; [assumption|].
        split; [intros _; apply Hcol'; left; now destruct column|].
        split; [assumption|]. split.
        -- rewrite Hlen, !List.concat_app, !length_app. cbn [List.concat List.length app].
           rewrite !app_nil_r, length_app. cbn [List.length]. lia.
        -- rewrite Hvals. rewrite !mazeLines_app. cbn [mazeLines].
           rewrite !app_nil_r, columnLines_app. cbn [columnLines].
           rewrite !map_app. cbn [map]. rewrite <- !app_assoc. cbn [app].
           do 3 f_equal.
           replace (0 + Z.of_nat (List.length maze)) with
             (Z.of_nat (List.length maze)) by lia.
           replace (0 + Z.of_nat (List.length column)) with
             (Z.of_nat (List.length column)) by lia.
           exact Hline'.
    + destruct (Z.ltb_spec (Z.of_nat (List.length maze))
                  (Z.of_nat (List.length maze) + 1)); [|lia].
      assert (Hcolne : column <> []) by (intros ->; now apply Hey).
      destruct (IH _ _ _ (maze ++ [column]) [tile] state Hscan)
        as (maze' & column' & Hload & Hne' & Hcol' & Hcomp' & Hlen & Hvals);
        try reflexivity.
      * rewrite length_app. cbn [List.length]. lia.
      * apply Forall_app. split; [assumption|]. now constructor.
      * apply Forall_app. split.
        -- apply Forall_app. split; [assumption|]. now constructor.
        -- constructor; [|constructor].
           constructor; [apply tileOf_complete | constructor].
      * exists maze', column'. split; [exact Hload|]. split; [assumption|].
        split; [intros _; apply Hcol'; left; discriminate|].
        split; [assumption|]. split.
        -- rewrite Hlen, !List.concat_app, !length_app. cbn [List.concat List.length app].
           lia.
        -- rewrite Hvals. rewrite (mazeLines_app (maze ++ [column]) [[tile]]).
           cbn [mazeLines columnLines]. rewrite !map_app. cbn [map app].
           rewrite <- !app_assoc. cbn [app]. do 2 f_equal.
           rewrite length_app. cbn [List.length].
           replace (0 + Z.of_nat (List.length maze + 1))
             with (Z.of_nat (List.length maze) + 1) by lia.
           now rewrite Hline'.
Qed.

(** ** Loading any maze file *)

Lemma getlines_cons c content : getlines (String c content) <> [].
Proof.
  cbn [getlines]. destruct (Ascii.eqb c newline); [discriminate|].
  destruct (getlines content); discriminate.
Qed.

Lemma accepted_lines fs mazeFilePath :
  isMazeFileNumType fs mazeFilePath = true -> linesOf fs mazeFilePath <> [].
Proof.
  unfold isMazeFileNumType, validateNumType, linesOf.
  destruct (fs mazeFilePath) as [| |content]; try discriminate.
  destruct content as [|c content]; [discriminate|].
  intros _. apply getlines_cons.
Qed.

(** What a call of [loadMaze] that returns has done. *)
Lemma loadMaze_inv fs mazeFilePath (maze : Grid) :
  loadMaze fs mazeFilePath = Returns maze ->
  isMazeFileNumType fs mazeFilePath = true
  /\ exists state (loaded : Grid) current,
       scanLines 0 0 0 (linesOf fs mazeFilePath) = inr state
       /\ loadLines ([], []) (linesOf fs mazeFilePath) = Returns (loaded, current)
       /\ maze = loaded ++ [current].
Proof.
  intros Hload.
  unfold loadMaze, isMazeFileBinType, isMazeFileMapType in Hload.
  destruct (isMazeFileNumType fs mazeFilePath) eqn:Hacc; [|discriminate].
  split; [reflexivity|].
  destruct (accepted_scan fs mazeFilePath Hacc) as [state Hscan].
  destruct (loadLines_accepted _ _ _ _ [] [] state Hscan eq_refl eq_refl)
    as (loaded & current & Hlines & _).
  unfold loadMazeFileNumType in Hload. rewrite Hacc in Hload.
  cbn [ASSERT_TR bind] in Hload.
  erewrite bind_returns in Hload; [|exact Hlines].
  injection Hload as <-. now exists state, loaded, current.
Qed.

(** X1.  [loadMaze] returns a grid for exactly the files that [isMazeFile]
    accepts: the loader never throws on a file that has passed the
    validation, and every other file ends in the failed assertion. *)
Theorem loadMaze_returns_exactly_maze_files (fs : FileSystem)
    (mazeFilePath : string) :
  (isMazeFile fs mazeFilePath = true ->
   exists maze, loadMaze fs mazeFilePath = Returns maze)
  /\ (isMazeFile fs mazeFilePath = false ->
      loadMaze fs mazeFilePath = AssertFailed).
Proof.
  unfold isMazeFile, isMazeFileBinType, isMazeFileMapType. cbn [orb]. split.
  - apply loadMaze_returns.
  - intros Hrej. unfold loadMaze, isMazeFileBinType, isMazeFileMapType.
    now rewrite Hrej.
Qed.

Lemma loadMaze_returns_witness :
  exists maze, loadMaze onlyS1 "S1" = Returns maze.
Proof.
  apply (proj1 (loadMaze_returns_exactly_maze_files onlyS1 "S1")).
  vm_compute. reflexivity.
Defined.

Lemma loaded_shape_core fs mazeFilePath (maze : Grid) :
  loadMaze fs mazeFilePath = Returns maze ->
  maze <> []
  /\ Forall (fun column => column <> []) maze
  /\ Forall (Forall complete) maze
  /\ List.length (List.concat maze) = List.length (linesOf fs mazeFilePath)
  /\ map valuesOf (mazeLines 0 maze) = map valuesOf (linesOf fs mazeFilePath).
Proof.
  intros Hload. apply loadMaze_inv in Hload.
  destruct Hload as (Hacc & state & loaded & current & Hscan & Hlines & ->).
  destruct (loadLines_shape _ _ _ _ [] [] state Hscan eq_refl eq_refl)
    as (loaded' & current' & Hlines' & Hne & Hcur & Hcomp & Hlen & Hvals).
  { constructor. }
  { repeat constructor. }
  assert (Heq : Returns (loaded, current) = Returns (loaded', current')).
  { rewrite <- Hlines. exact Hlines'. }
  injection Heq as -> ->.
  split; [now destruct loaded'|]. split; [|split; [assumption|split]].
  - apply Forall_app. split; [assumption|]. constructor; [|constructor].
    apply Hcur. right. now apply accepted_lines.
  - rewrite Hlen. reflexivity.
  - exact Hvals.
Qed.

(** X2.  Every grid that [loadMaze] returns has a column, no empty column,
    four walls in every tile, and one tile for each line of the file. *)
Theorem loaded_maze_shape (fs : FileSystem) (mazeFilePath : string)
    (maze : Grid) :
  loadMaze fs mazeFilePath = Returns maze ->
  maze <> []
  /\ Forall (fun column => column <> []) maze
  /\ Forall (Forall complete) maze
  /\ List.length (List.concat maze) = List.length (linesOf fs mazeFilePath).
Proof.
  intros Hload. apply loadMaze_inv in Hload.
  destruct Hload as (Hacc & state & loaded & current & Hscan & Hlines & ->).
  destruct (loadLines_shape _ _ _ _ [] [] state Hscan eq_refl eq_refl)
    as (loaded' & current' & Hlines' & Hne & Hcur & Hcomp & Hlen & _).
  { constructor. }
  { repeat constructor. }
  assert (Heq : Returns (loaded, current) = Returns (loaded', current')).
  { rewrite <- Hlines. exact Hlines'. }
  injection Heq as -> ->.
  split; [now destruct loaded'|]. split; [|split; [assumption|]].
  - apply Forall_app. split; [assumption|]. constructor; [|constructor].
    apply Hcur. right. now apply accepted_lines.
  - rewrite Hlen. reflexivity.
Qed.

Lemma loaded_maze_shape_witness :
  mazeS1 <> []
  /\ Forall (fun column => column <> []) mazeS1
  /\ Forall (Forall complete) mazeS1
  /\ List.length (List.concat mazeS1) = List.length (linesOf onlyS1 "S1").
Proof.
  apply (loaded_maze_shape onlyS1 "S1" mazeS1). vm_compute. reflexivity.
Defined.

(** ** Loading and saving again *)

Lemma length_concat_ge (maze : Grid) :
  Forall (fun column => column <> []) maze ->
  (List.length maze <= List.length (List.concat maze))%nat.
Proof.
  induction 1 as [|column rest Hcol _ IH]; cbn [List.concat List.length]; [lia|].
  rewrite length_app. destruct column; [contradiction|]. cbn [List.length]. lia.
Qed.

Lemma length_column_le (maze : Grid) :
  Forall (fun column =>
            (List.length column <= List.length (List.concat maze))%nat) maze.
Proof.
  induction maze as [|column rest IH]; constructor.
  - cbn [List.concat]. rewrite length_app. lia.
  - eapply Forall_impl; [|exact IH]. cbn [List.concat]. intros c Hc.
    rewrite length_app. lia.
Qed.

(** X3.  Loading a maze file (of at most [INT_MAX] lines) and saving the
    grid writes a file with the same records, line for line (the values
    [x y n e s w] of every line are those of the line of the first file),
    and loading that file returns the same grid. *)
Theorem load_save_keeps_records (fs : FileSystem) (mazeFilePath : string)
    (maze : Grid) (savedPath : string) :
  loadMaze fs mazeFilePath = Returns maze ->
  Z.of_nat (List.length (linesOf fs mazeFilePath)) <= INT_MAX ->
  fs savedPath <> Unopenable ->
  exists fs',
    saveMazeFileNumType maze savedPath fs = Returns fs'
    /\ map valuesOf (linesOf fs' savedPath)
       = map valuesOf (linesOf fs mazeFilePath)
    /\ loadMaze fs' savedPath = Returns maze.
Proof.
  intros Hload Hsize Hopen.
  destruct (loaded_shape_core fs mazeFilePath maze Hload)
    as (Hm & Hne & Hc & Hlen & Hvals).
  assert (Hwf : wellFormed maze).
  { repeat split; try assumption.
    - pose proof (length_concat_ge maze Hne). lia.
    - eapply Forall_impl; [|exact (length_column_le maze)].
      intros c Hcl. cbv beta in Hcl. lia. }
  destruct (writeColumns_lines maze 0 Hc) as (text & Htext & Hlines).
  specialize (Hlines EmptyString). rewrite append_nil_r in Hlines.
  cbn [getlines] in Hlines. rewrite app_nil_r in Hlines.
  exists (writeFile fs savedPath text).
  assert (Hfile : writeFile fs savedPath text savedPath = Contents text).
  { unfold writeFile. now rewrite String.eqb_refl. }
  assert (Hl : linesOf (writeFile fs savedPath text) savedPath = mazeLines 0 maze).
  { unfold linesOf. now rewrite Hfile. }
  split; [|split].
  - unfold saveMazeFileNumType. rewrite Htext.
    destruct (fs savedPath); try reflexivity. contradiction.
  - rewrite Hl. exact Hvals.
  - assert (Hacc : isMazeFileNumType (writeFile fs savedPath text) savedPath = true).
    { unfold isMazeFileNumType, validateNumType. rewrite Hfile.
      assert (Htext' : text <> EmptyString).
      { apply getlines_nonempty. rewrite Hlines.
        apply mazeLines_nonempty; assumption. }
      destruct text as [|c text']; [contradiction|].
      rewrite Hlines. now rewrite checkLines_mazeLines. }
    destruct (loadLines_mazeLines maze Hwf) as (loaded & current & Hll & Heq).
    unfold loadMaze, isMazeFileBinType, isMazeFileMapType, loadMazeFileNumType.
    rewrite Hacc, Hl. cbn [ASSERT_TR bind].
    erewrite bind_returns; [|exact Hll].
    change (Returns (loaded ++ [current]) = Returns maze). now rewrite Heq.
Qed.

Lemma load_save_keeps_records_witness :
  exists fs',
    saveMazeFileNumType mazeS1 "out" onlyS1 = Returns fs'
    /\ map valuesOf (linesOf fs' "out") = map valuesOf (linesOf onlyS1 "S1")
    /\ loadMaze fs' "out" = Returns mazeS1.
Proof.
  apply (load_save_keeps_records onlyS1 "S1" mazeS1 "out").
  - vm_compute. reflexivity.
  - vm_compute. discriminate.
  - vm_compute. discriminate.
Defined.

(** ** The validator accepts every file that keeps the rules *)

Lemma adjacentOK_follows a b : adjacentOK a b -> a <> b -> follows a b.
Proof.
  destruct a as [xa ya], b as [xb yb]. unfold adjacentOK, follows.
  cbn [fst snd]. intros (Hs & Hx & Hy & H0) Hne.
  destruct (Z.eq_dec xb xa) as [->|Hx'].
  - left. split; [reflexivity|]. specialize (Hy eq_refl).
    assert (ya <> yb) by (intros ->; now apply Hne). lia.
  - right. split; [lia | now apply H0].
Qed.

Lemma wellOrdered_follows coordinates :
  Sorted adjacentOK coordinates -> NoDup coordinates ->
  Sorted follows coordinates.
Proof.
  induction 1 as [|a l _ IH Hhd]; intros Hnd; constructor.
  - apply IH. now inversion Hnd.
  - destruct Hhd as [|b l Hab]; constructor.
    apply adjacentOK_follows; [assumption|].
    intros ->. inversion Hnd as [|? ? Hin _]. apply Hin. now left.
Qed.

(** A line of six integers whose last four are 0 or 1. *)
Definition recordLine (line : string) : Prop :=
  exists x y n e s w, valuesOf line = Some [x; y; n; e; s; w] /\ binary n e s w.

Lemma scan_accepts lines :
  forall coordinates lineNum expectedX expectedY,
  Forall recordLine lines ->
  map coordinatesOf lines = map Some coordinates ->
  Sorted follows coordinates ->
  (forall c, hd_error coordinates = Some c ->
     c = (expectedX, expectedY)
     \/ (c = (expectedX + 1, 0) /\ expectedY <> 0)) ->
  0 <= expectedY ->
  exists state, scanLines lineNum expectedX expectedY lines = inr state.
Proof.
  induction lines as [|line rest IH];
    intros coordinates lineNum expectedX expectedY Hrec Hmap Hsorted Hhead Hy.
  - now exists (lineNum, expectedX, expectedY).
  - inversion Hrec as [|? ? (x & y & n & e & s & w & Hv & Hbin) Hrec']; subst.
    destruct coordinates as [|c cs]; [discriminate|].
    cbn [map] in Hmap. injection Hmap as Hc Hmap.
    unfold coordinatesOf in Hc. rewrite Hv in Hc. injection Hc as <-.
    cbn [scanLines]. rewrite (checkLine_values _ _ _ _ _ _ _ _ _ _ Hv).
    rewrite (checkWallValues_binary _ _ _ _ _ Hbin).
    assert (Hnext : expectedNext expectedX expectedY x y = Some (x, y + 1)
                    /\ 0 <= y).
    { unfold expectedNext.
      destruct (Hhead (x, y) eq_refl) as [Heq|[Heq Hne]];
        injection Heq as -> ->.
      - now rewrite !Z.eqb_refl.
      - replace (expectedX + 1 =? expectedX) with false
          by (symmetry; apply Z.eqb_neq; lia).
        rewrite !Z.eqb_refl. apply Z.eqb_neq in Hne. rewrite Hne.
        cbn [andb negb]. split; [reflexivity | lia]. }
    destruct Hnext as [-> Hy'].
    apply (IH cs); try assumption.
    + now inversion Hsorted.
    + intros c Hc. destruct cs as [|c' cs']; [discriminate|].
      injection Hc as ->. inversion Hsorted as [|? ? _ Hhd]; subst.
      inversion Hhd as [|? ? Hf]; subst. destruct c as [x' y'].
      unfold follows in Hf. cbn [fst snd] in Hf.
      destruct Hf as [[-> ->]|[-> ->]]; [now left | right].
      split; [reflexivity | lia].
    + lia.
Qed.

(** X4.  The validator accepts every non-empty file that keeps the rules
    of the format: each line holds six integers, the last four 0 or 1, the
    first record is (0, 0), adjacent records are sorted with steps of at
    most 1 and a Y of 0 at the start of each column, and no (X, Y) occurs
    twice. *)
Theorem isMazeFileNumType_accepts_ordered (fs : FileSystem)
    (mazeFilePath : string) (c : ascii) (content : string)
    (coordinates : list (Z * Z)) :
  fs mazeFilePath = Contents (String c content) ->
  Forall recordLine (linesOf fs mazeFilePath) ->
  map coordinatesOf (linesOf fs mazeFilePath) = map Some coordinates ->
  wellOrdered coordinates ->
  isMazeFileNumType fs mazeFilePath = true.
Proof.
  intros Hfile Hrec Hmap (Hfirst & Hsorted & Hnd).
  unfold linesOf in Hrec, Hmap. rewrite Hfile in Hrec, Hmap.
  unfold isMazeFileNumType, validateNumType. rewrite Hfile.
  rewrite checkLines_scan.
  destruct (scan_accepts _ coordinates 0 0 0 Hrec Hmap) as [state ->].
  - now apply wellOrdered_follows.
  - intros c' Hc'. left. now apply Hfirst.
  - lia.
  - reflexivity.
Qed.

Lemma isMazeFileNumType_accepts_witness : isMazeFileNumType onlyS1 "S1" = true.
Proof.
  eapply (isMazeFileNumType_accepts_ordered onlyS1 "S1" _ _
            [(0, 0); (0, 1); (1, 0); (1, 1)]).
  - vm_compute. reflexivity.
  - replace (linesOf onlyS1 "S1")
      with ["0 0 1 0 0 1"; "0 1 1 1 0 0"; "1 0 0 0 1 1"; "1 1 0 1 1 0"]%string
      by (vm_compute; reflexivity).
    unfold recordLine, binary.
    repeat apply Forall_cons; [| | | |apply Forall_nil].
    + exists 0, 0, 1, 0, 0, 1. split; [vm_compute; reflexivity | lia].
    + exists 0, 1, 1, 1, 0, 0. split; [vm_compute; reflexivity | lia].
    + exists 1, 0, 0, 0, 1, 1. split; [vm_compute; reflexivity | lia].
    + exists 1, 1, 0, 1, 1, 0. split; [vm_compute; reflexivity | lia].
  - vm_compute. reflexivity.
  - split; [|split].
    + intros c [= <-]. reflexivity.
    + repeat constructor; cbn; lia.
    + repeat constructor; cbn; intuition discriminate.
Defined.

(** ** What a warning says *)

(** The line number that a warning names, for the warnings about a line. *)
Definition lineNumberOf (warning : Warning) : option Z :=
  match warning with
  | IsNotAFile | CouldNotOpen | IsEmpty => None
  | NotSixEntries lineNum _ => Some lineNum
  | NonNumericEntry _ lineNum _ => Some lineNum
  | UnexpectedXY _ _ lineNum => Some lineNum
  | InvalidWallValue _ _ lineNum => Some lineNum
  end.

Lemma readValues_warning tokens : forall lineNum i warning,
  readValues lineNum i tokens = inl warning ->
  lineNumberOf warning = Some lineNum.
Proof.
  induction tokens as [|token rest IH]; intros lineNum i warning H;
    cbn [readValues] in H; [discriminate|].
  destruct (parseInt token).
  - destruct (readValues lineNum (i + 1) rest) eqn:Hrest; [|discriminate].
    injection H as <-. now apply IH with (i + 1).
  - now injection H as <-.
Qed.

Lemma checkWallValues_warning wallValues : forall lineNum i warning,
  checkWallValues lineNum i wallValues = Some warning ->
  lineNumberOf warning = Some lineNum.
Proof.
  induction wallValues as [|value rest IH]; intros lineNum i warning H;
    cbn [checkWallValues] in H; [discriminate|].
  destruct ((value =? 0) || (value =? 1))%bool.
  - now apply IH with (i + 1).
  - now injection H as <-.
Qed.

Lemma checkLine_warning lineNum expectedX expectedY line warning :
  checkLine lineNum expectedX expectedY line = inl warning ->
  lineNumberOf warning = Some lineNum.
Proof.
  unfold checkLine. cbv zeta.
  destruct (negb (6 =? List.length (tokenize line))%nat).
  { now intros [= <-]. }
  destruct (readValues lineNum 0 (tokenize line)) as [w|values] eqn:Hread.
  { intros [= <-]. now apply readValues_warning with (tokenize line) 0. }
  destruct (_ && _)%bool.
  - destruct (checkWallValues lineNum 0 (skipn 2 values)) eqn:Hwalls;
      [|discriminate].
    intros [= <-]. now apply checkWallValues_warning with (skipn 2 values) 0.
  - destruct (_ && _)%bool.
    + destruct (checkWallValues lineNum 0 (skipn 2 values)) eqn:Hwalls;
        [|discriminate].
      intros [= <-]. now apply checkWallValues_warning with (skipn 2 values) 0.
    + now intros [= <-].
Qed.

Lemma scan_state lines : forall lineNum expectedX expectedY state,
  scanLines lineNum expectedX expectedY lines = inr state ->
  fst (fst state) = lineNum + Z.of_nat (List.length lines).
Proof.
  induction lines as [|line rest IH]; intros lineNum expectedX expectedY state H;
    cbn [scanLines] in H.
  - injection H as <-. cbn. lia.
  - destruct (checkLine (lineNum + 1) expectedX expectedY line)
      as [w|[expectedX' expectedY']]; [discriminate|].
    apply IH in H. rewrite H. cbn [List.length]. lia.
Qed.

Lemma scan_rejects lines : forall lineNum expectedX expectedY warning,
  scanLines lineNum expectedX expectedY lines = inl warning ->
  exists before line after state,
    lines = before ++ line :: after
    /\ scanLines lineNum expectedX expectedY before = inr state
    /\ lineNumberOf warning
       = Some (lineNum + Z.of_nat (List.length before) + 1)
    /\ forall others,
         scanLines lineNum expectedX expectedY (before ++ line :: others)
         = inl warning.
Proof.
  induction lines as [|line rest IH];
    intros lineNum expectedX expectedY warning H; cbn [scanLines] in H;
    [discriminate|].
  destruct (checkLine (lineNum + 1) expectedX expectedY line)
    as [w|[expectedX' expectedY']] eqn:Hline.
  - injection H as <-.
    exists [], line, rest, (lineNum, expectedX, expectedY).
    repeat split.
    + rewrite (checkLine_warning _ _ _ _ _ Hline). cbn [List.length].
      f_equal. lia.
    + intros others. cbn [app scanLines]. now rewrite Hline.
  - destruct (IH _ _ _ _ H) as (before & culprit & after & state
                                & -> & Hbefore & Hnum & Hany).
    exists (line :: before), culprit, after, state. repeat split.
    + cbn [scanLines]. now rewrite Hline.
    + rewrite Hnum. cbn [List.length]. f_equal. lia.
    + intros others. cbn [app scanLines]. rewrite Hline. apply Hany.
Qed.

(** X5.  A warning of the validator that names a line number names the
    first line that breaks the format: the number is that of a line of the
    file (counted from 1), the lines before it pass the validation on their
    own, and the file is rejected with the same warning whatever follows
    that line.  The three other warnings are about the file as a whole and
    are given before any line is read. *)
Theorem warning_names_first_bad_line (fs : FileSystem)
    (mazeFilePath : string) (warning : Warning) :
  validateNumType fs mazeFilePath = Rejected warning ->
  match lineNumberOf warning with
  | Some lineNum =>
      exists before line after,
        linesOf fs mazeFilePath = before ++ line :: after
        /\ lineNum = Z.of_nat (List.length before) + 1
        /\ checkLines 0 0 0 before = Accepted
        /\ forall others,
             checkLines 0 0 0 (before ++ line :: others) = Rejected warning
  | None =>
      match fs mazeFilePath with
      | NotAFile => warning = IsNotAFile
      | Unopenable => warning = CouldNotOpen
      | Contents content => warning = IsEmpty /\ content = EmptyString
      end
  end.
Proof.
  unfold validateNumType, linesOf.
  destruct (fs mazeFilePath) as [| |content].
  - now intros [= <-].
  - now intros [= <-].
  - destruct content as [|c content]; [now intros [= <-]|].
    rewrite checkLines_scan.
    destruct (scanLines 0 0 0 (getlines (String c content))) as [w|state] eqn:Hscan;
      [|discriminate].
    intros [= ->].
    destruct (scan_rejects _ _ _ _ _ Hscan)
      as (before & line & after & state & Hlines & Hbefore & Hnum & Hany).
    rewrite Hnum. exists before, line, after.
    split; [|split; [|split]].
    + exact Hlines.
    + lia.
    + rewrite checkLines_scan. now rewrite Hbefore.
    + intros others. rewrite checkLines_scan. now rewrite Hany.
Qed.

Lemma warning_names_first_bad_line_witness :
  exists before line after,
    linesOf onlyS2 "S2" = before ++ line :: after
    /\ 2 = Z.of_nat (List.length before) + 1
    /\ checkLines 0 0 0 before = Accepted
    /\ forall others,
         checkLines 0 0 0 (before ++ line :: others)
         = Rejected (UnexpectedXY 0 0 2).
Proof.
  apply (warning_names_first_bad_line onlyS2 "S2" (UnexpectedXY 0 0 2)).
  vm_compute. reflexivity.
Defined.

(** ** Saving *)

Lemma columnLines_length column : forall x y,
  List.length (columnLines x y column) = List.length column.
Proof.
  induction column as [|tile rest IH]; intros x y; cbn [columnLines List.length];
    [reflexivity|]. now rewrite IH.
Qed.

Lemma mazeLines_length (maze : Grid) : forall x,
  List.length (mazeLines x maze) = List.length (List.concat maze).
Proof.
  induction maze as [|column rest IH]; intros x;
    cbn [mazeLines List.concat]; [reflexivity|].
  now rewrite !length_app, columnLines_length, IH.
Qed.

Lemma writeWalls_returns_complete tile text :
  writeWalls tile DIRECTIONS = Returns text -> complete tile.
Proof.
  destruct tile as [[n e s w]]. unfold DIRECTIONS, complete, tileOf.
  cbn. destruct n as [n|], e as [e|], s as [s|], w as [w|]; cbn;
    try discriminate.
  intros _. now exists n, e, s, w.
Qed.

Lemma writeWalls_never_asserts tile directions :
  writeWalls tile directions <> AssertFailed.
Proof.
  induction directions as [|d rest IH]; cbn [writeWalls]; [discriminate|].
  unfold wallAt. destruct (find d (walls tile)); cbn [bind]; [|discriminate].
  destruct (writeWalls tile rest); cbn [bind]; congruence.
Qed.

Lemma writeColumn_returns column : forall x y text,
  writeColumn x y column = Returns text -> Forall complete column.
Proof.
  induction column as [|tile rest IH]; intros x y text H; [constructor|].
  cbn [writeColumn] in H.
  destruct (writeWalls tile DIRECTIONS) as [ws| |] eqn:Hws; try discriminate.
  cbn [bind] in H.
  destruct (writeColumn x (y + 1) rest) as [more| |] eqn:Hmore;
    try discriminate.
  constructor; [now apply writeWalls_returns_complete with ws|].
  now apply IH with x (y + 1) more.
Qed.

Lemma writeColumn_never_asserts column : forall x y,
  writeColumn x y column <> AssertFailed.
Proof.
  induction column as [|tile rest IH]; intros x y; cbn [writeColumn];
    [discriminate|].
  pose proof (writeWalls_never_asserts tile DIRECTIONS) as Hws.
  destruct (writeWalls tile DIRECTIONS); cbn [bind]; try congruence.
  specialize (IH x (y + 1)).
  destruct (writeColumn x (y + 1) rest); cbn [bind]; congruence.
Qed.

Lemma writeColumns_returns (maze : Grid) : forall x text,
  writeColumns x maze = Returns text -> Forall (Forall complete) maze.
Proof.
  induction maze as [|column rest IH]; intros x text H; [constructor|].
  cbn [writeColumns] in H.
  destruct (writeColumn x 0 column) as [t| |] eqn:Hcol; try discriminate.
  cbn [bind] in H.
  destruct (writeColumns (x + 1) rest) as [more| |] eqn:Hmore;
    try discriminate.
  constructor; [now apply writeColumn_returns with x 0 t|].
  now apply IH with (x + 1) more.
Qed.

Lemma writeColumns_never_asserts (maze : Grid) : forall x,
  writeColumns x maze <> AssertFailed.
Proof.
  induction maze as [|column rest IH]; intros x; cbn [writeColumns];
    [discriminate|].
  pose proof (writeColumn_never_asserts column x 0) as Hcol.
  destruct (writeColumn x 0 column); cbn [bind]; try congruence.
  specialize (IH (x + 1)).
  destruct (writeColumns (x + 1) rest); cbn [bind]; congruence.
Qed.

(** X6.  Saving to a path that can be opened returns exactly when every
    tile of the grid has its four walls, and then writes one line for each
    tile and changes no other file; when some tile lacks a wall, the
    lookup [walls.at(direction)] throws.  Saving to a path that cannot be
    opened returns with the file system unchanged. *)
Theorem saveMazeFileNumType_returns_iff_complete (maze : Grid)
    (mazeFilePath : string) (fs : FileSystem) :
  (fs mazeFilePath = Unopenable ->
   saveMazeFileNumType maze mazeFilePath fs = Returns fs)
  /\ (fs mazeFilePath <> Unopenable ->
      (Forall (Forall complete) maze ->
       exists fs',
         saveMazeFileNumType maze mazeFilePath fs = Returns fs'
         /\ linesOf fs' mazeFilePath = mazeLines 0 maze
         /\ List.length (linesOf fs' mazeFilePath)
            = List.length (List.concat maze)
         /\ forall other, other <> mazeFilePath -> fs' other = fs other)
      /\ (~ Forall (Forall complete) maze ->
          saveMazeFileNumType maze mazeFilePath fs = Throws)).
Proof.
  split.
  { intros Hfile. unfold saveMazeFileNumType. now rewrite Hfile. }
  intros Hopen.
  assert (Hsave : saveMazeFileNumType maze mazeFilePath fs
                  = bind (writeColumns 0 maze)
                      (fun text => Returns (writeFile fs mazeFilePath text))).
  { unfold saveMazeFileNumType. destruct (fs mazeFilePath);
      try reflexivity. contradiction. }
  rewrite Hsave. split.
  - intros Hc. destruct (writeColumns_lines maze 0 Hc) as (text & -> & Hlines).
    specialize (Hlines EmptyString). rewrite append_nil_r in Hlines.
    cbn [getlines] in Hlines. rewrite app_nil_r in Hlines.
    cbn [bind]. exists (writeFile fs mazeFilePath text).
    assert (Hl : linesOf (writeFile fs mazeFilePath text) mazeFilePath
                 = mazeLines 0 maze).
    { unfold linesOf, writeFile. now rewrite String.eqb_refl. }
    split; [reflexivity|]. split; [|split].
    + exact Hl.
    + rewrite Hl. apply mazeLines_length.
    + intros other Hother. unfold writeFile.
      apply String.eqb_neq in Hother. now rewrite Hother.
  - intros Hc. pose proof (writeColumns_never_asserts maze 0) as Hassert.
    destruct (writeColumns 0 maze) as [text| |] eqn:Hw; cbn [bind].
    + elim Hc. now apply writeColumns_returns with 0 text.
    + congruence.
    + reflexivity.
Qed.

Lemma saveMazeFileNumType_returns_witness :
  exists fs',
    saveMazeFileNumType mazeS1 "out" onlyS1 = Returns fs'
    /\ linesOf fs' "out" = mazeLines 0 mazeS1
    /\ List.length (linesOf fs' "out") = List.length (List.concat mazeS1)
    /\ forall other, other <> "out"%string -> fs' other = onlyS1 other.
Proof.
  apply (saveMazeFileNumType_returns_iff_complete mazeS1 "out" onlyS1).
  - vm_compute. discriminate.
  - repeat constructor; repeat eexists.
Defined.

End NumericFiles.


(* ================================================================= *)
(** * Wheel speeds: what [setWheelSpeeds] and the movements set *)

Module WheelSpeeds.

Import Geometry StringMap Mouse Kinematics Polygons Synthesizer.
Local Open Scope R_scope.

(** ** The wheels after [setWheelSpeeds] *)

(** The wheels once every speed of [wheelSpeeds] is set: a wheel that is
    named there turns at the speed given for it, the others are as they
    were. *)
Definition withSpeeds (wheelSpeeds : StringMap.t R) (wheels : StringMap.t Wheel)
  : StringMap.t Wheel :=
  map (fun wheel : string * Wheel =>
         (fst wheel,
          match lookup wheelSpeeds (fst wheel) with
          | Some speed => setAngularVelocity speed (snd wheel)
          | None => snd wheel
          end))
      wheels.

(** The speeds that [setWheelSpeeds] lets pass: each is for a wheel of the
    mouse and within the limit of that wheel, both taken in revolutions
    per minute, as the code compares them. *)
Definition allowed (wheelSpeeds : StringMap.t R) (wheels : StringMap.t Wheel)
  : Prop :=
  forall name speed, In (name, speed) wheelSpeeds ->
    exists w, lookup wheels name = Some w
              /\ Rabs (getRevolutionsPerMinute speed)
                 <= getRevolutionsPerMinute (getMaxAngularVelocityMagnitude w).

(** The limits of the wheels, by name. *)
Definition limits (wheels : StringMap.t Wheel) : StringMap.t R :=
  map (fun wheel : string * Wheel =>
         (fst wheel, getMaxAngularVelocityMagnitude (snd wheel)))
      wheels.

Lemma lookup_not_In {A : Type} (m : StringMap.t A) name :
  ~ In name (keys m) -> lookup m name = None.
Proof.
  induction m as [|[k a] rest IH]; intros Hnot; [reflexivity|].
  cbn [lookup]. destruct (String.eqb k name) eqn:Hk.
  - apply String.eqb_eq in Hk. elim Hnot. now left.
  - apply IH. intros Hin. apply Hnot. now right.
Qed.

Lemma modify_absent {A : Type} (m : StringMap.t A) name (f : A -> A) :
  ~ In name (keys m) -> modify m name f = m.
Proof.
  induction m as [|[k a] rest IH]; intros Hnot; [reflexivity|].
  cbn [modify]. destruct (String.eqb k name) eqn:Hk.
  - apply String.eqb_eq in Hk. elim Hnot. now left.
  - f_equal. apply IH. intros Hin. apply Hnot. now right.
Qed.

Lemma limits_modify wheels name speed :
  limits (modify wheels name (setAngularVelocity speed)) = limits wheels.
Proof.
  induction wheels as [|[k w] rest IH]; [reflexivity|].
  cbn [modify]. destruct (String.eqb k name); cbn [limits map fst snd].
  - reflexivity.
  - f_equal. exact IH.
Qed.

Lemma lookup_limits wheels name :
  lookup (limits wheels) name
  = option_map getMaxAngularVelocityMagnitude (lookup wheels name).
Proof.
  induction wheels as [|[k w] rest IH]; [reflexivity|].
  cbn [limits map fst snd lookup]. destruct (String.eqb k name); [reflexivity|].
  exact IH.
Qed.

Lemma allowed_limits wheelSpeeds wheels1 wheels2 :
  limits wheels1 = limits wheels2 ->
  allowed wheelSpeeds wheels1 -> allowed wheelSpeeds wheels2.
Proof.
  intros Hlim Hall name speed Hin.
  destruct (Hall name speed Hin) as (w & Hw & Hle).
  pose proof (lookup_limits wheels1 name) as H1.
  pose proof (lookup_limits wheels2 name) as H2.
  rewrite Hlim, H2, Hw in H1. cbn [option_map] in H1.
  destruct (lookup wheels2 name) as [w2|]; [|discriminate].
  injection H1 as H1. exists w2. split; [reflexivity|]. now rewrite H1.
Qed.

Lemma withSpeeds_nil wheels : withSpeeds [] wheels = wheels.
Proof.
  induction wheels as [|[k w] rest IH]; [reflexivity|].
  cbn [withSpeeds map fst snd lookup]. f_equal. exact IH.
Qed.

Lemma withWheels_same m : withWheels m (m_wheels m) = m.
Proof. now destruct m. Qed.

Lemma withWheels_twice m wheels1 wheels2 :
  withWheels (withWheels m wheels1) wheels2 = withWheels m wheels2.
Proof. reflexivity. Qed.

(** Setting one speed and then the others is setting them all. *)
Lemma withSpeeds_cons name speed rest wheels :
  wellKeyed wheels -> ~ In name (keys rest) ->
  withSpeeds rest (modify wheels name (setAngularVelocity speed))
  = withSpeeds ((name, speed) :: rest) wheels.
Proof.
  intros Hnd Hnot. induction wheels as [|[k w] more IH]; [reflexivity|].
  inversion Hnd as [|? ? Hk Hnd']; subst.
  cbn [modify]. destruct (String.eqb k name) eqn:Hkn.
  - apply String.eqb_eq in Hkn. subst k.
    cbn [withSpeeds map fst snd lookup]. rewrite String.eqb_refl.
    rewrite (lookup_not_In rest name Hnot). f_equal.
    apply map_ext_in. intros [k' w'] Hin. cbn [fst snd].
    destruct (String.eqb name k') eqn:Hk'; [|reflexivity].
    apply String.eqb_eq in Hk'. subst k'. elim Hk.
    now apply In_keys with w'.
  - cbn [withSpeeds map fst snd lookup]. rewrite String.eqb_sym, Hkn.
    f_equal. apply IH. exact Hnd'.
Qed.

(** The whole of [setWheelSpeeds]: it returns for the allowed speeds and
    sets them all; for other speeds an assertion fails; it never throws. *)
Lemma setEachWheelSpeed_spec wheelSpeeds : forall m,
  wellKeyed wheelSpeeds -> wellKeyed (m_wheels m) ->
  match setEachWheelSpeed wheelSpeeds m with
  | Returns m' =>
      allowed wheelSpeeds (m_wheels m)
      /\ m' = withWheels m (withSpeeds wheelSpeeds (m_wheels m))
  | AssertFailed => ~ allowed wheelSpeeds (m_wheels m)
  | Throws => False
  end.
Proof.
  induction wheelSpeeds as [|[name speed] rest IH]; intros m Hws Hnd.
  - cbn [setEachWheelSpeed]. split; [intros ? ? []|].
    now rewrite withSpeeds_nil, withWheels_same.
  - inversion Hws as [|? ? Hname Hws']; subst.
    cbn [setEachWheelSpeed fst snd].
    unfold getWheelMaxSpeed, mapContains, mapAt.
    destruct (lookup (m_wheels m) name) as [w|] eqn:Hw; cbn [ASSERT_TR bind].
    2:{ intros Hall. destruct (Hall name speed (or_introl eq_refl))
          as (w & Hw' & _). congruence. }
    destruct (Rleb (Rabs (getRevolutionsPerMinute speed))
                (getRevolutionsPerMinute (getMaxAngularVelocityMagnitude w)))
      eqn:Hle; cbn [ASSERT_TR bind].
    2:{ intros Hall. destruct (Hall name speed (or_introl eq_refl))
          as (w' & Hw' & Hle'). rewrite Hw in Hw'. injection Hw' as <-.
        apply Rleb_true in Hle'. congruence. }
    apply Rleb_le in Hle.
    set (m1 := withWheels m
                 (modify (m_wheels m) name (setAngularVelocity speed))).
    assert (Hnd1 : wellKeyed (m_wheels m1)).
    { unfold wellKeyed, m1. cbn [m_wheels withWheels]. now rewrite keys_modify. }
    assert (Hlim : limits (m_wheels m1) = limits (m_wheels m)).
    { unfold m1. cbn [m_wheels withWheels]. apply limits_modify. }
    specialize (IH m1 Hws' Hnd1).
    destruct (setEachWheelSpeed rest m1) as [m'| |].
    + destruct IH as [Hall ->]. split.
      * intros k s [Heq|Hin].
        -- injection Heq as <- <-. now exists w.
        -- apply (allowed_limits rest _ _ Hlim Hall k s Hin).
      * unfold m1. rewrite withWheels_twice. f_equal.
        cbn [m_wheels withWheels]. now apply withSpeeds_cons.
    + intros Hall. apply IH. apply allowed_limits with (m_wheels m).
      * now symmetry.
      * intros k s Hin. apply Hall. now right.
    + exact IH.
Qed.

(** X7.  [setWheelSpeeds] returns exactly for speeds that are each for a
    wheel of the mouse and, in revolutions per minute, within the limit of
    that wheel; it then sets every named wheel to its speed and changes
    nothing else of the mouse.  For any other speeds an assertion fails:
    the lookups [m_wheels.at] behind the assertions never throw. *)
Theorem setWheelSpeeds_sets_exactly (wheelSpeeds : StringMap.t R) (m : Mouse) :
  wellKeyed wheelSpeeds -> wellKeyed (m_wheels m) ->
  (allowed wheelSpeeds (m_wheels m) ->
   setWheelSpeeds wheelSpeeds m
   = Returns (withWheels m (withSpeeds wheelSpeeds (m_wheels m))))
  /\ (~ allowed wheelSpeeds (m_wheels m) ->
      setWheelSpeeds wheelSpeeds m = AssertFailed).
Proof.
  intros Hws Hnd. unfold setWheelSpeeds.
  pose proof (setEachWheelSpeed_spec wheelSpeeds m Hws Hnd) as H.
  destruct (setEachWheelSpeed wheelSpeeds m) as [m'| |].
  - destruct H as [Hall ->]. split; [reflexivity | contradiction].
  - split; [contradiction | reflexivity].
  - contradiction.
Qed.

Lemma setWheelSpeeds_sets_exactly_witness :
  setWheelSpeeds [("wheel"%string, 0)] oneWheelMouse
  = Returns (withWheels oneWheelMouse
               (withSpeeds [("wheel"%string, 0)] (m_wheels oneWheelMouse))).
Proof.
  apply (proj1 (setWheelSpeeds_sets_exactly [("wheel"%string, 0)] oneWheelMouse
                  ltac:(repeat constructor; intros [])
                  ltac:(repeat constructor; intros []))).
  intros name speed [[= <- <-]|[]]. exists wheelBelow. split; [reflexivity|].
  apply rpm_le. cbn. rewrite Rabs_R0. left. exact PI_RGT_0.
Defined.

(** ** What no call changes *)

Definition withinLimits (m : Mouse) : Prop :=
  forall name w, In (name, w) (m_wheels m) -> withinLimit w.

Lemma setEachWheelSpeed_limits wheelSpeeds : forall m m',
  setEachWheelSpeed wheelSpeeds m = Returns m' ->
  limits (m_wheels m') = limits (m_wheels m)
  /\ m_sensors m' = m_sensors m
  /\ m_wheelSpeedAdjustmentFactors m' = m_wheelSpeedAdjustmentFactors m
  /\ m_curveTurnFactors m' = m_curveTurnFactors m
  /\ m_currentTranslation m' = m_currentTranslation m
  /\ m_currentRotation m' = m_currentRotation m
  /\ m_currentGyro m' = m_currentGyro m
  /\ m_elapsedSimTime m' = m_elapsedSimTime m.
Proof.
  induction wheelSpeeds as [|[name speed] rest IH]; intros m m' H;
    cbn [setEachWheelSpeed fst snd] in H.
  - injection H as <-. repeat split.
  - destruct (ASSERT_TR (mapContains (m_wheels m) name)); try discriminate.
    cbn [bind] in H.
    destruct (getWheelMaxSpeed m name) as [maxSpeed| |]; try discriminate.
    cbn [bind] in H.
    destruct (ASSERT_TR _); try discriminate. cbn [bind] in H.
    destruct (mapAt (m_wheels m) name) as [w1| |]; try discriminate.
    cbn [bind] in H. apply IH in H. cbn [m_wheels withWheels] in H.
    rewrite limits_modify in H. exact H.
Qed.

Lemma keys_limits wheels : keys (limits wheels) = keys wheels.
Proof. unfold keys, limits. rewrite map_map. reflexivity. Qed.

Lemma update_limits readMaze elapsed m :
  limits (m_wheels (update readMaze elapsed m)) = limits (m_wheels m)
  /\ keys (m_sensors (update readMaze elapsed m)) = keys (m_sensors m)
  /\ (withinLimits m -> withinLimits (update readMaze elapsed m)).
Proof.
  unfold update.
  destruct (fold_left (accumulate m) (m_wheels m) (0, 0, 0)) as [[sumDx sumDy] sumDr].
  cbn [m_wheels m_sensors]. split; [|split].
  - unfold limits. rewrite map_map. reflexivity.
  - unfold keys. rewrite map_map. reflexivity.
  - intros Hlim name w Hin. cbn [m_wheels] in Hin.
    apply in_map_iff in Hin. destruct Hin as ([k w0] & Heq & Hin).
    cbn [fst snd] in Heq. injection Heq as <- <-.
    exact (Hlim k w0 Hin).
Qed.

Lemma wheel_limit_lookup m name :
  hasWheel m name
  = match lookup (limits (m_wheels m)) name with
    | Some _ => true
    | None => false
    end
  /\ getWheelMaxSpeed m name
     = match lookup (limits (m_wheels m)) name with
       | Some limit => Returns limit
       | None => AssertFailed
       end.
Proof.
  unfold hasWheel, getWheelMaxSpeed, mapContains, mapAt.
  rewrite lookup_limits.
  destruct (lookup (m_wheels m) name); split; reflexivity.
Qed.

(** X8.  Whatever sequence of [update], [teleport] and [setWheelSpeeds]
    a mouse goes through, it keeps its wheels and their limits and its
    sensors, by name, so that [hasWheel] and [getWheelMaxSpeed] answer as
    at the start; and no wheel that started within its limit ever turns
    faster than its limit. *)
Theorem wheels_stay_within_limits
    (readMaze : Sensor -> Cartesian -> R -> R) (m0 m : Mouse) :
  wellKeyed (m_wheels m0) ->
  withinLimits m0 ->
  evolves readMaze m0 m ->
  limits (m_wheels m) = limits (m_wheels m0)
  /\ (forall name,
        hasWheel m name = hasWheel m0 name
        /\ getWheelMaxSpeed m name = getWheelMaxSpeed m0 name)
  /\ keys (m_sensors m) = keys (m_sensors m0)
  /\ withinLimits m.
Proof.
  intros Hnd Hlim Hev.
  assert (Hinv : limits (m_wheels m) = limits (m_wheels m0)
                 /\ keys (m_sensors m) = keys (m_sensors m0)
                 /\ withinLimits m).
  { induction Hev as [|m elapsed _ IH|m translation rotation _ IH
                      |m wheelSpeeds m' _ IH Hset].
    - now repeat split.
    - destruct IH as (Hl & Hs & Hw).
      destruct (update_limits readMaze elapsed m) as (Hl' & Hs' & Hw').
      rewrite Hl', Hs'. repeat split; auto.
    - exact IH.
    - destruct IH as (Hl & Hs & Hw). unfold setWheelSpeeds in Hset.
      destruct (setEachWheelSpeed_limits _ _ _ Hset) as (Hl' & Hs' & _).
      rewrite Hl', Hs'. split; [assumption|]. split; [assumption|].
      assert (Hnd' : wellKeyed (m_wheels m)).
      { unfold wellKeyed. rewrite <- keys_limits, Hl, keys_limits. exact Hnd. }
      destruct (setEachWheelSpeed_sets _ _ _ Hnd' Hset) as [_ Hall].
      intros name w Hin.
      destruct (Hall name w Hin) as [(s & _ & _ & Hok)|(_ & Hin')];
        [exact Hok | exact (Hw name w Hin')]. }
  destruct Hinv as (Hl & Hs & Hw). split; [assumption|].
  split; [|now split].
  intros name.
  destruct (wheel_limit_lookup m name) as [-> ->].
  destruct (wheel_limit_lookup m0 name) as [-> ->].
  now rewrite Hl.
Qed.

Lemma wheels_stay_within_limits_witness :
  limits (m_wheels triangleMouseLater) = limits (m_wheels triangleMouse)
  /\ (forall name,
        hasWheel triangleMouseLater name = hasWheel triangleMouse name
        /\ getWheelMaxSpeed triangleMouseLater name
           = getWheelMaxSpeed triangleMouse name)
  /\ keys (m_sensors triangleMouseLater) = keys (m_sensors triangleMouse)
  /\ withinLimits triangleMouseLater.
Proof.
  apply (wheels_stay_within_limits nothingInRange triangleMouse).
  - repeat constructor. intros [].
  - intros name w [[= <- <-]|[]]. unfold withinLimit. cbn.
    rewrite Rabs_right; [lra | left; exact PI_RGT_0].
  - apply after_update. apply after_teleport. apply at_start.
Defined.

(** ** The speeds of a movement *)

(** The speed that [setWheelSpeedsForMovement] computes for a wheel from
    the normalized factors. *)
Definition movementSpeed (m : Mouse)
    (fractionOfMaxSpeed normalizedForwardFactor normalizedTurnFactor : R)
    (wheel : string * Wheel) : R :=
  getMaxAngularVelocityMagnitude (snd wheel) * fractionOfMaxSpeed
  * (normalizedForwardFactor * fst (CurveTurn.adjustmentFactorsOf m (fst wheel))
     + normalizedTurnFactor * snd (CurveTurn.adjustmentFactorsOf m (fst wheel))).

(** The mouse whose wheels turn at the speeds of a movement. *)
Definition moving (m : Mouse)
    (fractionOfMaxSpeed normalizedForwardFactor normalizedTurnFactor : R)
  : Mouse :=
  withWheels m
    (map (fun wheel : string * Wheel =>
            (fst wheel,
             setAngularVelocity
               (movementSpeed m fractionOfMaxSpeed normalizedForwardFactor
                  normalizedTurnFactor wheel)
               (snd wheel)))
         (m_wheels m)).

Lemma movementSpeeds_map m fraction nf nt wheels : forall wheelSpeeds,
  movementSpeeds (m_wheelSpeedAdjustmentFactors m) fraction nf nt wheels
  = Returns wheelSpeeds ->
  wheelSpeeds
  = map (fun wheel : string * Wheel =>
           (fst wheel, movementSpeed m fraction nf nt wheel)) wheels.
Proof.
  induction wheels as [|[name w] rest IH]; intros wheelSpeeds H;
    cbn [movementSpeeds fst snd] in H.
  - now injection H as <-.
  - unfold mapContains, mapAt in H.
    destruct (lookup (m_wheelSpeedAdjustmentFactors m) name) as [p|] eqn:Hp;
      [|discriminate].
    cbn [ASSERT_TR bind] in H.
    destruct (movementSpeeds _ fraction nf nt rest) as [more| |];
      try discriminate.
    cbn [bind] in H. injection H as <-. cbn [map fst snd]. f_equal.
    + unfold movementSpeed, CurveTurn.adjustmentFactorsOf. cbn [fst snd].
      now rewrite Hp.
    + now apply IH.
Qed.

Lemma withSpeeds_map (speedOf : string * Wheel -> R) wheels :
  wellKeyed wheels ->
  withSpeeds (map (fun wheel => (fst wheel, speedOf wheel)) wheels) wheels
  = map (fun wheel => (fst wheel, setAngularVelocity (speedOf wheel) (snd wheel)))
        wheels.
Proof.
  intros Hnd. unfold withSpeeds. apply map_ext_in. intros [k w] Hin.
  cbn [fst snd]. rewrite In_lookup with (a := speedOf (k, w)); [reflexivity| |].
  - unfold wellKeyed, keys. rewrite map_map. exact Hnd.
  - apply in_map_iff. now exists (k, w).
Qed.

Lemma setWheelSpeedsForMovement_moving fraction forwardFactor turnFactor m m' :
  wellKeyed (m_wheels m) ->
  setWheelSpeedsForMovement fraction forwardFactor turnFactor m = Returns m' ->
  Rabs forwardFactor + Rabs turnFactor <> 0
  /\ m' = moving m fraction
            (forwardFactor / (Rabs forwardFactor + Rabs turnFactor))
            (turnFactor / (Rabs forwardFactor + Rabs turnFactor)).
Proof.
  intros Hnd H. unfold setWheelSpeedsForMovement in H.
  destruct (Req_dec (Rabs forwardFactor + Rabs turnFactor) 0) as [Hz|Hnz].
  { rewrite (normalizeFactors_exact_zero _ _ Hz) in H. discriminate. }
  split; [assumption|].
  rewrite (normalizeFactors_exact _ _ Hnz) in H. cbn [bind fst snd realOf] in H.
  destruct (movementSpeeds _ _ _ _ _) as [wheelSpeeds| |] eqn:Hspeeds;
    try discriminate.
  cbn [bind] in H. apply movementSpeeds_map in Hspeeds. subst wheelSpeeds.
  unfold setWheelSpeeds in H.
  match type of H with setEachWheelSpeed ?ws _ = _ =>
    pose proof (setEachWheelSpeed_spec ws m) as Hspec end.
  rewrite H in Hspec. destruct Hspec as [_ ->]; [|assumption|].
  - unfold wellKeyed, keys. rewrite map_map. exact Hnd.
  - unfold moving. f_equal. now apply withSpeeds_map.
Qed.

(** X9.  A call of [setWheelSpeedsForMovement] that returns has set every
    wheel to its limit times the fraction times the combination of its two
    adjustment factors with the normalized factors
    [forwardFactor / (|forwardFactor| + |turnFactor|)] and
    [turnFactor / (|forwardFactor| + |turnFactor|)], and has changed
    nothing else of the mouse. *)
Theorem setWheelSpeedsForMovement_sets_combination
    (fractionOfMaxSpeed forwardFactor turnFactor : R) (m m' : Mouse) :
  wellKeyed (m_wheels m) ->
  setWheelSpeedsForMovement fractionOfMaxSpeed forwardFactor turnFactor m
  = Returns m' ->
  let factorMagnitude := Rabs forwardFactor + Rabs turnFactor in
  factorMagnitude <> 0
  /\ m' = moving m fractionOfMaxSpeed
            (forwardFactor / factorMagnitude) (turnFactor / factorMagnitude).
Proof. intros Hnd H. now apply setWheelSpeedsForMovement_moving. Qed.

Lemma moving_ext m fraction nf nt fraction' nf' nt' :
  (forall a b, fraction * (nf * a + nt * b) = fraction' * (nf' * a + nt' * b)) ->
  moving m fraction nf nt = moving m fraction' nf' nt'.
Proof.
  intros Heq. unfold moving. f_equal. apply map_ext. intros [k w].
  cbn [fst snd]. f_equal. f_equal. unfold movementSpeed.
  rewrite !Rmult_assoc. f_equal. apply Heq.
Qed.

Lemma setWheelSpeedsForMovementOf_no_turn fraction forwardFactor m :
  setWheelSpeedsForMovementOf fraction forwardFactor None m = AssertFailed.
Proof.
  unfold setWheelSpeedsForMovementOf, normalizeFactors, ASSERT_LE.
  destruct forwardFactor; reflexivity.
Qed.

Lemma setWheelSpeedsForMovementOf_moving fraction forwardFactor turnFactor m m' :
  wellKeyed (m_wheels m) ->
  setWheelSpeedsForMovementOf fraction forwardFactor turnFactor m = Returns m' ->
  exists A B,
    forwardFactor = Some A /\ turnFactor = Some B
    /\ m' = moving m fraction (A / (Rabs A + Rabs B)) (B / (Rabs A + Rabs B)).
Proof.
  intros Hnd H. destruct forwardFactor as [A|].
  2:{ rewrite CurveTurn.setWheelSpeedsForMovementOf_not_real in H.
      discriminate. }
  destruct turnFactor as [B|].
  2:{ rewrite setWheelSpeedsForMovementOf_no_turn in H. discriminate. }
  rewrite CurveTurn.setWheelSpeedsForMovementOf_real in H.
  apply setWheelSpeedsForMovement_moving in H; [|assumption].
  exists A, B. now repeat split.
Qed.

(** X10.  The five movements: moving forward sets every wheel to its limit
    times the fraction times its forward adjustment factor; turning left,
    to its limit times the fraction times its turn adjustment factor;
    turning right, to the negation of that; and a curve turn that returns
    has real curve turn factors [(A, B)] and combines the two adjustment
    factors with [A] and [B] normalized by [|A| + |B|], the turn to the
    right with [- B]. *)
Theorem movements_set_speeds (fractionOfMaxSpeed : R) (m : Mouse) :
  wellKeyed (m_wheels m) ->
  (forall m', setWheelSpeedsForMoveForward fractionOfMaxSpeed m = Returns m' ->
     m' = moving m fractionOfMaxSpeed 1 0)
  /\ (forall m', setWheelSpeedsForTurnLeft fractionOfMaxSpeed m = Returns m' ->
        m' = moving m fractionOfMaxSpeed 0 1)
  /\ (forall m', setWheelSpeedsForTurnRight fractionOfMaxSpeed m = Returns m' ->
        m' = moving m fractionOfMaxSpeed 0 (-1))
  /\ (forall m', setWheelSpeedsForCurveTurnLeft fractionOfMaxSpeed m = Returns m' ->
        exists A B,
          m_curveTurnFactors m = (Some A, Some B)
          /\ m' = moving m fractionOfMaxSpeed
                    (A / (Rabs A + Rabs B)) (B / (Rabs A + Rabs B)))
  /\ (forall m', setWheelSpeedsForCurveTurnRight fractionOfMaxSpeed m = Returns m' ->
        exists A B,
          m_curveTurnFactors m = (Some A, Some B)
          /\ m' = moving m fractionOfMaxSpeed
                    (A / (Rabs A + Rabs B)) (- B / (Rabs A + Rabs B))).
Proof.
  intros Hnd.
  assert (H1 : Rabs 1 = 1) by (apply Rabs_right; lra).
  assert (Hm1 : Rabs (-1) = 1) by (rewrite Rabs_left; lra).
  split; [|split; [|split; [|split]]]; intros m' H.
  - apply setWheelSpeedsForMovement_moving in H; [|assumption].
    destruct H as [Hnz ->]. rewrite H1, Rabs_R0. apply moving_ext.
    intros a b. field.
  - apply setWheelSpeedsForMovement_moving in H; [|assumption].
    destruct H as [Hnz ->]. rewrite H1, Rabs_R0. apply moving_ext.
    intros a b. field.
  - apply setWheelSpeedsForMovement_moving in H; [|assumption].
    destruct H as [Hnz ->]. rewrite Hm1, Rabs_R0. apply moving_ext.
    intros a b. field.
  - apply setWheelSpeedsForMovementOf_moving in H; [|assumption].
    destruct H as (A & B & HA & HB & ->). exists A, B.
    split; [|reflexivity].
    destruct (m_curveTurnFactors m) as [a b]. cbn [fst snd] in HA, HB.
    now subst.
  - apply setWheelSpeedsForMovementOf_moving in H; [|assumption].
    destruct H as (A & B' & HA & HB & ->).
    destruct (m_curveTurnFactors m) as [a [B|]]; cbn [fst snd times] in HA, HB;
      [|discriminate].
    injection HB as <-. subst a. exists A, B. split; [reflexivity|].
    replace (-1 * B) with (- B) by ring. now rewrite Rabs_Ropp.
Qed.

(** The one-wheel mouse can be driven at half speed. *)
Lemma oneWheelMouse_half_speed forwardFactor turnFactor :
  Rabs forwardFactor + Rabs turnFactor <> 0 ->
  exists m',
    setWheelSpeedsForMovement (1 / 2) forwardFactor turnFactor oneWheelMouse
    = Returns m'.
Proof.
  intros Hnz. apply setWheelSpeedsForMovement_returns.
  - repeat constructor. intros [].
  - exact Hnz.
  - rewrite Rabs_right; lra.
  - intros name w [[= <- <-]|[]]. split; [left; exact PI_RGT_0|].
    exists (1, 1). split; [reflexivity|]. cbn [fst snd].
    rewrite Rabs_R1. lra.
Qed.

Lemma setWheelSpeedsForMovement_sets_witness :
  exists m',
    setWheelSpeedsForMovement (1 / 2) 1 0 oneWheelMouse = Returns m'
    /\ Rabs 1 + Rabs 0 <> 0
    /\ m' = moving oneWheelMouse (1 / 2)
              (1 / (Rabs 1 + Rabs 0)) (0 / (Rabs 1 + Rabs 0)).
Proof.
  destruct (oneWheelMouse_half_speed 1 0) as [m' Hm'].
  { rewrite Rabs_R1, Rabs_R0. lra. }
  exists m'. split; [exact Hm'|].
  apply (setWheelSpeedsForMovement_sets_combination (1 / 2) 1 0 oneWheelMouse m').
  - repeat constructor. intros [].
  - exact Hm'.
Defined.

Lemma movements_set_speeds_witness :
  exists m',
    setWheelSpeedsForTurnRight (1 / 2) oneWheelMouse = Returns m'
    /\ m' = moving oneWheelMouse (1 / 2) 0 (-1).
Proof.
  destruct (oneWheelMouse_half_speed 0 (-1)) as [m' Hm'].
  { rewrite Rabs_R0, Rabs_left; lra. }
  exists m'. split; [exact Hm'|].
  apply (proj1 (proj2 (proj2 (movements_set_speeds (1 / 2) oneWheelMouse
                                ltac:(repeat constructor; intros []))))).
  exact Hm'.
Defined.

(** ** Reversing a movement *)

Lemma movementSpeeds_ext factors fraction nf nt fraction' nf' nt' wheels :
  (forall a b, fraction * (nf * a + nt * b) = fraction' * (nf' * a + nt' * b)) ->
  movementSpeeds factors fraction nf nt wheels
  = movementSpeeds factors fraction' nf' nt' wheels.
Proof.
  intros Heq. induction wheels as [|[name w] rest IH]; [reflexivity|].
  cbn [movementSpeeds fst snd]. rewrite IH.
  destruct (ASSERT_TR (mapContains factors name)); try reflexivity.
  cbn [bind]. destruct (mapAt factors name) as [p| |]; try reflexivity.
  cbn [bind]. rewrite !Rmult_assoc, (Heq (fst p) (snd p)). reflexivity.
Qed.

Lemma setWheelSpeedsForMovement_ext fraction fw tu fraction' fw' tu' m :
  Rabs fw + Rabs tu <> 0 -> Rabs fw' + Rabs tu' <> 0 ->
  (forall a b,
     fraction * (fw / (Rabs fw + Rabs tu) * a + tu / (Rabs fw + Rabs tu) * b)
     = fraction' * (fw' / (Rabs fw' + Rabs tu') * a
                    + tu' / (Rabs fw' + Rabs tu') * b)) ->
  setWheelSpeedsForMovement fraction fw tu m
  = setWheelSpeedsForMovement fraction' fw' tu' m.
Proof.
  intros Hnz Hnz' Heq. unfold setWheelSpeedsForMovement.
  rewrite (normalizeFactors_exact _ _ Hnz), (normalizeFactors_exact _ _ Hnz').
  cbn [bind fst snd realOf].
  now rewrite (movementSpeeds_ext _ _ _ _ _ _ _ _ Heq).
Qed.

(** X11.  Reversing both factors of a movement is reversing the fraction
    of the maximum speed; so turning right at a fraction is turning left at
    the negated fraction, wheel for wheel. *)
Theorem setWheelSpeedsForTurnRight_mirrors_left
    (fractionOfMaxSpeed : R) (m : Mouse) :
  (forall forwardFactor turnFactor,
     setWheelSpeedsForMovement fractionOfMaxSpeed
       (- forwardFactor) (- turnFactor) m
     = setWheelSpeedsForMovement (- fractionOfMaxSpeed)
         forwardFactor turnFactor m)
  /\ setWheelSpeedsForTurnRight fractionOfMaxSpeed m
     = setWheelSpeedsForTurnLeft (- fractionOfMaxSpeed) m.
Proof.
  assert (Hmirror : forall forwardFactor turnFactor,
            setWheelSpeedsForMovement fractionOfMaxSpeed
              (- forwardFactor) (- turnFactor) m
            = setWheelSpeedsForMovement (- fractionOfMaxSpeed)
                forwardFactor turnFactor m).
  { intros fw tu.
    destruct (Req_dec (Rabs fw + Rabs tu) 0) as [Hz|Hnz].
    - unfold setWheelSpeedsForMovement.
      rewrite (normalizeFactors_exact_zero fw tu Hz).
      rewrite normalizeFactors_exact_zero; [reflexivity|].
      now rewrite !Rabs_Ropp.
    - apply setWheelSpeedsForMovement_ext; [now rewrite !Rabs_Ropp|assumption|].
      intros a b. rewrite !Rabs_Ropp. field. exact Hnz. }
  split; [exact Hmirror|].
  unfold setWheelSpeedsForTurnRight, setWheelSpeedsForTurnLeft.
  rewrite <- Hmirror. f_equal; ring.
Qed.

End WheelSpeeds.

(* ================================================================= *)
(** * The integrator over several steps *)

Module Integrator.

Import Geometry StringMap Mouse Kinematics Polygons Synthesizer WheelSpeeds.
Local Open Scope R_scope.

Lemma update_wheels readMaze elapsed m :
  m_wheels (update readMaze elapsed m)
  = map (fun wheel : string * Wheel =>
           (fst wheel,
            updateRotation (getAngularVelocity (snd wheel) * elapsed) (snd wheel)))
        (m_wheels m).
Proof.
  unfold update.
  now destruct (fold_left (accumulate m) (m_wheels m) (0, 0, 0)) as [[? ?] ?].
Qed.

Lemma update_initial readMaze elapsed m :
  m_initialTranslation (update readMaze elapsed m) = m_initialTranslation m
  /\ m_initialRotation (update readMaze elapsed m) = m_initialRotation m.
Proof.
  unfold update.
  now destruct (fold_left (accumulate m) (m_wheels m) (0, 0, 0)) as [[? ?] ?].
Qed.

Lemma update_gyro readMaze elapsed m :
  readGyro (update readMaze elapsed m) = averageRadialRate m.
Proof.
  unfold readGyro, update. rewrite fold_accumulate. cbn [m_currentGyro].
  unfold averageRadialRate, wheelCount. unfold Rdiv. ring.
Qed.

Lemma update_elapsed readMaze elapsed m :
  getElapsedSimTime (update readMaze elapsed m) = getElapsedSimTime m + elapsed.
Proof.
  unfold getElapsedSimTime, update.
  now destruct (fold_left (accumulate m) (m_wheels m) (0, 0, 0)) as [[? ?] ?].
Qed.

(** The rates depend on the speeds of the wheels and on where the wheels
    are, which [update] leaves alone. *)
Lemma update_rates readMaze elapsed m :
  averageForwardRate (update readMaze elapsed m) = averageForwardRate m
  /\ averageRadialRate (update readMaze elapsed m) = averageRadialRate m.
Proof.
  destruct (update_initial readMaze elapsed m) as [HT HR].
  unfold averageForwardRate, averageRadialRate, wheelCount.
  rewrite update_wheels, !map_map, length_map.
  unfold forwardRate, radialRate, wheelToCenter, linearVelocity,
    getInitialTranslation, getInitialRotation.
  rewrite HT, HR. split; reflexivity.
Qed.

(** X12.  With the wheel speeds left alone (and at least one wheel, none
    at the centre of the mouse, so that every rate is a real number), the
    heading, the gyro, the elapsed time and the rotations of the wheels
    after two calls of [update] are, in exact arithmetic, those after one
    call for the sum of the two durations. *)
Theorem update_steps_add (readMaze : Sensor -> Cartesian -> R -> R)
    (elapsed1 elapsed2 : R) (m : Mouse) :
  m_wheels m <> [] ->
  (forall name w, In (name, w) (m_wheels m) -> getRho (wheelToCenter m w) <> 0) ->
  let twoSteps := update readMaze elapsed2 (update readMaze elapsed1 m) in
  let oneStep := update readMaze (elapsed1 + elapsed2) m in
  getCurrentRotation twoSteps = getCurrentRotation oneStep
  /\ readGyro twoSteps = readGyro oneStep
  /\ getElapsedSimTime twoSteps = getElapsedSimTime oneStep
  /\ m_wheels twoSteps = m_wheels oneStep.
Proof.
  intros _ _. cbv zeta. unfold getCurrentRotation. repeat split.
  - rewrite !update_rotation.
    rewrite (proj2 (update_rates readMaze elapsed1 m)). ring.
  - rewrite !update_gyro. apply update_rates.
  - rewrite !update_elapsed. ring.
  - rewrite !update_wheels, map_map. apply map_ext. intros [name w].
    cbn [fst snd]. f_equal. unfold updateRotation. cbn. f_equal. ring.
Qed.

Lemma triangleMouse_wheel_off_centre name w :
  In (name, w) (m_wheels triangleMouse) ->
  getRho (wheelToCenter triangleMouse w) <> 0.
Proof.
  intros [[= <- <-]|[]]. unfold getRho, wheelToCenter, minus. cbn.
  replace ((0 - 0) * (0 - 0) + (0 - -1) * (0 - -1)) with 1 by ring.
  rewrite sqrt_1. lra.
Qed.

Lemma update_steps_add_witness :
  let twoSteps := update nothingInRange 2 (update nothingInRange 1 triangleMouse) in
  let oneStep := update nothingInRange (1 + 2) triangleMouse in
  getCurrentRotation twoSteps = getCurrentRotation oneStep
  /\ readGyro twoSteps = readGyro oneStep
  /\ getElapsedSimTime twoSteps = getElapsedSimTime oneStep
  /\ m_wheels twoSteps = m_wheels oneStep.
Proof.
  apply (update_steps_add nothingInRange 1 2 triangleMouse).
  - discriminate.
  - exact triangleMouse_wheel_off_centre.
Defined.

(** ** Standing still *)




End Integrator.

(* ================================================================= *)
(** * The sensors *)

Module Sensors.

Import Geometry StringMap Mouse MouseQueries Kinematics.
Local Open Scope R_scope.
Local Open Scope outcome_scope.

Lemma lookup_map_values {A B : Type} (f : A -> B) (m : StringMap.t A) name :
  lookup (map (fun entry : string * A => (fst entry, f (snd entry))) m) name
  = option_map f (lookup m name).
Proof.
  induction m as [|[k a] rest IH]; [reflexivity|].
  cbn [map fst snd lookup]. destruct (String.eqb k name); [reflexivity|].
  exact IH.
Qed.

(** The sensor once it has read the maze from where it is at a pose of
    the mouse. *)
Definition refreshed (readMaze : Sensor -> Cartesian -> R -> R) (m : Mouse)
    (currentTranslation : Cartesian) (currentRotation : R) (sensor : Sensor)
  : Sensor :=
  let translationAndRotation :=
    getCurrentSensorPositionAndDirection m sensor
      currentTranslation currentRotation in
  updateReading readMaze sensor
    (fst translationAndRotation) (snd translationAndRotation).

Lemma update_sensors readMaze elapsed m :
  m_sensors (update readMaze elapsed m)
  = map (fun entry : string * Sensor =>
           (fst entry,
            refreshed readMaze m
              (getCurrentTranslation (update readMaze elapsed m))
              (getCurrentRotation (update readMaze elapsed m))
              (snd entry)))
        (m_sensors m).
Proof.
  unfold update, getCurrentTranslation, getCurrentRotation.
  now destruct (fold_left (accumulate m) (m_wheels m) (0, 0, 0)) as [[? ?] ?].
Qed.

(** X14.  After [update], [readSensor] returns the reading that the sensor
    takes from where it is once the mouse has moved: at the position and in
    the direction that [getCurrentSensorPositionAndDirection] gives for the
    translation and the rotation after the step.  For a name that is not
    the name of a sensor the assertion fails. *)
Theorem readSensor_after_update (readMaze : Sensor -> Cartesian -> R -> R)
    (elapsed : R) (m : Mouse) (name : string) :
  let moved := update readMaze elapsed m in
  match lookup (m_sensors m) name with
  | Some sensor =>
      let translationAndRotation :=
        getCurrentSensorPositionAndDirection m sensor
          (getCurrentTranslation moved) (getCurrentRotation moved) in
      readSensor moved name
      = Returns (readMaze sensor (fst translationAndRotation)
                   (snd translationAndRotation))
  | None => readSensor moved name = AssertFailed
  end.
Proof.
  cbv zeta. unfold readSensor, hasSensor, mapContains, mapAt.
  rewrite update_sensors, (lookup_map_values (refreshed readMaze m _ _)).
  destruct (lookup (m_sensors m) name) as [sensor|]; reflexivity.
Qed.

(** X15.  A sensor rides with the mouse: for every pose, the offset of the
    sensor from the centre of the mouse is its initial offset, turned by
    the rotation of the mouse since the start, so that the sensor keeps its
    distance from the centre; its direction keeps its angle to the heading
    of the mouse; and at the initial pose the sensor is at its initial
    position and direction. *)
Theorem sensors_ride_with_mouse (m : Mouse) (sensor : Sensor)
    (currentTranslation : Cartesian) (currentRotation : R) :
  let position :=
    fst (getCurrentSensorPositionAndDirection m sensor
           currentTranslation currentRotation) in
  let direction :=
    snd (getCurrentSensorPositionAndDirection m sensor
           currentTranslation currentRotation) in
  let turned := currentRotation - getInitialRotation m in
  let offset := minus (sensorInitialPosition sensor) (getInitialTranslation m) in
  minus position currentTranslation
  = mkCartesian (getX offset * cos turned - getY offset * sin turned)
                (getX offset * sin turned + getY offset * cos turned)
  /\ getRho (minus position currentTranslation) = getRho offset
  /\ direction - currentRotation
     = sensorInitialDirection sensor - getInitialRotation m
  /\ (currentTranslation = getInitialTranslation m ->
      currentRotation = getInitialRotation m ->
      position = sensorInitialPosition sensor
      /\ direction = sensorInitialDirection sensor).
Proof.
  cbv zeta.
  assert (Hoffset :
            minus (fst (getCurrentSensorPositionAndDirection m sensor
                          currentTranslation currentRotation))
              currentTranslation
            = mkCartesian
                (getX (minus (sensorInitialPosition sensor)
                         (getInitialTranslation m))
                 * cos (currentRotation - getInitialRotation m)
                 - getY (minus (sensorInitialPosition sensor)
                           (getInitialTranslation m))
                   * sin (currentRotation - getInitialRotation m))
                (getX (minus (sensorInitialPosition sensor)
                         (getInitialTranslation m))
                 * sin (currentRotation - getInitialRotation m)
                 + getY (minus (sensorInitialPosition sensor)
                           (getInitialTranslation m))
                   * cos (currentRotation - getInitialRotation m))).
  { unfold getCurrentSensorPositionAndDirection, rotateVertexAroundPoint,
      translateVertex, plus, minus. cbn [fst getX getY]. f_equal; ring. }
  split; [exact Hoffset|]. split; [|split].
  - rewrite Hoffset. unfold getRho. cbn [getX getY]. f_equal.
    set (a := getX _). set (b := getY _).
    set (turned := currentRotation - getInitialRotation m).
    pose proof (sin2_cos2 turned) as Hsc. unfold Rsqr in Hsc.
    replace ((a * cos turned - b * sin turned) * (a * cos turned - b * sin turned)
             + (a * sin turned + b * cos turned) * (a * sin turned + b * cos turned))
      with ((a * a + b * b) * (sin turned * sin turned + cos turned * cos turned))
      by ring.
    rewrite Hsc. ring.
  - unfold getCurrentSensorPositionAndDirection. cbn [snd]. ring.
  - intros -> ->. unfold getCurrentSensorPositionAndDirection,
      rotateVertexAroundPoint, translateVertex, plus, minus.
    cbn [fst snd getX getY].
    replace (getInitialRotation m - getInitialRotation m) with 0 by ring.
    rewrite cos_0, sin_0. split; [|ring].
    destruct (sensorInitialPosition sensor) as [x y]. cbn [getX getY].
    f_equal; ring.
Qed.

End Sensors.


(* ================================================================= *)
(** * The adjustment factors and the initialization *)

Module AdjustmentFactors.

Import Geometry StringMap Mouse Kinematics Synthesizer.
Local Open Scope R_scope.

(** The rates of change of a wheel that turns at its limit. *)
Definition ratesAtLimit (initialTranslation : Cartesian) (initialRotation : R)
    (w : Wheel) : R * R :=
  getRatesOfChange initialTranslation initialRotation
    (getInitialPosition w) (getInitialDirection w)
    (getMaxAngularVelocityMagnitude w * getRadius w).

(** ** The largest magnitudes *)

Lemma fold_largerMagnitudes ratesOfChangePairs : forall maxima,
  let largest := fold_left largerMagnitudes ratesOfChangePairs maxima in
  (fst maxima <= fst largest /\ snd maxima <= snd largest)
  /\ (forall entry, In entry ratesOfChangePairs ->
        Rabs (fst (snd entry)) <= fst largest
        /\ Rabs (snd (snd entry)) <= snd largest)
  /\ (fst largest = fst maxima
      \/ exists entry, In entry ratesOfChangePairs
                       /\ Rabs (fst (snd entry)) = fst largest)
  /\ (snd largest = snd maxima
      \/ exists entry, In entry ratesOfChangePairs
                       /\ Rabs (snd (snd entry)) = snd largest).
Proof.
  induction ratesOfChangePairs as [|entry rest IH]; intros maxima; cbv zeta.
  - cbn [fold_left]. split; [split; lra|]. split; [intros ? []|].
    split; now left.
  - cbn [fold_left]. specialize (IH (largerMagnitudes maxima entry)).
    cbv zeta in IH.
    set (largest := fold_left largerMagnitudes rest
                      (largerMagnitudes maxima entry)) in *.
    destruct IH as ((Hf & Hr) & Hall & Hmf & Hmr).
    unfold largerMagnitudes in Hf, Hr, Hmf, Hmr. cbn [fst snd] in Hf, Hr, Hmf, Hmr.
    assert (Hstep_f :
              fst maxima <= fst largest
              /\ Rabs (fst (snd entry)) <= fst largest
              /\ (fst largest = fst maxima
                  \/ exists e, In e (entry :: rest)
                               /\ Rabs (fst (snd e)) = fst largest)).
    { destruct (Rlt_dec (fst maxima) (Rabs (fst (snd entry)))) as [Hlt|Hge].
      - rewrite (Rltb_true _ _ Hlt) in Hf, Hmf.
        repeat split; try lra. right.
        destruct Hmf as [Heq|(e & He & Heq)].
        + exists entry. split; [now left | now symmetry].
        + exists e. split; [now right | assumption].
      - rewrite (Rltb_false _ _ Hge) in Hf, Hmf.
        repeat split; try lra.
        destruct Hmf as [Heq|(e & He & Heq)]; [now left|].
        right. exists e. split; [now right | assumption]. }
    assert (Hstep_r :
              snd maxima <= snd largest
              /\ Rabs (snd (snd entry)) <= snd largest
              /\ (snd largest = snd maxima
                  \/ exists e, In e (entry :: rest)
                               /\ Rabs (snd (snd e)) = snd largest)).
    { destruct (Rlt_dec (snd maxima) (Rabs (snd (snd entry)))) as [Hlt|Hge].
      - rewrite (Rltb_true _ _ Hlt) in Hr, Hmr.
        repeat split; try lra. right.
        destruct Hmr as [Heq|(e & He & Heq)].
        + exists entry. split; [now left | now symmetry].
        + exists e. split; [now right | assumption].
      - rewrite (Rltb_false _ _ Hge) in Hr, Hmr.
        repeat split; try lra.
        destruct Hmr as [Heq|(e & He & Heq)]; [now left|].
        right. exists e. split; [now right | assumption]. }
    destruct Hstep_f as (Hf1 & Hf2 & Hf3), Hstep_r as (Hr1 & Hr2 & Hr3).
    split; [now split|]. split; [|now split].
    intros e [<-|He]; [now split | now apply Hall].
Qed.

(** ** Dividing by the largest magnitudes *)

Lemma quotient_bound x largest :
  0 < largest -> Rabs x <= largest -> -1 <= x / largest <= 1.
Proof.
  intros Hpos Hle.
  assert (Hx : - largest <= x <= largest)
    by (unfold Rabs in Hle; destruct (Rcase_abs x); lra).
  split; apply Rmult_le_reg_r with largest; try assumption;
    unfold Rdiv; rewrite Rmult_assoc, Rinv_l by lra; lra.
Qed.

Lemma normalizeContributions_divides maxForward maxRadial ratesOfChangePairs :
  0 < maxForward -> 0 < maxRadial ->
  (forall entry, In entry ratesOfChangePairs ->
     Rabs (fst (snd entry)) <= maxForward
     /\ Rabs (snd (snd entry)) <= maxRadial) ->
  normalizeContributions maxForward maxRadial ratesOfChangePairs
  = Returns (map (fun entry : string * (R * R) =>
                    (fst entry,
                     (fst (snd entry) / maxForward,
                      snd (snd entry) / maxRadial)))
                 ratesOfChangePairs).
Proof.
  intros Hf Hr. induction ratesOfChangePairs as [|entry rest IH]; intros Hall;
    [reflexivity|].
  cbn [normalizeContributions map].
  rewrite !CurveTurn.fdiv_real by lra.
  destruct (Hall entry (or_introl eq_refl)) as [Hef Her].
  pose proof (quotient_bound _ _ Hf Hef) as [Hf1 Hf2].
  pose proof (quotient_bound _ _ Hr Her) as [Hr1 Hr2].
  unfold ASSERT_LE. cbn [fle exact].
  rewrite !Rleb_true by assumption. cbn [ASSERT_TR bind realOf].
  rewrite IH; [reflexivity|]. intros e He. apply Hall. now right.
Qed.

Lemma normalizeContributions_zero maxForward maxRadial entry rest :
  0 <= maxForward ->
  Rabs (fst (snd entry)) <= maxForward ->
  maxForward = 0 \/ maxRadial = 0 ->
  normalizeContributions maxForward maxRadial (entry :: rest) = AssertFailed.
Proof.
  intros Hpos Hle Hzero. cbn [normalizeContributions].
  destruct (Req_dec maxForward 0) as [->|Hnz].
  - rewrite CurveTurn.fdiv_by_zero. reflexivity.
  - destruct Hzero as [Hz| ->]; [contradiction|].
    rewrite CurveTurn.fdiv_by_zero, CurveTurn.fdiv_real by assumption.
    assert (Hf : 0 < maxForward) by lra.
    pose proof (quotient_bound _ _ Hf Hle) as [Hf1 _].
    unfold ASSERT_LE. cbn [fle exact]. rewrite Rleb_true by assumption.
    reflexivity.
Qed.

(** What the four assertions of the loop have checked of the factors that
    are returned. *)
Lemma normalizeContributions_checked maxForward maxRadial ratesOfChangePairs :
  forall factors,
  normalizeContributions maxForward maxRadial ratesOfChangePairs = Returns factors ->
  keys factors = keys ratesOfChangePairs
  /\ forall name p, In (name, p) factors ->
       Rabs (fst p) <= 1 /\ Rabs (snd p) <= 1.
Proof.
  induction ratesOfChangePairs as [|entry rest IH]; intros factors H;
    cbn [normalizeContributions] in H.
  - injection H as <-. split; [reflexivity | intros ? ? []].
  - unfold ASSERT_LE in H.
    destruct (fdiv (Some (fst (snd entry))) (Some maxForward)) as [forward|];
      [|discriminate].
    destruct (fdiv (Some (snd (snd entry))) (Some maxRadial)) as [radial|];
      [|cbn [fle exact ASSERT_TR bind] in H;
        destruct (Rleb (-1) forward); discriminate].
    cbn [fle exact] in H.
    destruct (Rleb (-1) forward) eqn:H1; [|discriminate].
    destruct (Rleb (-1) radial) eqn:H2; [|discriminate].
    destruct (Rleb forward 1) eqn:H3; [|discriminate].
    destruct (Rleb radial 1) eqn:H4; [|discriminate].
    cbn [ASSERT_TR bind realOf] in H.
    destruct (normalizeContributions maxForward maxRadial rest) as [more| |];
      try discriminate.
    cbn [bind] in H. injection H as <-.
    destruct (IH more eq_refl) as [Hkeys Hall].
    split; [cbn [keys map fst]; f_equal; exact Hkeys|].
    intros name p [[= <- <-]|Hin]; [|now apply Hall with name].
    apply Rleb_le in H1, H2, H3, H4. cbn [fst snd].
    split; apply Rabs_le; lra.
Qed.

Lemma normalizeContributions_never_throws maxForward maxRadial ratesOfChangePairs :
  normalizeContributions maxForward maxRadial ratesOfChangePairs <> Throws.
Proof.
  induction ratesOfChangePairs as [|entry rest IH];
    cbn [normalizeContributions]; [discriminate|].
  unfold ASSERT_LE.
  destruct (fdiv (Some (fst (snd entry))) (Some maxForward)) as [forward|];
    [|discriminate].
  destruct (fdiv (Some (snd (snd entry))) (Some maxRadial)) as [radial|];
    cbn [fle exact].
  - repeat (destruct (Rleb _ _); cbn [ASSERT_TR bind realOf];
            [|discriminate]).
    destruct (normalizeContributions maxForward maxRadial rest);
      cbn [bind]; congruence.
  - destruct (Rleb _ _); discriminate.
Qed.

Lemma ratesOfChangePairs_eq initialTranslation initialRotation wheels :
  map (fun wheel : string * Wheel =>
         (fst wheel,
          getRatesOfChange initialTranslation initialRotation
            (getInitialPosition (snd wheel)) (getInitialDirection (snd wheel))
            (getMaxAngularVelocityMagnitude (snd wheel) * getRadius (snd wheel))))
      wheels
  = map (fun wheel : string * Wheel =>
           (fst wheel, ratesAtLimit initialTranslation initialRotation (snd wheel)))
        wheels.
Proof. reflexivity. Qed.

(** X16.  [getWheelSpeedAdjustmentFactors] divides the forward and the
    radial rate of every wheel at its limit by the largest magnitude of
    such a rate over all wheels.  With at least one wheel and no wheel at
    the centre of the mouse, it returns when some wheel has a forward rate
    and some wheel a radial rate that is not zero, and then some wheel has
    a forward factor of magnitude 1 and some wheel a turn factor of
    magnitude 1; when every forward rate or every radial rate is zero, the
    quotient is 0/0 and an assertion fails. *)
Theorem adjustmentFactors_divide_by_largest
    (initialTranslation : Cartesian) (initialRotation : R)
    (wheels : StringMap.t Wheel) :
  wheels <> [] ->
  (forall name w, In (name, w) wheels ->
     getRho (minus initialTranslation (getInitialPosition w)) <> 0) ->
  let rates := ratesAtLimit initialTranslation initialRotation in
  ((exists name w, In (name, w) wheels /\ fst (rates w) <> 0) ->
   (exists name w, In (name, w) wheels /\ snd (rates w) <> 0) ->
   exists maxForward maxRadial,
     0 < maxForward /\ 0 < maxRadial
     /\ (forall name w, In (name, w) wheels ->
           Rabs (fst (rates w)) <= maxForward
           /\ Rabs (snd (rates w)) <= maxRadial)
     /\ (exists name w, In (name, w) wheels /\ Rabs (fst (rates w)) = maxForward)
     /\ (exists name w, In (name, w) wheels /\ Rabs (snd (rates w)) = maxRadial)
     /\ getWheelSpeedAdjustmentFactors initialTranslation initialRotation wheels
        = Returns (map (fun wheel : string * Wheel =>
                          (fst wheel,
                           (fst (rates (snd wheel)) / maxForward,
                            snd (rates (snd wheel)) / maxRadial)))
                       wheels))
  /\ ((forall name w, In (name, w) wheels -> fst (rates w) = 0)
      \/ (forall name w, In (name, w) wheels -> snd (rates w) = 0) ->
      getWheelSpeedAdjustmentFactors initialTranslation initialRotation wheels
      = AssertFailed).
Proof.
  intros Hne _ rates. unfold getWheelSpeedAdjustmentFactors. cbv zeta.
  rewrite ratesOfChangePairs_eq. fold rates.
  set (pairs := map (fun wheel : string * Wheel =>
                       (fst wheel, rates (snd wheel))) wheels).
  pose proof (fold_largerMagnitudes pairs (0, 0)) as Hfold. cbv zeta in Hfold.
  set (largest := fold_left largerMagnitudes pairs (0, 0)) in *.
  cbn [fst snd] in Hfold. destruct Hfold as ((Hf0 & Hr0) & Hall & Hmf & Hmr).
  assert (Hin : forall name w, In (name, w) wheels -> In (name, rates w) pairs).
  { intros name w Hw. unfold pairs. apply in_map_iff. now exists (name, w). }
  assert (Hback : forall entry, In entry pairs ->
            exists name w, In (name, w) wheels /\ snd entry = rates w).
  { intros entry He. unfold pairs in He. apply in_map_iff in He.
    destruct He as ([name w] & <- & Hw). now exists name, w. }
  split.
  - intros (nf & wf & Hwf & Hnzf) (nr & wr & Hwr & Hnzr).
    exists (fst largest), (snd largest).
    assert (Hposf : 0 < fst largest).
    { destruct (Hall _ (Hin _ _ Hwf)) as [Hle _]. cbn [fst snd] in Hle.
      pose proof (Rabs_pos_lt _ Hnzf). lra. }
    assert (Hposr : 0 < snd largest).
    { destruct (Hall _ (Hin _ _ Hwr)) as [_ Hle]. cbn [fst snd] in Hle.
      pose proof (Rabs_pos_lt _ Hnzr). lra. }
    split; [assumption|]. split; [assumption|]. split; [|split; [|split]].
    + intros name w Hw. exact (Hall _ (Hin _ _ Hw)).
    + destruct Hmf as [Heq|(entry & He & Heq)]; [lra|].
      destruct (Hback _ He) as (name & w & Hw & Hrw).
      exists name, w. split; [assumption|]. now rewrite <- Hrw.
    + destruct Hmr as [Heq|(entry & He & Heq)]; [lra|].
      destruct (Hback _ He) as (name & w & Hw & Hrw).
      exists name, w. split; [assumption|]. now rewrite <- Hrw.
    + rewrite normalizeContributions_divides by assumption.
      unfold pairs. rewrite map_map. reflexivity.
  - intros Hzero. destruct wheels as [|[name w] rest]; [contradiction|].
    unfold pairs. cbn [map fst snd].
    apply normalizeContributions_zero; [assumption| |].
    + destruct (Hall (name, rates w)) as [Hle _]; [|exact Hle].
      apply Hin. now left.
    + destruct Hzero as [Hz|Hz]; [left|right].
      * destruct Hmf as [Heq|(entry & He & Heq)]; [assumption|].
        destruct (Hback _ He) as (k & w' & Hw' & Hrw).
        rewrite <- Heq, Hrw, (Hz k w' Hw'). apply Rabs_R0.
      * destruct Hmr as [Heq|(entry & He & Heq)]; [assumption|].
        destruct (Hback _ He) as (k & w' & Hw' & Hrw).
        rewrite <- Heq, Hrw, (Hz k w' Hw'). apply Rabs_R0.
Qed.

Lemma oneWheel_ratesAtLimit :
  ratesAtLimit (mkCartesian ((2 + 0) / 2) ((2 + 0) / 2)) (degreesToRadians 0)
    CurveTurn.wheelBelowCentre = (1, 1).
Proof.
  unfold ratesAtLimit. cbn [CurveTurn.wheelBelowCentre getInitialPosition
    getInitialDirection getMaxAngularVelocityMagnitude getRadius].
  rewrite CurveTurn.oneWheel_rates. f_equal; ring.
Qed.

Definition oneWheelStart : Cartesian := mkCartesian ((2 + 0) / 2) ((2 + 0) / 2).

Lemma adjustmentFactors_witness :
  exists maxForward maxRadial,
    0 < maxForward /\ 0 < maxRadial
    /\ (forall name w, In (name, w) [("wheel"%string, CurveTurn.wheelBelowCentre)] ->
          Rabs (fst (ratesAtLimit oneWheelStart (degreesToRadians 0) w))
          <= maxForward
          /\ Rabs (snd (ratesAtLimit oneWheelStart (degreesToRadians 0) w))
             <= maxRadial)
    /\ (exists name w,
          In (name, w) [("wheel"%string, CurveTurn.wheelBelowCentre)]
          /\ Rabs (fst (ratesAtLimit oneWheelStart (degreesToRadians 0) w))
             = maxForward)
    /\ (exists name w,
          In (name, w) [("wheel"%string, CurveTurn.wheelBelowCentre)]
          /\ Rabs (snd (ratesAtLimit oneWheelStart (degreesToRadians 0) w))
             = maxRadial)
    /\ getWheelSpeedAdjustmentFactors oneWheelStart (degreesToRadians 0)
         [("wheel"%string, CurveTurn.wheelBelowCentre)]
       = Returns
           (map (fun wheel : string * Wheel =>
                   (fst wheel,
                    (fst (ratesAtLimit oneWheelStart (degreesToRadians 0)
                            (snd wheel)) / maxForward,
                     snd (ratesAtLimit oneWheelStart (degreesToRadians 0)
                            (snd wheel)) / maxRadial)))
                [("wheel"%string, CurveTurn.wheelBelowCentre)]).
Proof.
  apply (adjustmentFactors_divide_by_largest oneWheelStart
           (degreesToRadians 0) [("wheel"%string, CurveTurn.wheelBelowCentre)]).
  - discriminate.
  - intros name w [[= <- <-]|[]]. unfold getRho, minus, oneWheelStart. cbn.
    replace (((2 + 0) / 2 - 1) * ((2 + 0) / 2 - 1)
             + ((2 + 0) / 2 - 0) * ((2 + 0) / 2 - 0)) with 1 by field.
    rewrite sqrt_1. lra.
  - exists "wheel"%string, CurveTurn.wheelBelowCentre. split; [now left|].
    unfold oneWheelStart. rewrite oneWheel_ratesAtLimit. cbn. lra.
  - exists "wheel"%string, CurveTurn.wheelBelowCentre. split; [now left|].
    unfold oneWheelStart. rewrite oneWheel_ratesAtLimit. cbn. lra.
Defined.

(** ** The initialization *)

Lemma lookup_keys {A : Type} (m : StringMap.t A) name :
  In name (keys m) -> exists a, lookup m name = Some a.
Proof.
  induction m as [|[k a] rest IH]; intros Hin; [contradiction|].
  cbn [lookup]. destruct (String.eqb k name) eqn:Hk; [now exists a|].
  apply IH. destruct Hin as [Heq|Hin]; [|assumption].
  cbn [fst] in Heq. subst k. now rewrite String.eqb_refl in Hk.
Qed.

Lemma totalRatesOfChange_returns initialTranslation initialRotation factors wheels :
  (forall name, In name (keys wheels) -> In name (keys factors)) ->
  forall totals, exists result,
    totalRatesOfChange initialTranslation initialRotation factors wheels totals
    = Returns result.
Proof.
  induction wheels as [|[name w] rest IH]; intros Hkeys totals.
  - now exists totals.
  - cbn [totalRatesOfChange fst snd]. unfold mapContains, mapAt.
    destruct (lookup_keys factors name) as [p ->]; [apply Hkeys; now left|].
    cbn [ASSERT_TR bind]. apply IH. intros k Hk. apply Hkeys. now right.
Qed.

Lemma getWheelSpeedAdjustmentFactors_checked initialTranslation initialRotation
    wheels factors :
  getWheelSpeedAdjustmentFactors initialTranslation initialRotation wheels
  = Returns factors ->
  keys factors = keys wheels
  /\ forall name p, In (name, p) factors ->
       Rabs (fst p) <= 1 /\ Rabs (snd p) <= 1.
Proof.
  unfold getWheelSpeedAdjustmentFactors. cbv zeta. intros H.
  apply normalizeContributions_checked in H. destruct H as [Hkeys Hall].
  split; [|assumption]. rewrite Hkeys. unfold keys. now rewrite map_map.
Qed.

Section Initialize.

Variables wallLength wallWidth : R.
Variable convexHull : list Polygon -> Polygon.
Variable createCirclePolygon : Cartesian -> R -> nat -> Polygon.
Variable parse :
  string -> Cartesian -> R ->
  option (Polygon * StringMap.t Wheel * StringMap.t Sensor * bool).

(** The centre of the first tile. *)
Definition startingPoint : Cartesian :=
  mkCartesian ((wallLength + wallWidth) / 2) ((wallLength + wallWidth) / 2).

Lemma initialize_cases mouseFile initialDirection m0 :
  let angle := DIRECTION_TO_ANGLE initialDirection in
  match initialize wallLength wallWidth convexHull createCirclePolygon parse
          mouseFile initialDirection m0 with
  | Returns (m, success) =>
      getInitialTranslation m = startingPoint
      /\ getCurrentTranslation m = startingPoint
      /\ getInitialRotation m = angle
      /\ getCurrentRotation m = angle
      /\ readGyro m = readGyro m0
      /\ getElapsedSimTime m = getElapsedSimTime m0
      /\ match parse mouseFile startingPoint angle with
         | None => success = false /\ m_wheels m = m_wheels m0
         | Some (body, wheels, sensors, parsed) =>
             success = parsed
             /\ m_initialBodyPolygon m = body
             /\ m_wheels m = wheels
             /\ m_sensors m = sensors
             /\ getWheelSpeedAdjustmentFactors startingPoint angle wheels
                = Returns (m_wheelSpeedAdjustmentFactors m)
         end
  | AssertFailed =>
      exists body wheels sensors parsed,
        parse mouseFile startingPoint angle
        = Some (body, wheels, sensors, parsed)
        /\ getWheelSpeedAdjustmentFactors startingPoint angle wheels
           = AssertFailed
  | Throws => False
  end.
Proof.
  cbv zeta. unfold initialize. fold startingPoint.
  destruct (parse mouseFile startingPoint (DIRECTION_TO_ANGLE initialDirection))
    as [[[[body wheels] sensors] parsed]|].
  2:{ repeat split. }
  destruct (getWheelSpeedAdjustmentFactors startingPoint
              (DIRECTION_TO_ANGLE initialDirection) wheels)
    as [factors| |] eqn:Hfactors; cbn [bind].
  - destruct (getWheelSpeedAdjustmentFactors_checked _ _ _ _ Hfactors)
      as [Hkeys _].
    unfold getCurveTurnFactors.
    destruct (totalRatesOfChange_returns startingPoint
                (DIRECTION_TO_ANGLE initialDirection) factors wheels
                ltac:(intros name Hin; now rewrite Hkeys) (0, 0))
      as [totals ->].
    cbn [bind]. repeat split.
  - now exists body, wheels, sensors, parsed.
  - unfold getWheelSpeedAdjustmentFactors in Hfactors.
    now apply normalizeContributions_never_throws in Hfactors.
Qed.

(** X17.  [initialize] never throws.  When it returns, the mouse stands at
    the centre of the first tile and faces the initial direction, both as
    its initial and as its current pose, and the value returned is the
    success of the parser; the lookups of [getCurveTurnFactors] never miss,
    for the adjustment factors have the names of the wheels.  The one way
    it fails is an assertion of [getWheelSpeedAdjustmentFactors]. *)
Theorem initialize_outcome (mouseFile : string) (initialDirection : Direction)
    (m0 : Mouse) :
  let angle := DIRECTION_TO_ANGLE initialDirection in
  match initialize wallLength wallWidth convexHull createCirclePolygon parse
          mouseFile initialDirection m0 with
  | Returns (m, success) =>
      getInitialTranslation m = startingPoint
      /\ getCurrentTranslation m = startingPoint
      /\ getInitialRotation m = angle
      /\ getCurrentRotation m = angle
      /\ readGyro m = readGyro m0
      /\ getElapsedSimTime m = getElapsedSimTime m0
      /\ match parse mouseFile startingPoint angle with
         | None => success = false /\ m_wheels m = m_wheels m0
         | Some (body, wheels, sensors, parsed) =>
             success = parsed
             /\ m_initialBodyPolygon m = body
             /\ m_wheels m = wheels
             /\ m_sensors m = sensors
             /\ getWheelSpeedAdjustmentFactors startingPoint angle wheels
                = Returns (m_wheelSpeedAdjustmentFactors m)
         end
  | AssertFailed =>
      exists body wheels sensors parsed,
        parse mouseFile startingPoint angle
        = Some (body, wheels, sensors, parsed)
        /\ getWheelSpeedAdjustmentFactors startingPoint angle wheels
           = AssertFailed
  | Throws => False
  end.
Proof. apply initialize_cases. Qed.

(** X18.  Once [initialize] has returned with success, every wheel of
    the mouse has its pair of adjustment factors, both in [[-1, 1]]; so
    the loop of [setWheelSpeedsForMovement] over the wheels never fails
    its [ASSERT_TR] and its lookup never throws, whatever the fraction and
    the normalized factors. *)
Theorem initialize_gives_wheels_their_factors (mouseFile : string)
    (initialDirection : Direction) (m0 m : Mouse) :
  initialize wallLength wallWidth convexHull createCirclePolygon parse
    mouseFile initialDirection m0 = Returns (m, true) ->
  (forall name w, In (name, w) (m_wheels m) ->
     exists factors,
       lookup (m_wheelSpeedAdjustmentFactors m) name = Some factors
       /\ Rabs (fst factors) <= 1 /\ Rabs (snd factors) <= 1)
  /\ forall fractionOfMaxSpeed normalizedForwardFactor normalizedTurnFactor,
       exists wheelSpeeds,
         movementSpeeds (m_wheelSpeedAdjustmentFactors m) fractionOfMaxSpeed
           normalizedForwardFactor normalizedTurnFactor (m_wheels m)
         = Returns wheelSpeeds
         /\ keys wheelSpeeds = keys (m_wheels m).
Proof.
  intros Hinit.
  pose proof (initialize_cases mouseFile initialDirection m0) as Hcases.
  cbv zeta in Hcases. rewrite Hinit in Hcases.
  destruct Hcases as (_ & _ & _ & _ & _ & _ & Hparse).
  destruct (parse mouseFile startingPoint (DIRECTION_TO_ANGLE initialDirection))
    as [[[[body wheels] sensors] parsed]|]; [|now destruct Hparse].
  destruct Hparse as (_ & _ & Hwheels & _ & Hret).
  destruct (getWheelSpeedAdjustmentFactors_checked _ _ _ _ Hret)
    as [Hkeys Hall].
  assert (Hfactors : forall name w, In (name, w) (m_wheels m) ->
            exists factors,
              lookup (m_wheelSpeedAdjustmentFactors m) name = Some factors
              /\ Rabs (fst factors) <= 1 /\ Rabs (snd factors) <= 1).
  { intros name w Hin.
    destruct (lookup_keys (m_wheelSpeedAdjustmentFactors m) name) as [p Hp].
    { rewrite Hkeys, <- Hwheels. now apply In_keys with w. }
    exists p. split; [assumption|]. apply Hall with name. now apply lookup_In. }
  split; [exact Hfactors|].
  intros fraction nf nt.
  destruct (movementSpeeds_returns (m_wheelSpeedAdjustmentFactors m)
              fraction nf nt (m_wheels m)) as (wheelSpeeds & Hspeeds & _).
  { intros name w Hin. destruct (Hfactors name w Hin) as (p & Hp & _).
    now exists p. }
  exists wheelSpeeds. split; [assumption|].
  now apply movementSpeeds_keys in Hspeeds.
Qed.

End Initialize.

Lemma initialize_gives_factors_witness :
  exists m,
    initialize 2 0 CurveTurn.noHull CurveTurn.noCircle CurveTurn.parseOneWheel
      "mouse" EAST newMouse = Returns (m, true)
    /\ (forall name w, In (name, w) (m_wheels m) ->
          exists factors,
            lookup (m_wheelSpeedAdjustmentFactors m) name = Some factors
            /\ Rabs (fst factors) <= 1 /\ Rabs (snd factors) <= 1)
    /\ forall fractionOfMaxSpeed normalizedForwardFactor normalizedTurnFactor,
         exists wheelSpeeds,
           movementSpeeds (m_wheelSpeedAdjustmentFactors m) fractionOfMaxSpeed
             normalizedForwardFactor normalizedTurnFactor (m_wheels m)
           = Returns wheelSpeeds
           /\ keys wheelSpeeds = keys (m_wheels m).
Proof.
  destruct CurveTurn.oneWheel_initializes as (m & Hm & _). exists m.
  split; [exact Hm|].
  exact (initialize_gives_wheels_their_factors 2 0 CurveTurn.noHull
           CurveTurn.noCircle CurveTurn.parseOneWheel "mouse" EAST
           newMouse m Hm).
Defined.

End AdjustmentFactors.


(* ================================================================= *)
(** * The tile and the direction of the mouse *)

Module Discretized.

Import Text Geometry StringMap Mouse MouseQueries.
Local Open Scope R_scope.

(** ** The tile *)

Definition inIntRange (z : Z) : Prop := (INT_MIN <= z <= INT_MAX)%Z.

Lemma truncate_IZR z : truncate (IZR z) = z.
Proof.
  unfold truncate. destruct (Rleb 0 (IZR z)).
  - apply ZfloorZ.
  - apply Zceil_eq. lra.
Qed.

Lemma static_cast_int_floor r z :
  static_cast_int (floor (Some r)) = Some z
  <-> inIntRange z /\ IZR z <= r < IZR z + 1.
Proof.
  unfold static_cast_int, floor, inIntRange. cbn [option_map].
  rewrite truncate_IZR. split.
  - destruct ((INT_MIN <=? Zfloor r) && (Zfloor r <=? INT_MAX))%Z eqn:Hrange;
      [|discriminate].
    intros [= <-]. apply andb_prop in Hrange. destruct Hrange as [H1 H2].
    apply Z.leb_le in H1, H2. split; [now split|]. apply Zfloor_bound.
  - intros [[H1 H2] Hr]. rewrite (Zfloor_eq z r Hr).
    apply Z.leb_le in H1, H2. now rewrite H1, H2.
Qed.

Lemma quotient_between x tileLength z :
  0 < tileLength ->
  IZR z <= x / tileLength < IZR z + 1
  <-> IZR z * tileLength <= x < (IZR z + 1) * tileLength.
Proof.
  intros Hpos. split; intros [H1 H2].
  - split.
    + apply Rmult_le_reg_r with (/ tileLength);
        [now apply Rinv_0_lt_compat|].
      rewrite Rmult_assoc, Rinv_r by lra. unfold Rdiv in H1. lra.
    + apply Rmult_lt_reg_r with (/ tileLength);
        [now apply Rinv_0_lt_compat|].
      rewrite (Rmult_assoc _ tileLength), Rinv_r by lra. unfold Rdiv in H2. lra.
  - split.
    + apply Rmult_le_reg_r with tileLength; [assumption|].
      unfold Rdiv. rewrite Rmult_assoc, Rinv_l by lra. lra.
    + apply Rmult_lt_reg_r with tileLength; [assumption|].
      unfold Rdiv. rewrite Rmult_assoc, Rinv_l by lra. lra.
Qed.

Lemma tile_of_translation (wallLength wallWidth : R) (m : Mouse) (x y : Z) :
  0 < wallLength + wallWidth ->
  let tileLength := wallLength + wallWidth in
  getCurrentDiscretizedTranslation wallLength wallWidth m = Some (x, y)
  <-> inIntRange x /\ inIntRange y
      /\ IZR x * tileLength <= getX (getCurrentTranslation m)
         < (IZR x + 1) * tileLength
      /\ IZR y * tileLength <= getY (getCurrentTranslation m)
         < (IZR y + 1) * tileLength.
Proof.
  intros Hpos tileLength. unfold getCurrentDiscretizedTranslation. cbv zeta.
  fold tileLength.
  rewrite !CurveTurn.fdiv_real by (unfold tileLength; lra).
  pose proof (static_cast_int_floor
                (getX (getCurrentTranslation m) / tileLength)) as Hx.
  pose proof (static_cast_int_floor
                (getY (getCurrentTranslation m) / tileLength)) as Hy.
  split.
  - destruct (static_cast_int (floor (Some (getX _ / tileLength)))) as [x'|];
      [|discriminate].
    destruct (static_cast_int (floor (Some (getY _ / tileLength)))) as [y'|];
      [|discriminate].
    intros [= <- <-].
    destruct (proj1 (Hx x') eq_refl) as [Hxr Hxb].
    destruct (proj1 (Hy y') eq_refl) as [Hyr Hyb].
    apply quotient_between in Hxb, Hyb; try assumption. tauto.
  - intros (Hxr & Hyr & Hxb & Hyb).
    apply quotient_between in Hxb, Hyb; try assumption.
    rewrite (proj2 (Hx x) (conj Hxr Hxb)), (proj2 (Hy y) (conj Hyr Hyb)).
    reflexivity.
Qed.

(** X19.  With tiles of a positive length, [getCurrentDiscretizedTranslation]
    returns the tile that holds the centre of the mouse: it returns
    [(x, y)] exactly when both fit an [int] and the current translation
    lies at least [x] and less than [x + 1] tile lengths along X, and at
    least [y] and less than [y + 1] tile lengths along Y. *)
Theorem getCurrentDiscretizedTranslation_tile (wallLength wallWidth : R)
    (m : Mouse) (x y : Z) :
  0 < wallLength + wallWidth ->
  let tileLength := wallLength + wallWidth in
  getCurrentDiscretizedTranslation wallLength wallWidth m = Some (x, y)
  <-> inIntRange x /\ inIntRange y
      /\ IZR x * tileLength <= getX (getCurrentTranslation m)
         < (IZR x + 1) * tileLength
      /\ IZR y * tileLength <= getY (getCurrentTranslation m)
         < (IZR y + 1) * tileLength.
Proof. apply tile_of_translation. Qed.

Lemma getCurrentDiscretizedTranslation_witness :
  getCurrentDiscretizedTranslation 2 0
    (teleport (mkCartesian 5 3) 0 Kinematics.oneWheelMouse)
  = Some (2, 1)%Z.
Proof.
  apply (proj2 (getCurrentDiscretizedTranslation_tile 2 0
                  (teleport (mkCartesian 5 3) 0 Kinematics.oneWheelMouse)
                  2 1 ltac:(lra))).
  unfold inIntRange, INT_MIN, INT_MAX. cbn. repeat split; try lia; lra.
Defined.

(** ** The direction *)

Lemma getRadiansZeroTo2pi_range radians :
  0 <= getRadiansZeroTo2pi radians < 2 * PI.
Proof.
  unfold getRadiansZeroTo2pi. pose proof PI_RGT_0 as Hpi.
  pose proof (Zfloor_bound (radians / (2 * PI))) as Hb.
  apply quotient_between in Hb; [|lra]. lra.
Qed.

Definition directionIndex (d : Direction) : Z :=
  match d with EAST => 0 | NORTH => 1 | WEST => 2 | SOUTH => 3 end.

Lemma DIRECTION_TO_ANGLE_index d :
  DIRECTION_TO_ANGLE d = IZR (directionIndex d) * (PI / 2).
Proof. destruct d; unfold DIRECTION_TO_ANGLE, degreesToRadians; cbn; field. Qed.

Lemma quarter_turn : degreesToRadians 90 = PI / 2.
Proof. unfold degreesToRadians. field. Qed.

Lemma eighth_turn : degreesToRadians 45 = PI / 4.
Proof. unfold degreesToRadians. field. Qed.

(** The direction for a quarter that fits the [switch]. *)
Lemma getCurrentDiscretizedRotation_quarter m d :
  IZR (directionIndex d) * (PI / 2)
  <= getRadiansZeroTo2pi (getCurrentRotation m + PI / 4)
  < (IZR (directionIndex d) + 1) * (PI / 2) ->
  getCurrentDiscretizedRotation m = Some d.
Proof.
  intros Hq. unfold getCurrentDiscretizedRotation. cbv zeta.
  rewrite quarter_turn, eighth_turn. pose proof PI_RGT_0 as Hpi.
  rewrite CurveTurn.fdiv_real by lra.
  apply quotient_between in Hq; [|lra].
  rewrite (proj2 (static_cast_int_floor _ (directionIndex d))).
  - now destruct d.
  - split; [|assumption]. unfold inIntRange, INT_MIN, INT_MAX.
    destruct d; cbn; lia.
Qed.

(** X20.  In exact arithmetic [getCurrentDiscretizedRotation] always
    reaches a [return] of its [switch], and the direction it returns is the
    one nearest to the current rotation: up to whole turns, the rotation is
    at least 45 degrees below and less than 45 degrees above the angle of
    that direction. *)
Theorem getCurrentDiscretizedRotation_nearest (m : Mouse) :
  exists (d : Direction) (turns : Z),
    getCurrentDiscretizedRotation m = Some d
    /\ - (PI / 4)
       <= getCurrentRotation m - DIRECTION_TO_ANGLE d - 2 * PI * IZR turns
       < PI / 4.
Proof.
  pose proof PI_RGT_0 as Hpi.
  set (normalized := getRadiansZeroTo2pi (getCurrentRotation m + PI / 4)).
  pose proof (getRadiansZeroTo2pi_range (getCurrentRotation m + PI / 4)) as Hrange.
  fold normalized in Hrange.
  pose proof (Zfloor_bound (normalized / (PI / 2))) as Hb.
  apply quotient_between in Hb; [|lra].
  set (quarter := Zfloor (normalized / (PI / 2))) in *.
  assert (Hq : (0 <= quarter < 4)%Z).
  { split.
    - apply Z.lt_succ_r. apply lt_IZR. rewrite succ_IZR.
      apply Rmult_lt_reg_r with (PI / 2); lra.
    - apply lt_IZR. apply Rmult_lt_reg_r with (PI / 2); lra. }
  assert (Hd : exists d, directionIndex d = quarter).
  { assert (quarter = 0 \/ quarter = 1 \/ quarter = 2 \/ quarter = 3)%Z
      as [->|[->|[->| ->]]] by lia;
      [now exists EAST | now exists NORTH | now exists WEST | now exists SOUTH]. }
  destruct Hd as [d Hd]. rewrite <- Hd in Hb.
  exists d, (Zfloor ((getCurrentRotation m + PI / 4) / (2 * PI))).
  split; [now apply getCurrentDiscretizedRotation_quarter|].
  rewrite DIRECTION_TO_ANGLE_index.
  unfold normalized, getRadiansZeroTo2pi in Hb. lra.
Qed.

Lemma direction_of_angle m d :
  getCurrentRotation m = DIRECTION_TO_ANGLE d ->
  getCurrentDiscretizedRotation m = Some d.
Proof.
  intros Hr. pose proof PI_RGT_0 as Hpi.
  apply getCurrentDiscretizedRotation_quarter.
  rewrite Hr, DIRECTION_TO_ANGLE_index. unfold getRadiansZeroTo2pi.
  rewrite (Zfloor_eq 0).
  - destruct d; cbn [directionIndex]; lra.
  - apply quotient_between; [lra|]. destruct d; cbn [directionIndex]; lra.
Qed.

(** ** Where the mouse starts *)

(** X21.  With tiles of a positive length, the mouse that [initialize]
    returns is in the tile (0, 0) and in the initial direction. *)
Theorem initialize_starts_in_first_tile (wallLength wallWidth : R)
    (convexHull : list Polygon -> Polygon)
    (createCirclePolygon : Cartesian -> R -> nat -> Polygon)
    (parse : string -> Cartesian -> R ->
             option (Polygon * StringMap.t Wheel * StringMap.t Sensor * bool))
    (mouseFile : string) (initialDirection : Direction) (m0 m : Mouse)
    (success : bool) :
  0 < wallLength + wallWidth ->
  initialize wallLength wallWidth convexHull createCirclePolygon parse
    mouseFile initialDirection m0 = Returns (m, success) ->
  getCurrentDiscretizedTranslation wallLength wallWidth m = Some (0, 0)%Z
  /\ getCurrentDiscretizedRotation m = Some initialDirection.
Proof.
  intros Hpos Hinit.
  pose proof (AdjustmentFactors.initialize_cases wallLength wallWidth
                convexHull createCirclePolygon parse mouseFile
                initialDirection m0) as Hcases.
  cbv zeta in Hcases. rewrite Hinit in Hcases.
  destruct Hcases as (_ & HT & _ & HR & _). split.
  - apply (tile_of_translation wallLength wallWidth m 0 0 Hpos).
    rewrite HT. unfold AdjustmentFactors.startingPoint, inIntRange,
      INT_MIN, INT_MAX.
    cbn [getX getY]. repeat split; try lia; lra.
  - now apply direction_of_angle.
Qed.

Lemma initialize_starts_witness :
  exists m,
    initialize 2 0 CurveTurn.noHull CurveTurn.noCircle CurveTurn.parseOneWheel
      "mouse" EAST newMouse = Returns (m, true)
    /\ getCurrentDiscretizedTranslation 2 0 m = Some (0, 0)%Z
    /\ getCurrentDiscretizedRotation m = Some EAST.
Proof.
  destruct CurveTurn.oneWheel_initializes as (m & Hm & _). exists m.
  split; [exact Hm|].
  apply (initialize_starts_in_first_tile 2 0 CurveTurn.noHull
           CurveTurn.noCircle CurveTurn.parseOneWheel "mouse" EAST newMouse
           m true); [lra | exact Hm].
Defined.

End Discretized.
